(** * fast-synth: the top-down composite builder and the scene loader

    A shallow embedding of [scene-synth/data/rendered.py]:
    [RenderedComposite] (the multi-channel raster that is assembled object by
    object) and [RenderedScene] (the loader that produces the object list).

    Modelling decisions.
    - A tensor entry is an exact rational ([Qc], canonical fractions, so that
      equal numbers are equal terms).  The values the builder itself produces
      ([0], [0.5], [1], sums of [0.5]) are dyadic and exact in the source's
      float32 as well; rounding of arbitrary heights is not modelled.
    - A 2-D tensor is a list of rows, a 3-D tensor a list of 2-D tensors.
      Element-wise operations are written for operands of one shape, which is
      the class invariant [wf] below (all maps are [size] x [size]); the one
      place where the source relies on a shape check, the slice assignment
      that pastes a patch, carries the check and its broadcasting rule.
    - Methods that mutate [self] are computations in a state-and-exception
      monad whose state survives an exception, as an object mutated in place
      does in Python. *)

From Stdlib Require Import QArith Qcanon Qround ZArith Lia Lqa Ascii String.
From stdpp Require Import base numbers list option strings pretty gmap.

Open Scope Qc_scope.

(** ** Numbers *)

Definition half : Qc := Q2Qc (1 # 2).

(** [math.floor] *)
Definition floor (x : Qc) : Z := Qfloor (this x).

(** Python's [a > b] on numbers. *)
Definition gtb (a b : Qc) : bool := bool_decide (b < a).

Definition Qcmax (a b : Qc) : Qc := if gtb b a then b else a.

(** [(value + 1) / 2], the encoding of a sine or cosine into [0, 1]. *)
Definition encode (v : Qc) : Qc := (v + 1) / 2.

(** ** Tensors *)

Abbreviation Grid := (list (list Qc)).
Abbreviation Stack := (list (list (list Qc))).
Abbreviation BoolGrid := (list (list bool)).

Definition zeros (n m : nat) : Grid := replicate n (replicate m 0).
Definition zeros3 (c n m : nat) : Stack := replicate c (zeros n m).
Definition zeros_like (g : Grid) : Grid :=
  (λ row : list Qc, (λ _, 0) <$> row) <$> g.

(** [t.shape] of a 2-D tensor (a tensor without rows has shape (0, 0) here). *)
Definition shape (g : Grid) : nat * nat :=
  (length g, match g with [] => 0%nat | r :: _ => length r end).

(** [g[i][j]], [None] outside the tensor. *)
Definition cell {A} (g : list (list A)) (i j : nat) : option A :=
  g !! i ≫= (.!! j).

(** [t[c][i][j]] of a 3-D tensor. *)
Definition cell3 {A} (t : list (list (list A))) (c i j : nat) : option A :=
  t !! c ≫= λ g, cell g i j.

Definition map2 {A B C} (f : A → B → C)
  : list (list A) → list (list B) → list (list C) := zip_with (zip_with f).

(** [a > b], [a > c], [a != c] as boolean tensors. *)
Definition gt (a b : Grid) : BoolGrid := map2 gtb a b.
Definition gt_scalar (a : Grid) (c : Qc) : BoolGrid :=
  (λ row : list Qc, (λ x, gtb x c) <$> row) <$> a.
Definition ne_scalar (a : Grid) (c : Qc) : BoolGrid :=
  (λ row : list Qc, (λ x, negb (bool_decide (x = c))) <$> row) <$> a.

(** [dst[m] = src[m]]: the cells selected by [m] take the value of [src]. *)
Definition masked_assign (dst : Grid) (m : BoolGrid) (src : Grid) : Grid :=
  map2 (λ d (bs : bool * Qc), if bs.1 then bs.2 else d) dst (map2 pair m src).

(** [dst[m] = v] for a scalar [v]. *)
Definition masked_fill (dst : Grid) (m : BoolGrid) (v : Qc) : Grid :=
  map2 (λ d (b : bool), if b then v else d) dst m.

(** [a + b] and [torch.max(a, b)]. *)
Definition add (a b : Grid) : Grid := map2 Qcplus a b.
Definition max2 (a b : Grid) : Grid := map2 Qcmax a b.

(** [t.sum(0)] of a stack of [n] x [m] tensors. *)
Definition sum0 (n m : nat) (t : Stack) : Grid := foldl add (zeros n m) t.

(** ** Errors and results *)

Inductive Error :=
  | NotImplementedError
  | IndexError
  | KeyError
  | TypeError
  | ZeroDivisionError
  | FileNotFoundError
  | RuntimeError. (* torch: the shapes of a slice and of its source differ *)

Inductive result (A : Type) :=
  | Ok (a : A)
  | Raise (e : Error).
Arguments Ok {A} a.
Arguments Raise {A} e.

Definition result_bind {A B} (r : result A) (k : A → result B) : result B :=
  match r with Ok a => k a | Raise e => Raise e end.

(** ** Python indexing *)

(** [t[i]] for an integer [i] on a sequence of length [n]: negative indices
    count from the end, anything else outside is an [IndexError]. *)
Definition py_index (n : nat) (i : Z) : result nat :=
  if decide (0 ≤ i < Z.of_nat n)%Z then Ok (Z.to_nat i)
  else if decide (- Z.of_nat n ≤ i < 0)%Z then Ok (Z.to_nat (Z.of_nat n + i))
  else Raise IndexError.

(** A bound of the slice [a:b] on an axis of length [n], clipped as Python
    clips it. *)
Definition slice_bound (n : nat) (i : Z) : nat :=
  Z.to_nat (if (i <? 0)%Z then Z.max 0 (Z.of_nat n + i) else Z.min i (Z.of_nat n)).

(** A source axis of extent [src] can be written into a destination slice of
    extent [dst] when the extents agree or the source extent is 1 (it is then
    expanded). *)
Definition broadcastable (src dst : nat) : bool :=
  (src =? dst)%nat || (src =? 1)%nat.

(** [dst[x0:x1, y0:y1] = h]. *)
Definition setitem_slice (dst : Grid) (x0 x1 y0 y1 : Z) (h : Grid) : result Grid :=
  let '(n, m) := shape dst in
  let '(xs, ys) := shape h in
  let r0 := slice_bound n x0 in
  let rows := (slice_bound n x1 - r0)%nat in
  let c0 := slice_bound m y0 in
  let cols := (slice_bound m y1 - c0)%nat in
  if broadcastable xs rows && broadcastable ys cols then
    Ok (imap (λ i row,
          if decide (r0 ≤ i < r0 + rows)%nat then
            imap (λ j v,
              if decide (c0 ≤ j < c0 + cols)%nat then
                default v (cell h (if (xs =? 1)%nat then 0 else i - r0)%nat
                                  (if (ys =? 1)%nat then 0 else j - c0)%nat)
              else v) row
          else row) dst)
  else Raise RuntimeError.

(** ** Object records *)

(** [node["category"]]: the loader stores the tag ["door"] or ["window"], or
    the integer index of a furniture category. *)
Inductive Category :=
  | Tag (s : string)
  | Idx (i : Z).

Global Instance Category_eq_dec : EqDecision Category.
Proof. solve_decision. Defined.

Module Node.
Record t := mk {
  modelId : string;
  height_map : Grid;
  bbox_min : Qc * Qc * Qc;
  height_map_obb : Grid;
  bbox_min_obb : Qc * Qc * Qc;
  transform : list Qc;
  category : Category;
}.
End Node.

(** [v[0]] and [v[2]] of a three-vector. *)
Definition vec0 (v : Qc * Qc * Qc) : Qc := v.1.1.
Definition vec2 (v : Qc * Qc * Qc) : Qc := v.2.

(** ** The composite *)

Record RenderedComposite := mkRC {
  size : nat;
  categories : list string;
  room_mask : Grid;
  wall_mask : Grid;
  height_map : Grid;
  cat_map : Stack;
  sin_map : Grid;
  cos_map : Grid;
  door_map : Grid;
  window_map : Grid;
}.

Definition set_height_map (v : Grid) (s : RenderedComposite) : RenderedComposite :=
  mkRC (size s) (categories s) (room_mask s) (wall_mask s) v (cat_map s)
       (sin_map s) (cos_map s) (door_map s) (window_map s).
Definition set_wall_mask (v : Grid) (s : RenderedComposite) : RenderedComposite :=
  mkRC (size s) (categories s) (room_mask s) v (height_map s) (cat_map s)
       (sin_map s) (cos_map s) (door_map s) (window_map s).
Definition set_cat_map (v : Stack) (s : RenderedComposite) : RenderedComposite :=
  mkRC (size s) (categories s) (room_mask s) (wall_mask s) (height_map s) v
       (sin_map s) (cos_map s) (door_map s) (window_map s).
Definition set_sin_map (v : Grid) (s : RenderedComposite) : RenderedComposite :=
  mkRC (size s) (categories s) (room_mask s) (wall_mask s) (height_map s) (cat_map s)
       v (cos_map s) (door_map s) (window_map s).
Definition set_cos_map (v : Grid) (s : RenderedComposite) : RenderedComposite :=
  mkRC (size s) (categories s) (room_mask s) (wall_mask s) (height_map s) (cat_map s)
       (sin_map s) v (door_map s) (window_map s).
Definition set_door_map (v : Grid) (s : RenderedComposite) : RenderedComposite :=
  mkRC (size s) (categories s) (room_mask s) (wall_mask s) (height_map s) (cat_map s)
       (sin_map s) (cos_map s) v (window_map s).
Definition set_window_map (v : Grid) (s : RenderedComposite) : RenderedComposite :=
  mkRC (size s) (categories s) (room_mask s) (wall_mask s) (height_map s) (cat_map s)
       (sin_map s) (cos_map s) (door_map s) v.

(** ** Methods as computations on [self] *)

Definition ST (St A : Type) : Type := St → result A * St.

Global Instance ST_ret {St} : MRet (ST St) := λ A a s, (Ok a, s).
Global Instance ST_bind {St} : MBind (ST St) := λ A B k c s,
  match c s with
  | (Ok a, s') => k a s'
  | (Raise e, s') => (Raise e, s')
  end.
Definition raise {St A} (e : Error) : ST St A := λ s, (Raise e, s).
Definition get {St} : ST St St := λ s, (Ok s, s).
Definition modify {St} (f : St → St) : ST St unit := λ s, (Ok tt, f s).
Definition lift {St A} (r : result A) : ST St A :=
  match r with Ok a => mret a | Raise e => raise e end.

Global Instance result_ret : MRet result := λ A a, Ok a.
Global Instance result_mbind : MBind result := λ A B k r, result_bind r k.

(** [for x in xs: body(x)] *)
Fixpoint for_each {St A} (body : A → ST St unit) (xs : list A) : ST St unit :=
  match xs with
  | [] => mret tt
  | x :: xs' => body x;; for_each body xs'
  end.

(** The methods of the composite run on [self]. *)
Abbreviation M := (ST RenderedComposite).

(** The 0/0.5 occupancy mask of a patch:
    [mask = torch.zeros(to_add.size()); mask[to_add > 0] = 0.5] *)
Definition occupancy (to_add : Grid) : Grid :=
  masked_fill (zeros_like to_add) (gt_scalar to_add 0) half.

(** The layer [cat_map[category]] addressed by a node's category: a tag is not
    an index. *)
Definition layer_index (n : nat) (category : Category) : result nat :=
  match category with
  | Idx i => py_index n i
  | Tag _ => Raise IndexError
  end.

(** [get_transformation]: the sine and cosine of the rotation, from two
    entries of the flattened transform.  [sqrt] is the square root of the
    host arithmetic ([** 0.5]); the transform is a list of Python floats, for
    which a division by a zero scale raises. *)
Section Transformation.
Variable sqrt : Qc → Qc.

Definition get_transformation (transform : list Qc) : result (Qc * Qc) :=
  match transform !! 0%nat, transform !! 8%nat with
  | Some a, Some b =>
      let scale := sqrt (a * a + b * b) in
      if decide (scale = 0) then Raise ZeroDivisionError
      else Ok (b / scale, a / scale)
  | _, _ => Raise IndexError
  end.
End Transformation.

(** [add_height_map] *)
Definition add_height_map (to_add : Grid) (category : Category) (sin cos : Qc)
  : M unit :=
  self ← get;
  let update := gt to_add (height_map self) in
  modify (set_height_map (masked_assign (height_map self) update to_add));;
  let mask := occupancy to_add in
  self ← get;
  i ← lift (layer_index (length (cat_map self)) category);
  row ← lift (from_option Ok (Raise IndexError) (cat_map self !! i));
  modify (set_cat_map (<[i := add row mask]> (cat_map self)));;
  self ← get;
  modify (set_sin_map (masked_fill (sin_map self) update (encode sin)));;
  self ← get;
  modify (set_cos_map (masked_fill (cos_map self) update (encode cos))).

(** The offset of a patch in the room: the floor of the bounding-box minimum
    on x and z, not below 0, and 0 on an axis where the patch is 256 wide
    (the same lines in [__init__] and in [add_node]). *)
Definition patch_offset (h : Grid) (bbox_min : Qc * Qc * Qc) : Z * Z :=
  let '(xsize, ysize) := shape h in
  let xmin := floor (vec0 bbox_min) in
  let ymin := floor (vec2 bbox_min) in
  let xmin := if (xmin <? 0)%Z then 0%Z else xmin in
  let ymin := if (ymin <? 0)%Z then 0%Z else ymin in
  let xmin := if (xsize =? 256)%nat then 0%Z else xmin in
  let ymin := if (ysize =? 256)%nat then 0%Z else ymin in
  (xmin, ymin).

(** The offset as [add_node_obb] computes it. *)
Definition patch_offset_obb (bbox_min_obb : Qc * Qc * Qc) : Z * Z :=
  let xmin := Z.max 0 (floor (vec0 bbox_min_obb)) in
  let ymin := Z.max 0 (floor (vec2 bbox_min_obb)) in
  (xmin, ymin).

(** [to_add = torch.zeros((size, size));
     to_add[xmin : xmin + xsize, ymin : ymin + ysize] = h] *)
Definition paste (size : nat) (offset : Z * Z) (h : Grid) : result Grid :=
  let '(xsize, ysize) := shape h in
  let '(xmin, ymin) := offset in
  setitem_slice (zeros size size)
    xmin (xmin + Z.of_nat xsize) ymin (ymin + Z.of_nat ysize) h.

(** The body of the loop of [__init__] over the door and window records. *)
Definition add_door_window (node : Node.t) : M unit :=
  let h := Node.height_map node in
  self ← get;
  to_add ← lift (paste (size self) (patch_offset h (Node.bbox_min node)) h);
  let update := gt to_add (height_map self) in
  modify (set_height_map (masked_assign (height_map self) update to_add));;
  self ← get;
  modify (set_wall_mask (masked_fill (wall_mask self) (gt_scalar to_add 0) 1));;
  let to_add := masked_fill to_add (gt_scalar to_add 0) half in
  self ← get;
  if decide (Node.category node = Tag "door")
  then modify (set_door_map (add (door_map self) to_add))
  else modify (set_window_map (add (window_map self) to_add)).

(** The state of [__init__] before the door and window records are pasted. *)
Definition seeded (categories : list string) (floor wall : Grid) : RenderedComposite :=
  let size := (shape floor).1 in
  let room_mask := add floor wall in
  {| size := size;
     categories := categories;
     room_mask := masked_fill room_mask (ne_scalar room_mask 0) 1;
     wall_mask := masked_fill wall (ne_scalar wall 0) half;
     height_map := max2 floor wall;
     cat_map := zeros3 (length categories) size size;
     sin_map := zeros size size;
     cos_map := zeros size size;
     door_map := zeros size size;
     window_map := zeros size size |}.

(** [RenderedComposite.__init__]: an exception leaves no object behind. *)
Definition RenderedComposite_init (categories : list string) (floor wall : Grid)
    (door_window_nodes : list Node.t) : result RenderedComposite :=
  match for_each add_door_window door_window_nodes (seeded categories floor wall) with
  | (Ok _, self) => Ok self
  | (Raise e, _) => Raise e
  end.

Section Methods.
Variable sqrt : Qc → Qc.

(** [add_node] *)
Definition add_node (node : Node.t) : M unit :=
  let h := Node.height_map node in
  let category := Node.category node in
  self ← get;
  to_add ← lift (paste (size self) (patch_offset h (Node.bbox_min node)) h);
  '(sin, cos) ← lift (get_transformation sqrt (Node.transform node));
  add_height_map to_add category sin cos.

Definition add_nodes (nodes : list Node.t) : M unit := for_each add_node nodes.

(** [add_node_obb] *)
Definition add_node_obb (node : Node.t) : M unit :=
  let h := Node.height_map_obb node in
  let category := Node.category node in
  self ← get;
  to_add ← lift (paste (size self) (patch_offset_obb (Node.bbox_min_obb node)) h);
  '(sin, cos) ← lift (get_transformation sqrt (Node.transform node));
  add_height_map to_add category sin cos.

Definition add_nodes_obb (nodes : list Node.t) : M unit :=
  for_each add_node_obb nodes.
End Methods.

(** [get_cat_map] *)
Definition get_cat_map : M Stack := self ← get; mret (cat_map self).

(** [for i in range(n): composite[i + 8] = cat_map[i]] *)
Definition copy_layers (cat_map : Stack) (n : nat) (composite : Stack) : result Stack :=
  foldl (λ acc i,
           composite ← acc;
           layer ← from_option Ok (Raise IndexError) (cat_map !! i);
           Ok (<[(i + 8)%nat := layer]> composite))
        (Ok composite) (seq 0 n).

(** [add_and_get_composite] *)
Definition add_and_get_composite (to_add : Grid) (category : Category)
    (sin cos : Qc) (num_extra_channels : nat) (temporary : bool) : M Stack :=
  if negb temporary then raise NotImplementedError else
  self ← get;
  let update := gt to_add (height_map self) in
  let mask := occupancy to_add in
  let composite :=
    zeros3 (length (categories self) + num_extra_channels + 8) (size self) (size self) in
  let composite := <[0%nat := room_mask self]> composite in
  let composite := <[1%nat := wall_mask self]> composite in
  let composite :=
    <[2%nat := add (sum0 (size self) (size self) (cat_map self)) mask]> composite in
  let composite := <[3%nat := height_map self]> composite in
  let composite := alter (λ c, masked_assign c update to_add) 3%nat composite in
  let composite := <[4%nat := sin_map self]> composite in
  let composite := alter (λ c, masked_fill c update (encode sin)) 4%nat composite in
  let composite := <[5%nat := cos_map self]> composite in
  let composite := alter (λ c, masked_fill c update (encode cos)) 5%nat composite in
  let composite := <[6%nat := door_map self]> composite in
  let composite := <[7%nat := window_map self]> composite in
  composite ← lift (copy_layers (cat_map self) (length (categories self)) composite);
  j ← lift (match category with
            | Idx c => py_index (length composite) (8 + c)
            | Tag _ => Raise TypeError
            end);
  mret (alter (λ c, add c mask) j composite).

(** [get_composite] *)
Definition get_composite (num_extra_channels : nat) (ablation : option string)
  : M Stack :=
  self ← get;
  match ablation with
  | None =>
      let composite :=
        zeros3 (length (categories self) + num_extra_channels + 8) (size self) (size self) in
      let composite := <[0%nat := room_mask self]> composite in
      let composite := <[1%nat := wall_mask self]> composite in
      let composite := <[2%nat := sum0 (size self) (size self) (cat_map self)]> composite in
      let composite := <[3%nat := height_map self]> composite in
      let composite := <[4%nat := sin_map self]> composite in
      let composite := <[5%nat := cos_map self]> composite in
      let composite := <[6%nat := door_map self]> composite in
      let composite := <[7%nat := window_map self]> composite in
      lift (copy_layers (cat_map self) (length (categories self)) composite)
  | Some abl =>
      if decide (abl = "depth") then
        let composite := zeros3 (1 + num_extra_channels) (size self) (size self) in
        mret (<[0%nat := height_map self]> composite)
      else if decide (abl = "basic") then
        let composite := zeros3 (6 + num_extra_channels) (size self) (size self) in
        let composite := <[0%nat := room_mask self]> composite in
        let composite := <[1%nat := wall_mask self]> composite in
        let composite := <[2%nat := sum0 (size self) (size self) (cat_map self)]> composite in
        let composite := <[3%nat := height_map self]> composite in
        let composite := <[4%nat := sin_map self]> composite in
        let composite := <[5%nat := cos_map self]> composite in
        mret composite
      else raise NotImplementedError
  end.

(** ** The scene loader *)

(** What one room's pickle file holds: [(floor, wall, nodes), room]. *)
Record RoomRecord (Room : Type) := mkRoomRecord {
  rec_floor : Grid;
  rec_wall : Grid;
  rec_nodes : list Node.t;
  rec_room : Room;
}.
Arguments mkRoomRecord {Room}.
Arguments rec_floor {Room}.
Arguments rec_wall {Room}.
Arguments rec_nodes {Room}.
Arguments rec_room {Room}.

(** What the loader takes from outside the repository: the [random] module,
    the category mapping, the environment and the files. *)
Record Host := mkHost {
  Room : Type;
  RngState : Type;
  (** [random.seed(n)]: the generator state that the seed [n] determines *)
  random_seed : Z → RngState;
  (** [random.shuffle(xs)]: the permuted list and the generator state after it *)
  random_shuffle : list Node.t → RngState → list Node.t * RngState;
  (** [ObjectCategories.get_final_category] *)
  get_final_category : string → string;
  (** [utils.get_data_root_dir()] *)
  get_data_root_dir : string;
  (** [open(path).readlines()], [None] when the file is absent *)
  readlines : string → option (list string);
  (** [pickle.load(open(path))], [None] when the file is absent *)
  pickle_load : string → option (RoomRecord Room);
}.

Section Loader.
Context (host : Host).

(** The class attributes of [RenderedScene] and the state of [random]. *)
Record Globals := mkGlobals {
  g_categories : option (list string);
  g_cat_to_index : gmap string Z;
  g_current_data_dir : option string;
  g_rng : RngState host;
}.

Definition reseed (st : RngState host) (g : Globals) : Globals :=
  mkGlobals (g_categories g) (g_cat_to_index g) (g_current_data_dir g) st.
Definition set_categories (cats : list string) (idx : gmap string Z)
    (dir : string) (g : Globals) : Globals :=
  mkGlobals (Some cats) idx (Some dir) (g_rng g).

Record RenderedScene := mkScene {
  floor_grid : Grid;
  wall_grid : Grid;
  room : Room host;
  index : Z;
  rotation : Z;
  object_nodes : list Node.t;
  door_window_nodes : list Node.t;
  scene_size : nat;
}.

Definition set_category (c : Category) (node : Node.t) : Node.t :=
  Node.mk (Node.modelId node) (Node.height_map node) (Node.bbox_min node)
          (Node.height_map_obb node) (Node.bbox_min_obb node)
          (Node.transform node) c.

(** [{categories[i]: i for i in range(len(categories))}] *)
Definition index_of_categories (cats : list string) : gmap string Z :=
  foldl (λ m ic, <[ic.2 := Z.of_nat ic.1]> m) ∅ (imap pair cats).

(** [line.split()[0]] *)
Definition first_token (line : string) : result string :=
  from_option Ok (Raise IndexError) (head (String.words line)).

(** The body of the loop over the raw nodes; the accumulator is
    [(object_nodes, door_window_nodes)]. *)
Definition sort_node (load_objects : bool) (cat_to_index : gmap string Z)
    (acc : list Node.t * list Node.t) (node : Node.t)
  : result (list Node.t * list Node.t) :=
  let category := get_final_category host (Node.modelId node) in
  if decide (category ∈ ["door"; "window"]) then
    Ok (acc.1, acc.2 ++ [set_category (Tag category) node])
  else if load_objects then
    i ← from_option Ok (Raise KeyError) (cat_to_index !! category);
    Ok (acc.1 ++ [set_category (Idx i) node], acc.2)
  else Ok acc.

Definition sort_nodes (load_objects : bool) (cat_to_index : gmap string Z)
    (nodes : list Node.t) : result (list Node.t * list Node.t) :=
  foldl (λ acc node, a ← acc; sort_node load_objects cat_to_index a node)
        (Ok ([], [])) nodes.

(** [RenderedScene.__init__] *)
Definition RenderedScene_init (index : Z) (data_dir : string)
    (data_root_dir : option string) (shuffle load_objects : bool)
    (seed : option Z) (rotation : Z) : ST Globals RenderedScene :=
  (* if seed: random.seed(seed) *)
  match seed with
  | Some n => if decide (n = 0%Z) then mret tt
              else modify (reseed (random_seed host n))
  | None => mret tt
  end;;
  let data_root_dir :=
    match data_root_dir with
    | Some d => if decide (d = "") then get_data_root_dir host else d
    | None => get_data_root_dir host
    end in
  g ← get;
  (if decide (g_categories g = None ∨ g_current_data_dir g ≠ Some data_dir) then
     lines ← lift (from_option Ok (Raise FileNotFoundError)
               (readlines host
                  (data_root_dir +:+ "/" +:+ data_dir +:+ "/final_categories_frequency")));
     cats ← lift (mapM first_token lines);
     let categories := filter (λ cat, cat ∉ ["window"; "door"]) cats in
     modify (set_categories categories (index_of_categories categories) data_dir)
   else mret tt);;
  let fname :=
    if decide (rotation ≠ 0%Z) then pretty index +:+ "_" +:+ pretty rotation
    else pretty index in
  rec ← lift (from_option Ok (Raise FileNotFoundError)
            (pickle_load host
               (data_root_dir +:+ "/" +:+ data_dir +:+ "/" +:+ fname +:+ ".pkl")));
  g ← get;
  '(object_nodes, door_window_nodes) ←
     lift (sort_nodes load_objects (g_cat_to_index g) (rec_nodes rec));
  object_nodes ←
    (if shuffle then
       g ← get;
       let '(shuffled, st) := random_shuffle host object_nodes (g_rng g) in
       modify (reseed st);; mret shuffled
     else mret object_nodes);
  mret {| floor_grid := rec_floor rec;
          wall_grid := rec_wall rec;
          room := rec_room rec;
          index := index;
          rotation := rotation;
          object_nodes := object_nodes;
          door_window_nodes := door_window_nodes;
          scene_size := (shape (rec_floor rec)).1 |}.

(** The globals after [if seed: random.seed(seed)]. *)
Definition seeded_globals (seed : option Z) (g : Globals) : Globals :=
  match seed with
  | Some n => if decide (n = 0%Z) then g else reseed (random_seed host n) g
  | None => g
  end.

(** The category cache is filled, for the directory [dir]. *)
Definition cache_valid (dir : string) (g : Globals) : Prop :=
  is_Some (g_categories g) ∧ g_current_data_dir g = Some dir.

(** The path of a room's pickle file. *)
Definition room_path (index : Z) (data_dir : string)
    (data_root_dir : option string) (rotation : Z) : string :=
  let data_root_dir :=
    match data_root_dir with
    | Some d => if decide (d = "") then get_data_root_dir host else d
    | None => get_data_root_dir host
    end in
  let fname :=
    if decide (rotation ≠ 0%Z) then pretty index +:+ "_" +:+ pretty rotation
    else pretty index in
  data_root_dir +:+ "/" +:+ data_dir +:+ "/" +:+ fname +:+ ".pkl".

(** [create_composite] *)
Definition create_composite (scene : RenderedScene)
  : ST Globals RenderedComposite :=
  g ← get;
  match g_categories g with
  | Some categories =>
      lift (RenderedComposite_init categories
              (floor_grid scene) (wall_grid scene) (door_window_nodes scene))
  | None => raise TypeError
  end.
End Loader.

(** ** The class invariant: every map is [size] x [size] *)

Definition has_shape {A} (n m : nat) (g : list (list A)) : Prop :=
  length g = n ∧ Forall (λ r, length r = m) g.

Definition grid_wf (n : nat) (g : Grid) : Prop := has_shape n n g.

Record wf (s : RenderedComposite) : Prop := mk_wf {
  wf_room_mask : grid_wf (size s) (room_mask s);
  wf_wall_mask : grid_wf (size s) (wall_mask s);
  wf_height_map : grid_wf (size s) (height_map s);
  wf_cat_map_len : length (cat_map s) = length (categories s);
  wf_cat_map : Forall (grid_wf (size s)) (cat_map s);
  wf_sin_map : grid_wf (size s) (sin_map s);
  wf_cos_map : grid_wf (size s) (cos_map s);
  wf_door_map : grid_wf (size s) (door_map s);
  wf_window_map : grid_wf (size s) (window_map s);
}.

(** Cell-wise order on height maps of one shape. *)
Definition height_le (a b : Grid) : Prop := Forall2 (Forall2 Qcle) a b.

(** A patch overflows the room when its offset plus its extent passes the side
    of the room on an axis. *)
Definition overflows (size : nat) (offset : Z * Z) (h : Grid) : Prop :=
  (offset.1 + Z.of_nat (shape h).1 > Z.of_nat size)%Z ∨
  (offset.2 + Z.of_nat (shape h).2 > Z.of_nat size)%Z.

(** The overflow is on an axis where the patch is at least two cells wide. *)
Definition overflows_wide (size : nat) (offset : Z * Z) (h : Grid) : Prop :=
  ((offset.1 + Z.of_nat (shape h).1 > Z.of_nat size)%Z ∧ (2 ≤ (shape h).1)%nat) ∨
  ((offset.2 + Z.of_nat (shape h).2 > Z.of_nat size)%Z ∧ (2 ≤ (shape h).2)%nat).

(** The weight that a patch cell of height [t] adds to its category layer. *)
Definition weight (t : Qc) : Qc := if gtb t 0 then half else 0.

(** One call of [add_height_map] as data, to speak of sequences of calls. *)
Record Placement := mkPlacement {
  p_to_add : Grid;
  p_category : Category;
  p_sin : Qc;
  p_cos : Qc;
}.

Definition place (p : Placement) : M unit :=
  add_height_map (p_to_add p) (p_category p) (p_sin p) (p_cos p).

(** A placement that [add_height_map] accepts on a composite of side [n]
    with [c] categories. *)
Definition placement_ok (n c : nat) (p : Placement) : Prop :=
  grid_wf n (p_to_add p) ∧ ∃ k, layer_index c (p_category p) = Ok k.

(** The call of [add_height_map] that [add_node] makes for a node on a
    composite of side [size], when the patch can be pasted and the transform
    read. *)
Definition placement_of (sqrt : Qc → Qc) (size : nat) (node : Node.t)
  : result Placement :=
  let h := Node.height_map node in
  to_add ← paste size (patch_offset h (Node.bbox_min node)) h;
  sc ← get_transformation sqrt (Node.transform node);
  Ok (mkPlacement to_add (Node.category node) sc.1 sc.2).

(** One call of [add_and_get_composite] as data. *)
Record PreviewCall := mkPreviewCall {
  v_to_add : Grid;
  v_category : Category;
  v_sin : Qc;
  v_cos : Qc;
  v_num_extra_channels : nat;
  v_temporary : bool;
}.

Definition preview (v : PreviewCall) : M Stack :=
  add_and_get_composite (v_to_add v) (v_category v) (v_sin v) (v_cos v)
    (v_num_extra_channels v) (v_temporary v).

(** The sum of the values that the layers of a stack hold in one cell. *)
Definition cell_sum (t : Stack) (i j : nat) : Qc :=
  foldl Qcplus 0 ((λ g, default 0 (cell g i j)) <$> t).

(** ** Notions used by the further properties *)

(** Every entry lies in [0, 1]. *)
Definition in_unit (g : Grid) : Prop := Forall (Forall (λ v, 0 ≤ v ∧ v ≤ 1)) g.

(** [k] times 0.5. *)
Definition half_count (k : nat) : Qc := Nat.iter k (λ a, a + half) 0.

(** Every entry of every layer is a whole number of halves. *)
Definition half_steps (t : Stack) : Prop :=
  Forall (Forall (Forall (λ v, ∃ k, v = half_count k))) t.

(** The path of the frequency file of a data directory. *)
Definition frequency_path (host : Host) (data_dir : string)
    (data_root_dir : option string) : string :=
  let data_root_dir :=
    match data_root_dir with
    | Some d => if decide (d = "") then get_data_root_dir host else d
    | None => get_data_root_dir host
    end in
  data_root_dir +:+ "/" +:+ data_dir +:+ "/final_categories_frequency".

(** A record is a door or a window by the category of its model. *)
Definition is_door_window (host : Host) (node : Node.t) : Prop :=
  get_final_category host (Node.modelId node) ∈ ["door"; "window"].

Global Instance is_door_window_dec host node : Decision (is_door_window host node).
Proof. unfold is_door_window. apply _. Defined.

(** The record as the loader tags a door or a window. *)
Definition tag_node (host : Host) (node : Node.t) : Node.t :=
  set_category (Tag (get_final_category host (Node.modelId node))) node.

(** [utils.zeropad]: the loop [while len(sn) < n: sn = '0' + sn], which runs
    at most [n] times. *)
Fixpoint zeropad_loop (fuel : nat) (sn : string) (n : nat) : string :=
  match fuel with
  | O => sn
  | S fuel' =>
      if (String.length sn <? n)%nat then zeropad_loop fuel' ("0" +:+ sn) n
      else sn
  end.

(** [utils.zeropad] on an integer *)
Definition zeropad (num : Z) (n : nat) : string :=
  zeropad_loop n (pretty num) n.

(** ** Inputs of the examples *)

Definition q (z : Z) : Qc := Q2Qc (inject_Z z).

(** A square root that is exact on squares of integers and of unit fractions. *)
Definition sqrt_exact (x : Qc) : Qc :=
  Q2Qc (Z.sqrt (Qnum (this x)) # Pos.sqrt (Qden (this x))).

(** The transform of an object that is not rotated: sine 0, cosine 1. *)
Definition upright : list Qc := [q 1; 0; 0; 0; 0; 0; 0; 0; 0; 0; 0; 0; 0; 0; 0; 1].
(** The transform of an object turned by a quarter: sine 1, cosine 0. *)
Definition quarter_turn : list Qc := [0; 0; 0; 0; 0; 0; 0; 0; q 1; 0; 0; 0; 0; 0; 0; 1].

(** An empty room of side 3 with two categories. *)
Definition empty_room : RenderedComposite :=
  seeded ["chair"; "table"] (zeros 3 3) (zeros 3 3).

(** A chair: a 2 x 2 block of height 1 at rows 1-2, columns 0-1. *)
Definition chair : Node.t :=
  Node.mk "chair_01" [[q 1; q 1]; [q 1; q 1]] (q 1, q 5, 0)
          [[q 1; q 1]; [q 1; q 1]] (q 1, q 5, 0) upright (Idx 0).

(** A table over the chair's cell (1, 1): a 2 x 2 block of height 2 at rows
    1-2, columns 1-2, turned by a quarter. *)
Definition table : Node.t :=
  Node.mk "table_01" [[q 2; q 2]; [q 2; q 2]] (q 1, q 5, q 1)
          [[q 2; q 2]; [q 2; q 2]] (q 1, q 5, q 1) quarter_turn (Idx 1).

Definition chair_placement : Placement :=
  mkPlacement [[0; 0; 0]; [q 1; q 1; 0]; [q 1; q 1; 0]] (Idx 0) 0 (q 1).
Definition table_placement : Placement :=
  mkPlacement [[0; 0; 0]; [0; q 2; q 2]; [0; q 2; q 2]] (Idx 1) (q 1) 0.

(** The room after the chair is added. *)
Definition room_with_chair : RenderedComposite :=
  (add_nodes sqrt_exact [chair] empty_room).2.

(** A single cell of height 5 whose bounding box starts at row 3, one row
    below the last row of the room of side 3. *)
Definition pin : Node.t :=
  Node.mk "pin_01" [[q 5]] (q 3, 0, 0) [[q 5]] (q 3, 0, 0) upright (Idx 0).

(** A room of side 256 and a rug that covers all of it, with a bounding box
    recorded at x = 3, z = -2. *)
Definition full_room : RenderedComposite :=
  seeded ["rug"] (zeros 256 256) (zeros 256 256).
Definition full_patch : Grid := replicate 256 (replicate 256 (q 1)).
Definition rug : Node.t :=
  Node.mk "rug_01" full_patch (q 3, 0, q (-2)) full_patch (q 3, 0, q (-2))
          upright (Idx 0).

(** A stand-in for the host of the loader.  The generator state is a counter;
    a shuffle rotates the list by the counter and advances it; seeding sets
    the counter to the seed.  The category of a model is its identifier; the
    data directory holds the frequency file and room 7 with a chair, a door
    and a table. *)
Definition counter_shuffle (xs : list Node.t) (st : nat) : list Node.t * nat :=
  (rotate st xs, S st).

Definition raw (modelId : string) : Node.t :=
  Node.mk modelId [[q 1]] (0, 0, 0) [[q 1]] (0, 0, 0) upright (Tag "").

Definition toy_host : Host :=
  {| Room := unit;
     RngState := nat;
     random_seed := Z.to_nat;
     random_shuffle := counter_shuffle;
     get_final_category := λ modelId, modelId;
     get_data_root_dir := "/data";
     readlines := λ path,
       if decide (path = "/data/bedroom/final_categories_frequency")
       then Some ["chair 10"; "door 5"; "table 3"] else None;
     pickle_load := λ path,
       if decide (path = "/data/bedroom/7.pkl")
       then Some (mkRoomRecord (zeros 3 3) (zeros 3 3)
                    [raw "chair"; raw "door"; raw "table"] tt)
       else None |}.

(** The process before the first load: nothing cached, generator at 0. *)
Definition fresh_globals : Globals toy_host := mkGlobals toy_host None ∅ None 0%nat.

(** Loading room 7 of the bedroom directory with shuffling and a seed. *)
Definition load_room7 (seed : option Z)
  : ST (Globals toy_host) (RenderedScene toy_host) :=
  RenderedScene_init toy_host 7 "bedroom" None true true seed 0.

(** The model identifiers of the furniture records of two loads in a row. *)
Definition two_loads (seed : option Z) : result (list string * list string) :=
  match load_room7 seed fresh_globals with
  | (Ok scene1, g1) =>
      match load_room7 seed g1 with
      | (Ok scene2, _) =>
          Ok (Node.modelId <$> object_nodes toy_host scene1,
              Node.modelId <$> object_nodes toy_host scene2)
      | (Raise e, _) => Raise e
      end
  | (Raise e, _) => Raise e
  end.

(** A door over the top-left cell of a room of side 3, and a record that is
    tagged neither door nor window. *)
Definition door : Node.t :=
  Node.mk "door_01" [[q 2]] (0, 0, 0) [[q 2]] (0, 0, 0) upright (Tag "door").
Definition arch : Node.t :=
  Node.mk "arch_01" [[q 2]] (0, 0, 0) [[q 2]] (0, 0, 0) upright (Tag "arch").

(** ** Tensor lemmas *)

Section TensorLemmas.
Context {A B C : Type}.
Implicit Types (a : list (list A)) (b : list (list B)).

Lemma has_shape_row n m a i r :
  has_shape n m a → a !! i = Some r → length r = m.
Proof. intros [_ H] Hi. exact (proj1 (Forall_lookup _ _) H i r Hi). Qed.

Lemma has_shape_cell n m a i j :
  has_shape n m a → (i < n)%nat → (j < m)%nat → is_Some (cell a i j).
Proof.
  intros Hs Hi Hj. unfold cell.
  destruct (lookup_lt_is_Some_2 a i) as [r Hr]; [destruct Hs; lia|].
  rewrite Hr. simpl. apply lookup_lt_is_Some_2.
  rewrite (has_shape_row _ _ _ _ _ Hs Hr). done.
Qed.

Lemma cell_lt n m a i j v :
  has_shape n m a → cell a i j = Some v → (i < n)%nat ∧ (j < m)%nat.
Proof.
  intros Hs. unfold cell. destruct (a !! i) as [r|] eqn:Hr; [|done].
  simpl. intros Hj. split.
  - destruct Hs as [<- _]. by eapply lookup_lt_Some.
  - rewrite <- (has_shape_row _ _ _ _ _ Hs Hr). by eapply lookup_lt_Some.
Qed.

Lemma grid_ext n m (a a' : list (list A)) :
  has_shape n m a → has_shape n m a' →
  (∀ i j, (i < n)%nat → (j < m)%nat → cell a i j = cell a' i j) →
  a = a'.
Proof.
  intros Ha Ha' Hc. apply list_eq. intros i.
  destruct (decide (i < n)%nat) as [Hi|Hi].
  - destruct (lookup_lt_is_Some_2 a i) as [r Hr]; [destruct Ha; lia|].
    destruct (lookup_lt_is_Some_2 a' i) as [r' Hr']; [destruct Ha'; lia|].
    rewrite Hr, Hr'. f_equal. apply list_eq. intros j.
    destruct (decide (j < m)%nat) as [Hj|Hj].
    + specialize (Hc i j Hi Hj). unfold cell in Hc. by rewrite Hr, Hr' in Hc.
    + rewrite !(proj2 (lookup_ge_None _ _)); [done| |].
      * rewrite (has_shape_row _ _ _ _ _ Ha' Hr'). lia.
      * rewrite (has_shape_row _ _ _ _ _ Ha Hr). lia.
  - rewrite !(proj2 (lookup_ge_None _ _)); [done| |].
    + destruct Ha'. lia.
    + destruct Ha. lia.
Qed.

Lemma cell_map2 (f : A → B → C) a b i j :
  cell (map2 f a b) i j = x ← cell a i j; y ← cell b i j; Some (f x y).
Proof.
  unfold cell, map2. rewrite lookup_zip_with.
  destruct (a !! i) as [ra|]; [|done]. simpl.
  destruct (b !! i) as [rb|]; simpl.
  - rewrite lookup_zip_with. done.
  - by destruct (ra !! j).
Qed.

Lemma cell_fmap (f : A → B) a i j :
  cell ((λ row : list A, f <$> row) <$> a) i j = f <$> cell a i j.
Proof.
  unfold cell. rewrite list_lookup_fmap.
  destruct (a !! i) as [ra|]; [|done]. simpl. by rewrite list_lookup_fmap.
Qed.

Lemma has_shape_map2 (f : A → B → C) n m a b :
  has_shape n m a → has_shape n m b → has_shape n m (map2 f a b).
Proof.
  intros [Ha Fa] [Hb Fb]. split.
  - unfold map2. rewrite length_zip_with. lia.
  - apply Forall_lookup. intros i r. unfold map2. rewrite lookup_zip_with.
    destruct (a !! i) as [ra|] eqn:Hra; [|done].
    destruct (b !! i) as [rb|] eqn:Hrb; [|done]. simpl. intros [= <-].
    rewrite length_zip_with.
    rewrite (proj1 (Forall_lookup _ _) Fa i ra Hra).
    rewrite (proj1 (Forall_lookup _ _) Fb i rb Hrb). lia.
Qed.

Lemma has_shape_fmap (f : A → B) n m a :
  has_shape n m a → has_shape n m ((λ row : list A, f <$> row) <$> a).
Proof.
  intros [Ha Fa]. split.
  - by rewrite length_fmap.
  - apply Forall_fmap. eapply Forall_impl; [exact Fa|].
    intros r Hr. simpl. by rewrite length_fmap.
Qed.

Lemma has_shape_replicate n m (x : A) :
  has_shape n m (replicate n (replicate m x)).
Proof.
  split; [apply length_replicate|].
  apply Forall_replicate. apply length_replicate.
Qed.

Lemma cell_replicate n m (x : A) i j :
  (i < n)%nat → (j < m)%nat → cell (replicate n (replicate m x)) i j = Some x.
Proof.
  intros Hi Hj. unfold cell.
  rewrite (lookup_replicate_2 n (replicate m x) i Hi). simpl.
  by apply lookup_replicate_2.
Qed.
End TensorLemmas.

Lemma grid_wf_zeros n : grid_wf n (zeros n n).
Proof. apply has_shape_replicate. Qed.

Lemma cell_zeros n m i j : (i < n)%nat → (j < m)%nat → cell (zeros n m) i j = Some 0.
Proof. apply cell_replicate. Qed.

Lemma has_shape_gt n m a b :
  has_shape n m a → has_shape n m b → has_shape n m (gt a b).
Proof. apply has_shape_map2. Qed.

Lemma has_shape_masked_assign n m dst mask src :
  has_shape n m dst → has_shape n m mask → has_shape n m src →
  has_shape n m (masked_assign dst mask src).
Proof. intros. unfold masked_assign. by repeat apply has_shape_map2. Qed.

Lemma has_shape_masked_fill n m dst mask v :
  has_shape n m dst → has_shape n m mask → has_shape n m (masked_fill dst mask v).
Proof. intros. unfold masked_fill. by apply has_shape_map2. Qed.

Lemma has_shape_add n m a b :
  has_shape n m a → has_shape n m b → has_shape n m (add a b).
Proof. apply has_shape_map2. Qed.

Lemma cell_gt a b i j :
  cell (gt a b) i j = x ← cell a i j; y ← cell b i j; Some (gtb x y).
Proof. apply cell_map2. Qed.

Lemma cell_masked_assign dst mask src i j :
  cell (masked_assign dst mask src) i j =
    d ← cell dst i j; b ← cell mask i j; v ← cell src i j;
    Some (if b : bool then v else d).
Proof.
  unfold masked_assign. rewrite !cell_map2.
  destruct (cell dst i j); [|done]. simpl.
  destruct (cell mask i j); [|done]. simpl.
  by destruct (cell src i j).
Qed.

Lemma cell_masked_fill dst mask v i j :
  cell (masked_fill dst mask v) i j =
    d ← cell dst i j; b ← cell mask i j; Some (if b : bool then v else d).
Proof. apply cell_map2. Qed.

Lemma cell_add a b i j :
  cell (add a b) i j = x ← cell a i j; y ← cell b i j; Some (x + y).
Proof. apply cell_map2. Qed.

Lemma cell_occupancy to_add i j :
  cell (occupancy to_add) i j =
    weight <$> cell to_add i j.
Proof.
  unfold occupancy. rewrite cell_masked_fill.
  unfold zeros_like, gt_scalar. rewrite !cell_fmap.
  by destruct (cell to_add i j).
Qed.

Lemma has_shape_occupancy n m to_add :
  has_shape n m to_add → has_shape n m (occupancy to_add).
Proof.
  intros. apply has_shape_masked_fill; by apply has_shape_fmap.
Qed.

Lemma height_le_cells n m (a b : Grid) :
  has_shape n m a → has_shape n m b →
  (∀ i j x y, cell a i j = Some x → cell b i j = Some y → x ≤ y) →
  height_le a b.
Proof.
  intros Ha Hb Hc. apply Forall2_same_length_lookup_2.
  - destruct Ha, Hb. congruence.
  - intros i ra rb Hra Hrb. apply Forall2_same_length_lookup_2.
    + rewrite (has_shape_row _ _ _ _ _ Ha Hra).
      by rewrite (has_shape_row _ _ _ _ _ Hb Hrb).
    + intros j x y Hx Hy. apply (Hc i j); unfold cell.
      * by rewrite Hra.
      * by rewrite Hrb.
Qed.

Lemma height_le_cell (a b : Grid) i j x y :
  height_le a b → cell a i j = Some x → cell b i j = Some y → x ≤ y.
Proof.
  intros H. unfold cell.
  destruct (a !! i) as [ra|] eqn:Hra; [|done].
  destruct (b !! i) as [rb|] eqn:Hrb; [|done]. simpl. intros Hx Hy.
  pose proof (Forall2_lookup_lr _ _ _ _ _ _ H Hra Hrb) as Hr.
  exact (Forall2_lookup_lr _ _ _ _ _ _ Hr Hx Hy).
Qed.

Lemma height_le_refl a : height_le a a.
Proof.
  apply Forall_Forall2_diag, Forall_forall. intros r _.
  apply Forall_Forall2_diag, Forall_forall. intros x _. apply Qcle_refl.
Qed.

Lemma height_le_trans a b c : height_le a b → height_le b c → height_le a c.
Proof.
  apply Forall2_trans. intros x y z.
  apply Forall2_trans. intros ???. apply Qcle_trans.
Qed.

Lemma height_le_shape n m a b :
  height_le a b → has_shape n m a → has_shape n m b.
Proof.
  intros H [Hl Hf]. split.
  - rewrite <- Hl. symmetry. by eapply Forall2_length.
  - apply Forall_lookup. intros i rb Hrb.
    destruct (Forall2_lookup_r _ _ _ _ _ H Hrb) as (ra & Hra & Hr).
    rewrite <- (Forall2_length _ _ _ Hr).
    exact (proj1 (Forall_lookup _ _) Hf i ra Hra).
Qed.

(** ** [add_height_map], step by step *)

Lemma py_index_lt n i k : py_index n i = Ok k → (k < n)%nat.
Proof. unfold py_index. repeat case_decide; intros [= <-]; lia. Qed.

Lemma py_index_nonneg n i :
  (0 ≤ i < Z.of_nat n)%Z → py_index n i = Ok (Z.to_nat i).
Proof. intros. unfold py_index. by rewrite decide_True. Qed.

Lemma layer_index_lt n c k : layer_index n c = Ok k → (k < n)%nat.
Proof. destruct c; simpl; [done|]. apply py_index_lt. Qed.

Lemma add_height_map_ok to_add c sin cos s k row :
  layer_index (length (cat_map s)) c = Ok k →
  cat_map s !! k = Some row →
  add_height_map to_add c sin cos s =
    (Ok tt,
     {| size := size s; categories := categories s;
        room_mask := room_mask s; wall_mask := wall_mask s;
        height_map := masked_assign (height_map s) (gt to_add (height_map s)) to_add;
        cat_map := <[k := add row (occupancy to_add)]> (cat_map s);
        sin_map := masked_fill (sin_map s) (gt to_add (height_map s)) (encode sin);
        cos_map := masked_fill (cos_map s) (gt to_add (height_map s)) (encode cos);
        door_map := door_map s; window_map := window_map s |}).
Proof.
  intros Hk Hrow. unfold add_height_map, mbind, ST_bind, get, modify. simpl.
  rewrite Hk. simpl. rewrite Hrow. reflexivity.
Qed.

Lemma add_height_map_raise to_add c sin cos s e :
  layer_index (length (cat_map s)) c = Raise e →
  add_height_map to_add c sin cos s =
    (Raise e,
     set_height_map
       (masked_assign (height_map s) (gt to_add (height_map s)) to_add) s).
Proof.
  intros Hk. unfold add_height_map, mbind, ST_bind, get, modify. simpl.
  rewrite Hk. reflexivity.
Qed.

(** The run of [add_height_map] is one of the two above. *)
Lemma add_height_map_cases (c : Category) (s : RenderedComposite) :
  (∃ k row, layer_index (length (cat_map s)) c = Ok k ∧ cat_map s !! k = Some row) ∨
  (∃ e, layer_index (length (cat_map s)) c = Raise e).
Proof.
  destruct (layer_index (length (cat_map s)) c) as [k|e] eqn:Hk; [left|right; eauto].
  destruct (lookup_lt_is_Some_2 (cat_map s) k) as [row Hrow];
    [by eapply layer_index_lt|eauto].
Qed.

(** In every outcome the new height map is the old one with the cells that
    the patch exceeds replaced. *)
Lemma add_height_map_height to_add c sin cos s :
  height_map (add_height_map to_add c sin cos s).2 =
    masked_assign (height_map s) (gt to_add (height_map s)) to_add.
Proof.
  destruct (add_height_map_cases c s) as [(k & row & Hk & Hr)|[e He]].
  - by rewrite (add_height_map_ok _ _ _ _ _ _ _ Hk Hr).
  - by rewrite (add_height_map_raise _ _ _ _ _ _ He).
Qed.

Lemma add_height_map_size to_add c sin cos s :
  size (add_height_map to_add c sin cos s).2 = size s.
Proof.
  destruct (add_height_map_cases c s) as [(k & row & Hk & Hr)|[e He]].
  - by rewrite (add_height_map_ok _ _ _ _ _ _ _ Hk Hr).
  - by rewrite (add_height_map_raise _ _ _ _ _ _ He).
Qed.

Lemma add_height_map_wf to_add c sin cos s :
  wf s → grid_wf (size s) to_add → wf (add_height_map to_add c sin cos s).2.
Proof.
  intros [] Ht.
  assert (has_shape (size s) (size s) (gt to_add (height_map s)))
    by by apply has_shape_gt.
  destruct (add_height_map_cases c s) as [(k & row & Hk & Hr)|[e He]].
  - rewrite (add_height_map_ok _ _ _ _ _ _ _ Hk Hr). simpl.
    split; simpl; try done.
    + by apply has_shape_masked_assign.
    + by rewrite length_insert.
    + apply Forall_insert; [done|]. apply has_shape_add.
      * exact (proj1 (Forall_lookup _ _) wf_cat_map0 k row Hr).
      * by apply has_shape_occupancy.
    + by apply has_shape_masked_fill.
    + by apply has_shape_masked_fill.
  - rewrite (add_height_map_raise _ _ _ _ _ _ He). simpl.
    split; simpl; try done. by apply has_shape_masked_assign.
Qed.

(** The value of a cell of the height map after [add_height_map]. *)
Lemma add_height_map_cell to_add c sin cos s i j old t :
  cell (height_map s) i j = Some old →
  cell to_add i j = Some t →
  cell (height_map (add_height_map to_add c sin cos s).2) i j =
    Some (if gtb t old then t else old).
Proof.
  intros Ho Ht. rewrite add_height_map_height, cell_masked_assign, cell_gt.
  rewrite Ho, Ht. reflexivity.
Qed.

Lemma gtb_true a b : gtb a b = true ↔ b < a.
Proof. unfold gtb. apply bool_decide_eq_true. Qed.

Lemma gtb_false a b : gtb a b = false ↔ a ≤ b.
Proof.
  unfold gtb. rewrite bool_decide_eq_false. symmetry. apply Qcle_ngt.
Qed.

Lemma pick_le t old : old ≤ (if gtb t old then t else old).
Proof.
  destruct (gtb t old) eqn:E; [|apply Qcle_refl].
  apply Qclt_le_weak. by apply gtb_true.
Qed.

Lemma add_height_map_le to_add c sin cos s :
  wf s → grid_wf (size s) to_add →
  height_le (height_map s) (height_map (add_height_map to_add c sin cos s).2).
Proof.
  intros Hwf Ht.
  pose proof (add_height_map_wf to_add c sin cos s Hwf Ht) as Hwf'.
  destruct Hwf as [_ _ Hh _ _ _ _ _ _]. destruct Hwf' as [_ _ Hh' _ _ _ _ _ _].
  rewrite add_height_map_size in Hh'.
  eapply height_le_cells; [exact Hh|exact Hh'|].
  intros i j x y Hx Hy.
  destruct (cell_lt _ _ _ _ _ _ Hh Hx) as [Hi Hj].
  destruct (has_shape_cell _ _ _ i j Ht Hi Hj) as [t Htc].
  rewrite (add_height_map_cell _ _ _ _ _ _ _ _ _ Hx Htc) in Hy.
  injection Hy as <-. apply pick_le.
Qed.

(** ** Pasting a patch *)

Lemma shape_zeros n : shape (zeros n n) = (n, n).
Proof.
  unfold shape, zeros. rewrite length_replicate.
  destruct n; [done|]. simpl. by rewrite length_replicate.
Qed.

Lemma setitem_slice_shape n m dst x0 x1 y0 y1 h g :
  has_shape n m dst → setitem_slice dst x0 x1 y0 y1 h = Ok g → has_shape n m g.
Proof.
  intros [Hl Hf]. unfold setitem_slice.
  destruct (shape dst) as [n' m'], (shape h) as [xs ys].
  case_match; [|done]. intros [= <-]. split.
  - by rewrite length_imap.
  - apply Forall_lookup. intros i r. rewrite list_lookup_imap.
    destruct (dst !! i) as [row|] eqn:Hrow; [|done]. simpl. intros [= <-].
    pose proof (proj1 (Forall_lookup _ _) Hf i row Hrow) as Hlen.
    case_decide; [|done]. by rewrite length_imap.
Qed.

Lemma paste_wf n offset h g : paste n offset h = Ok g → grid_wf n g.
Proof.
  unfold paste. destruct (shape h), offset. intros H.
  eapply setitem_slice_shape; [|exact H]. apply grid_wf_zeros.
Qed.

Lemma patch_offset_nonneg h b :
  (0 ≤ (patch_offset h b).1)%Z ∧ (0 ≤ (patch_offset h b).2)%Z.
Proof.
  unfold patch_offset. destruct (shape h) as [xs ys]. simpl.
  repeat case_match; lia.
Qed.

(** ** [add_node], [add_node_obb] and the loops *)

Section MethodLemmas.
Variable sqrt : Qc → Qc.

Lemma add_node_unfold node s :
  add_node sqrt node s =
    match paste (size s) (patch_offset (Node.height_map node) (Node.bbox_min node))
                (Node.height_map node) with
    | Raise e => (Raise e, s)
    | Ok to_add =>
        match get_transformation sqrt (Node.transform node) with
        | Raise e => (Raise e, s)
        | Ok (sin, cos) => add_height_map to_add (Node.category node) sin cos s
        end
    end.
Proof.
  unfold add_node, mbind, ST_bind, get. simpl.
  destruct (paste _ _ _) as [to_add|e]; [|done]. simpl.
  destruct (get_transformation _ _) as [[sin cos]|e]; done.
Qed.

Lemma add_node_obb_unfold node s :
  add_node_obb sqrt node s =
    match paste (size s) (patch_offset_obb (Node.bbox_min_obb node))
                (Node.height_map_obb node) with
    | Raise e => (Raise e, s)
    | Ok to_add =>
        match get_transformation sqrt (Node.transform node) with
        | Raise e => (Raise e, s)
        | Ok (sin, cos) => add_height_map to_add (Node.category node) sin cos s
        end
    end.
Proof.
  unfold add_node_obb, mbind, ST_bind, get. simpl.
  destruct (paste _ _ _) as [to_add|e]; [|done]. simpl.
  destruct (get_transformation _ _) as [[sin cos]|e]; done.
Qed.

Lemma add_node_step node s :
  wf s →
  wf (add_node sqrt node s).2 ∧ size (add_node sqrt node s).2 = size s ∧
  height_le (height_map s) (height_map (add_node sqrt node s).2).
Proof.
  intros Hwf. rewrite add_node_unfold.
  destruct (paste _ _ _) as [to_add|e] eqn:Hp;
    [|by split_and!; [|..|apply height_le_refl]].
  destruct (get_transformation _ _) as [[sin cos]|e];
    [|by split_and!; [|..|apply height_le_refl]].
  apply paste_wf in Hp. split_and!.
  - by apply add_height_map_wf.
  - apply add_height_map_size.
  - by apply add_height_map_le.
Qed.
End MethodLemmas.

(** An invariant and a preorder that every step of a loop respects hold for
    the loop, whether it runs to its end or stops at an exception. *)
Lemma for_each_step {St A} (body : A → ST St unit) (I : St → Prop)
    (R : St → St → Prop) :
  (∀ s, R s s) →
  (∀ a b c, R a b → R b c → R a c) →
  (∀ x s, I s → I (body x s).2 ∧ R s (body x s).2) →
  ∀ xs s, I s → I (for_each body xs s).2 ∧ R s (for_each body xs s).2.
Proof.
  intros Hrefl Htrans Hstep xs. induction xs as [|x xs IH]; intros s Hs.
  - simpl. auto.
  - simpl. unfold mbind, ST_bind.
    destruct (Hstep x s Hs) as [HI HR].
    destruct (body x s) as [[[]|e] s1]; simpl in *.
    + destruct (IH s1 HI) as [HI' HR']. eauto.
    + auto.
Qed.

Lemma add_nodes_step sqrt nodes s :
  wf s →
  wf (add_nodes sqrt nodes s).2 ∧
  (size (add_nodes sqrt nodes s).2 = size s ∧
   height_le (height_map s) (height_map (add_nodes sqrt nodes s).2)).
Proof.
  unfold add_nodes.
  apply (for_each_step (add_node sqrt) wf
           (λ a b, size b = size a ∧ height_le (height_map a) (height_map b))).
  - intros a. split; [done|apply height_le_refl].
  - intros a b c [Hs1 Hl1] [Hs2 Hl2]. split; [congruence|].
    by eapply height_le_trans.
  - intros x a Ha. by apply add_node_step.
Qed.

(** C1. Height-wins monotonicity.  On a well-formed composite, whatever the
    outcome of the call: [add_height_map] leaves a well-formed composite whose
    height map is cell-wise at least the old one, and a cell changes only
    when the patch is strictly higher there, to the value of the patch;
    [add_node] and a whole [add_nodes] sequence leave a well-formed composite
    of the same side with a height map cell-wise at least the old one (so the
    statement applies again after each call). *)
Theorem height_wins_monotone (sqrt : Qc → Qc) (s : RenderedComposite) :
  wf s →
  (∀ to_add c sin cos,
     grid_wf (size s) to_add →
     let s' := (add_height_map to_add c sin cos s).2 in
     wf s' ∧ size s' = size s ∧
     height_le (height_map s) (height_map s') ∧
     ∀ i j old t,
       cell (height_map s) i j = Some old → cell to_add i j = Some t →
       ∃ new, cell (height_map s') i j = Some new ∧ old ≤ new ∧
              (old < t → new = t) ∧ (t ≤ old → new = old)) ∧
  (∀ node,
     let s' := (add_node sqrt node s).2 in
     wf s' ∧ size s' = size s ∧ height_le (height_map s) (height_map s')) ∧
  (∀ nodes,
     let s' := (add_nodes sqrt nodes s).2 in
     wf s' ∧ size s' = size s ∧ height_le (height_map s) (height_map s')).
Proof.
  intros Hwf. split_and!.
  - intros to_add c sin cos Ht s'. split_and!.
    + by apply add_height_map_wf.
    + apply add_height_map_size.
    + by apply add_height_map_le.
    + intros i j old t Ho Htc. eexists. split.
      * by apply add_height_map_cell.
      * split_and!; [apply pick_le| |].
        -- intros Hlt. by rewrite (proj2 (gtb_true t old) Hlt).
        -- intros Hle. by rewrite (proj2 (gtb_false t old) Hle).
  - intros node. by apply add_node_step.
  - intros nodes. by apply add_nodes_step.
Qed.

Lemma height_wins_monotone_witness :
  wf empty_room ∧
  height_le (height_map empty_room)
            (height_map (add_nodes sqrt_exact [chair] empty_room).2).
Proof.
  assert (H : wf empty_room) by (split; vm_compute; repeat constructor).
  split; [exact H|].
  apply (height_wins_monotone sqrt_exact empty_room H).
Defined.

(** ** What a successful [add_height_map] does to each cell *)

Lemma cell3_insert (t : Stack) k g c i j :
  (k < length t)%nat →
  cell3 (<[k := g]> t) c i j = if decide (k = c) then cell g i j else cell3 t c i j.
Proof.
  intros Hk. unfold cell3. rewrite list_lookup_insert.
  case_decide as H.
  - destruct H as [-> _]. by rewrite decide_True.
  - rewrite decide_False; [done|]. intros ->. apply H. done.
Qed.

Lemma add_height_map_effect to_add c sin cos s k :
  layer_index (length (cat_map s)) c = Ok k →
  ∃ s',
    add_height_map to_add c sin cos s = (Ok tt, s') ∧
    size s' = size s ∧ length (cat_map s') = length (cat_map s) ∧
    (∀ i j old t,
       cell (height_map s) i j = Some old → cell to_add i j = Some t →
       cell (height_map s') i j = Some (if gtb t old then t else old)) ∧
    (∀ i j old t x,
       cell (height_map s) i j = Some old → cell to_add i j = Some t →
       cell (sin_map s) i j = Some x →
       cell (sin_map s') i j = Some (if gtb t old then encode sin else x)) ∧
    (∀ i j old t y,
       cell (height_map s) i j = Some old → cell to_add i j = Some t →
       cell (cos_map s) i j = Some y →
       cell (cos_map s') i j = Some (if gtb t old then encode cos else y)) ∧
    (∀ i j t v,
       cell to_add i j = Some t → cell3 (cat_map s) k i j = Some v →
       cell3 (cat_map s') k i j = Some (v + weight t)) ∧
    (∀ k', k' ≠ k → cat_map s' !! k' = cat_map s !! k').
Proof.
  intros Hk. pose proof (layer_index_lt _ _ _ Hk) as Hlt.
  destruct (lookup_lt_is_Some_2 (cat_map s) k Hlt) as [row Hrow].
  eexists. split; [by apply add_height_map_ok|]. simpl. split_and!.
  - done.
  - by rewrite length_insert.
  - intros i j old t Ho Ht. by rewrite cell_masked_assign, cell_gt, Ho, Ht.
  - intros i j old t x Ho Ht Hx. by rewrite cell_masked_fill, cell_gt, Ho, Ht, Hx.
  - intros i j old t y Ho Ht Hy. by rewrite cell_masked_fill, cell_gt, Ho, Ht, Hy.
  - intros i j t v Ht Hv. rewrite cell3_insert by done. rewrite decide_True by done.
    rewrite cell_add, cell_occupancy, Ht.
    unfold cell3 in Hv. rewrite Hrow in Hv. simpl in Hv. by rewrite Hv.
  - intros k' Hne. by rewrite list_lookup_insert_ne.
Qed.

(** ** Sequences of placements *)

Lemma for_each_app {St A} (body : A → ST St unit) xs ys s :
  for_each body (xs ++ ys) s =
    match for_each body xs s with
    | (Ok _, s') => for_each body ys s'
    | (Raise e, s') => (Raise e, s')
    end.
Proof.
  revert s. induction xs as [|x xs IH]; intros s; [done|].
  simpl. unfold mbind, ST_bind. destruct (body x s) as [[[]|e] s1]; [apply IH|done].
Qed.

Lemma for_each_ok {St A} (body : A → ST St unit) (I : St → Prop) (Q : A → Prop) :
  (∀ x s, Q x → I s → ∃ s', body x s = (Ok tt, s') ∧ I s') →
  ∀ xs s, Forall Q xs → I s → ∃ s', for_each body xs s = (Ok tt, s') ∧ I s'.
Proof.
  intros Hstep xs. induction xs as [|x xs IH]; intros s HQ HI.
  - by exists s.
  - inversion_clear HQ as [|?? Hx Hxs].
    destruct (Hstep x s Hx HI) as (s1 & Hrun & HI1).
    destruct (IH s1 Hxs HI1) as (s2 & Hrun2 & HI2).
    exists s2. split; [|done]. simpl. unfold mbind, ST_bind. by rewrite Hrun.
Qed.

(** The state of one cell that the placements below keep: the composite is
    well formed, of side [n] with [c] category layers, and the cell holds
    height [h] and the orientation [(x, y)]. *)
Lemma place_keeps_cell n c i j h x y p s :
  placement_ok n c p →
  (∀ v, cell (p_to_add p) i j = Some v → v ≤ h) →
  wf s ∧ size s = n ∧ length (cat_map s) = c ∧
    cell (height_map s) i j = Some h ∧
    cell (sin_map s) i j = Some x ∧ cell (cos_map s) i j = Some y →
  ∃ s', place p s = (Ok tt, s') ∧
    (wf s' ∧ size s' = n ∧ length (cat_map s') = c ∧
     cell (height_map s') i j = Some h ∧
     cell (sin_map s') i j = Some x ∧ cell (cos_map s') i j = Some y).
Proof.
  intros [Hshape [k Hk]] Hle (Hwf & Hn & Hc & Hh & Hx & Hy). subst n c.
  destruct (add_height_map_effect (p_to_add p) (p_category p) (p_sin p) (p_cos p)
              s k Hk) as (s' & Hrun & Hsz & Hlen & Hhe & Hsi & Hco & _).
  exists s'. split; [exact Hrun|].
  pose proof (add_height_map_wf (p_to_add p) (p_category p) (p_sin p) (p_cos p)
                s Hwf Hshape) as Hwf'.
  unfold place in Hwf'. rewrite Hrun in Hwf'. simpl in Hwf'.
  destruct (cell_lt _ _ _ _ _ _ (wf_height_map _ Hwf) Hh) as [Hi Hj].
  destruct (has_shape_cell _ _ _ i j Hshape Hi Hj) as [t Ht].
  pose proof (proj2 (gtb_false t h) (Hle t Ht)) as Hg.
  split_and!; try done.
  - rewrite (Hhe i j h t Hh Ht). by rewrite Hg.
  - rewrite (Hsi i j h t x Hh Ht Hx). by rewrite Hg.
  - rewrite (Hco i j h t y Hh Ht Hy). by rewrite Hg.
Qed.

(** Placements that stay strictly below [t] at the cell keep the cell's
    height strictly below [t]. *)
Lemma place_keeps_below n c i j t p s :
  placement_ok n c p →
  (∀ v, cell (p_to_add p) i j = Some v → v < t) →
  wf s ∧ size s = n ∧ length (cat_map s) = c ∧
    (∃ h, cell (height_map s) i j = Some h ∧ h < t) →
  ∃ s', place p s = (Ok tt, s') ∧
    (wf s' ∧ size s' = n ∧ length (cat_map s') = c ∧
     (∃ h, cell (height_map s') i j = Some h ∧ h < t)).
Proof.
  intros [Hshape [k Hk]] Hlt (Hwf & Hn & Hc & h & Hh & Hht). subst n c.
  destruct (add_height_map_effect (p_to_add p) (p_category p) (p_sin p) (p_cos p)
              s k Hk) as (s' & Hrun & Hsz & Hlen & Hhe & _).
  exists s'. split; [exact Hrun|].
  pose proof (add_height_map_wf (p_to_add p) (p_category p) (p_sin p) (p_cos p)
                s Hwf Hshape) as Hwf'.
  unfold place in Hwf'. rewrite Hrun in Hwf'. simpl in Hwf'.
  destruct (cell_lt _ _ _ _ _ _ (wf_height_map _ Hwf) Hh) as [Hi Hj].
  destruct (has_shape_cell _ _ _ i j Hshape Hi Hj) as [v Hv].
  split_and!; try done.
  eexists. split; [exact (Hhe i j h v Hh Hv)|].
  destruct (gtb v h); [by apply Hlt|done].
Qed.

(** The placement that exceeds the cell's height takes the cell. *)
Lemma place_takes_cell n c i j t h p s :
  placement_ok n c p →
  cell (p_to_add p) i j = Some t →
  wf s → size s = n → length (cat_map s) = c →
  cell (height_map s) i j = Some h → h < t →
  ∃ s', place p s = (Ok tt, s') ∧
    (wf s' ∧ size s' = n ∧ length (cat_map s') = c ∧
     cell (height_map s') i j = Some t ∧
     cell (sin_map s') i j = Some (encode (p_sin p)) ∧
     cell (cos_map s') i j = Some (encode (p_cos p))).
Proof.
  intros [Hshape [k Hk]] Ht Hwf Hn Hc Hh Hht. subst n c.
  destruct (add_height_map_effect (p_to_add p) (p_category p) (p_sin p) (p_cos p)
              s k Hk) as (s' & Hrun & Hsz & Hlen & Hhe & Hsi & Hco & _).
  exists s'. split; [exact Hrun|].
  pose proof (add_height_map_wf (p_to_add p) (p_category p) (p_sin p) (p_cos p)
                s Hwf Hshape) as Hwf'.
  unfold place in Hwf'. rewrite Hrun in Hwf'. simpl in Hwf'.
  destruct (cell_lt _ _ _ _ _ _ (wf_height_map _ Hwf) Hh) as [Hi Hj].
  destruct (has_shape_cell _ _ _ i j (wf_sin_map _ Hwf) Hi Hj) as [x Hx].
  destruct (has_shape_cell _ _ _ i j (wf_cos_map _ Hwf) Hi Hj) as [y Hy].
  pose proof (proj2 (gtb_true t h) Hht) as Hg.
  split_and!; try done.
  - rewrite (Hhe i j h t Hh Ht). by rewrite Hg.
  - rewrite (Hsi i j h t x Hh Ht Hx). by rewrite Hg.
  - rewrite (Hco i j h t y Hh Ht Hy). by rewrite Hg.
Qed.

(** After a sequence of placements, the cell holds the orientation of the
    placement [p] that raised it to its final height: every earlier one is
    strictly lower there, no later one is higher. *)
Lemma orientation_of_last_winner s pre p post i j h0 t :
  wf s →
  Forall (placement_ok (size s) (length (cat_map s))) (pre ++ p :: post) →
  cell (height_map s) i j = Some h0 →
  cell (p_to_add p) i j = Some t →
  h0 < t →
  Forall (λ q, ∀ v, cell (p_to_add q) i j = Some v → v < t) pre →
  Forall (λ q, ∀ v, cell (p_to_add q) i j = Some v → v ≤ t) post →
  ∃ s',
    for_each place (pre ++ p :: post) s = (Ok tt, s') ∧
    cell (height_map s') i j = Some t ∧
    cell (sin_map s') i j = Some (encode (p_sin p)) ∧
    cell (cos_map s') i j = Some (encode (p_cos p)).
Proof.
  intros Hwf Hok Hh0 Ht Hlt Hpre Hpost.
  apply Forall_app in Hok as [Hok_pre Hok]. apply Forall_cons in Hok as [Hok_p Hok_post].
  set (n := size s) in *. set (c := length (cat_map s)) in *.
  destruct (for_each_ok place
              (λ s, wf s ∧ size s = n ∧ length (cat_map s) = c ∧
                    (∃ h, cell (height_map s) i j = Some h ∧ h < t))
              (λ q, placement_ok n c q ∧
                    (∀ v, cell (p_to_add q) i j = Some v → v < t)))
    with (xs := pre) (s := s) as (s1 & Hrun1 & Hwf1 & Hn1 & Hc1 & h1 & Hh1 & Hlt1).
  { intros x a [??] ?. by eapply place_keeps_below. }
  { apply Forall_and. done. }
  { split_and!; try done. eauto. }
  destruct (place_takes_cell n c i j t h1 p s1) as (s2 & Hrun2 & Hinv2); try done.
  destruct (for_each_ok place
              (λ s, wf s ∧ size s = n ∧ length (cat_map s) = c ∧
                    cell (height_map s) i j = Some t ∧
                    cell (sin_map s) i j = Some (encode (p_sin p)) ∧
                    cell (cos_map s) i j = Some (encode (p_cos p)))
              (λ q, placement_ok n c q ∧
                    (∀ v, cell (p_to_add q) i j = Some v → v ≤ t)))
    with (xs := post) (s := s2) as (s3 & Hrun3 & _ & _ & _ & Hh3 & Hs3 & Hc3).
  { intros x a [??] ?. by eapply place_keeps_cell. }
  { apply Forall_and. done. }
  { done. }
  exists s3. split; [|done].
  rewrite for_each_app, Hrun1. simpl. unfold mbind, ST_bind. by rewrite Hrun2.
Qed.

(** Closes [Forall P [x1; ...; xn]] when each [P xi] is at hand. *)
Ltac forall_list :=
  simpl; repeat (apply Forall_cons_2; [done|]); apply Forall_nil_2.

(** [add_node] is [add_height_map] on the placement of the node. *)
Lemma add_node_as_place sqrt node s p :
  placement_of sqrt (size s) node = Ok p → add_node sqrt node s = place p s.
Proof.
  unfold placement_of. rewrite add_node_unfold. unfold mbind, result_mbind. simpl.
  destruct (paste _ _ _) as [to_add|e]; [|done]. simpl.
  destruct (get_transformation _ _) as [[sin cos]|e]; [|done]. simpl.
  by intros [= <-].
Qed.

Lemma placement_of_shape sqrt n node p :
  placement_of sqrt n node = Ok p → grid_wf n (p_to_add p).
Proof.
  unfold placement_of, mbind, result_mbind. simpl.
  destruct (paste _ _ _) as [to_add|e] eqn:Hp; [|done]. simpl.
  destruct (get_transformation _ _) as [[sin cos]|e]; [|done]. simpl.
  intros [= <-]. simpl. by eapply paste_wf.
Qed.

Lemma add_nodes_as_placements sqrt nodes ps s :
  Forall2 (λ node p, placement_of sqrt (size s) node = Ok p) nodes ps →
  add_nodes sqrt nodes s = for_each place ps s.
Proof.
  remember (size s) as n eqn:Hn. intros H. revert s Hn.
  induction H as [|node p nodes ps Hp _ IH]; intros s Hn; [done|].
  unfold add_nodes in *. simpl. unfold mbind, ST_bind.
  subst n. rewrite (add_node_as_place _ _ _ _ Hp).
  pose proof (add_height_map_size (p_to_add p) (p_category p) (p_sin p) (p_cos p) s)
    as Hsz.
  fold (place p) in Hsz. destruct (place p s) as [[[]|e] s1]; [|done].
  apply IH. simpl in Hsz. congruence.
Qed.

(** C2. Orientation consistency.  At every cell of a well-formed composite:
    (1) after any sequence of [add_height_map] calls that contains a call
    whose patch exceeds the cell's height, is strictly above every earlier
    patch and not below any later one there (the call that last raised the
    cell to its maximum), the cell holds that call's height and its
    [(value + 1) / 2]-encoded sine and cosine;
    (2) for two nodes whose patches cover the cell with different heights,
    the taller above the cell's current height, [add_nodes] in either order
    ends with the taller node's encoded orientation in the cell;
    (3) calls that never exceed the cell's height leave its orientation as it
    was. *)
Theorem orientation_consistency (sqrt : Qc → Qc) (s : RenderedComposite)
    (i j : nat) (h0 : Qc) :
  wf s →
  cell (height_map s) i j = Some h0 →
  (∀ pre p post t,
     Forall (placement_ok (size s) (length (cat_map s))) (pre ++ p :: post) →
     cell (p_to_add p) i j = Some t →
     h0 < t →
     Forall (λ q, ∀ v, cell (p_to_add q) i j = Some v → v < t) pre →
     Forall (λ q, ∀ v, cell (p_to_add q) i j = Some v → v ≤ t) post →
     ∃ s', for_each place (pre ++ p :: post) s = (Ok tt, s') ∧
           cell (height_map s') i j = Some t ∧
           cell (sin_map s') i j = Some (encode (p_sin p)) ∧
           cell (cos_map s') i j = Some (encode (p_cos p))) ∧
  (∀ tall short pt ps ht hs,
     placement_of sqrt (size s) tall = Ok pt →
     placement_of sqrt (size s) short = Ok ps →
     (∃ k, layer_index (length (cat_map s)) (Node.category tall) = Ok k) →
     (∃ k, layer_index (length (cat_map s)) (Node.category short) = Ok k) →
     cell (p_to_add pt) i j = Some ht →
     cell (p_to_add ps) i j = Some hs →
     hs < ht → h0 < ht →
     (∃ s', add_nodes sqrt [tall; short] s = (Ok tt, s') ∧
            cell (sin_map s') i j = Some (encode (p_sin pt)) ∧
            cell (cos_map s') i j = Some (encode (p_cos pt))) ∧
     (∃ s', add_nodes sqrt [short; tall] s = (Ok tt, s') ∧
            cell (sin_map s') i j = Some (encode (p_sin pt)) ∧
            cell (cos_map s') i j = Some (encode (p_cos pt)))) ∧
  (∀ ps x y,
     Forall (placement_ok (size s) (length (cat_map s))) ps →
     cell (sin_map s) i j = Some x → cell (cos_map s) i j = Some y →
     Forall (λ q, ∀ v, cell (p_to_add q) i j = Some v → v ≤ h0) ps →
     ∃ s', for_each place ps s = (Ok tt, s') ∧
           cell (height_map s') i j = Some h0 ∧
           cell (sin_map s') i j = Some x ∧ cell (cos_map s') i j = Some y).
Proof.
  intros Hwf Hh0. split_and!.
  - intros pre p post t Hok Ht Hlt Hpre Hpost.
    by apply (orientation_of_last_winner s pre p post i j h0 t).
  - intros tall short pt ps ht hs Hpt Hps Hkt Hks Hht Hhs Hlt Hh0t.
    assert (Hcat_t : p_category pt = Node.category tall).
    { revert Hpt. unfold placement_of, mbind, result_mbind. simpl.
      destruct (paste _ _ _); [|done]. simpl.
      destruct (get_transformation _ _); [|done]. simpl. by intros [= <-]. }
    assert (Hcat_s : p_category ps = Node.category short).
    { revert Hps. unfold placement_of, mbind, result_mbind. simpl.
      destruct (paste _ _ _); [|done]. simpl.
      destruct (get_transformation _ _); [|done]. simpl. by intros [= <-]. }
    assert (Hok_t : placement_ok (size s) (length (cat_map s)) pt).
    { split; [by eapply placement_of_shape|]. by rewrite Hcat_t. }
    assert (Hok_s : placement_ok (size s) (length (cat_map s)) ps).
    { split; [by eapply placement_of_shape|]. by rewrite Hcat_s. }
    assert (Hle_s : ∀ v, cell (p_to_add ps) i j = Some v → v ≤ ht).
    { intros v Hv. rewrite Hhs in Hv. injection Hv as <-. by apply Qclt_le_weak. }
    assert (Hlt_s : ∀ v, cell (p_to_add ps) i j = Some v → v < ht).
    { intros v Hv. rewrite Hhs in Hv. by injection Hv as <-. }
    split.
    + destruct (orientation_of_last_winner s [] pt [ps] i j h0 ht Hwf)
        as (s' & Hrun & _ & Hs & Hc);
        [forall_list|done|done|done|forall_list|forall_list|].
      exists s'. split; [|done]. rewrite <- Hrun.
      apply add_nodes_as_placements. by repeat constructor.
    + destruct (orientation_of_last_winner s [ps] pt [] i j h0 ht Hwf)
        as (s' & Hrun & _ & Hs & Hc);
        [forall_list|done|done|done|forall_list|forall_list|].
      exists s'. split; [|done]. rewrite <- Hrun.
      apply add_nodes_as_placements. by repeat constructor.
  - intros ps x y Hok Hx Hy Hle.
    destruct (for_each_ok place
                (λ a, wf a ∧ size a = size s ∧ length (cat_map a) = length (cat_map s) ∧
                      cell (height_map a) i j = Some h0 ∧
                      cell (sin_map a) i j = Some x ∧ cell (cos_map a) i j = Some y)
                (λ q, placement_ok (size s) (length (cat_map s)) q ∧
                      (∀ v, cell (p_to_add q) i j = Some v → v ≤ h0)))
      with (xs := ps) (s := s) as (s' & Hrun & _ & _ & _ & H1 & H2 & H3).
    + intros p a [??] ?. by eapply place_keeps_cell.
    + by apply Forall_and.
    + done.
    + by exists s'.
Qed.

Lemma orientation_consistency_witness :
  wf empty_room ∧
  (∃ s', add_nodes sqrt_exact [table; chair] empty_room = (Ok tt, s') ∧
         cell (sin_map s') 1 1 = Some (encode (p_sin table_placement)) ∧
         cell (cos_map s') 1 1 = Some (encode (p_cos table_placement))) ∧
  (∃ s', add_nodes sqrt_exact [chair; table] empty_room = (Ok tt, s') ∧
         cell (sin_map s') 1 1 = Some (encode (p_sin table_placement)) ∧
         cell (cos_map s') 1 1 = Some (encode (p_cos table_placement))).
Proof.
  assert (H : wf empty_room) by (split; vm_compute; repeat constructor).
  split; [exact H|].
  refine (proj1 (proj2 (orientation_consistency sqrt_exact empty_room 1 1 0 H _))
            table chair table_placement chair_placement (q 2) (q 1) _ _ _ _ _ _ _ _).
  - reflexivity.
  - vm_compute. f_equal.
  - vm_compute. f_equal.
  - by exists 1%nat.
  - by exists 0%nat.
  - reflexivity.
  - reflexivity.
  - reflexivity.
  - reflexivity.
Defined.

(** ** Assembling the channels *)

Lemma copy_layers_prefix (cat : Stack) (pre mid post : Stack) m :
  length pre = 8%nat → length mid = length cat → (m ≤ length cat)%nat →
  copy_layers cat m (pre ++ mid ++ post) =
    Ok (pre ++ take m cat ++ drop m mid ++ post).
Proof.
  intros Hpre Hmid. unfold copy_layers. induction m as [|m IH]; intros Hm.
  - simpl. by rewrite drop_0.
  - rewrite seq_S, foldl_app, IH by lia. simpl.
    unfold mbind, result_mbind, result_bind.
    destruct (lookup_lt_is_Some_2 cat m) as [layer Hlayer]; [lia|].
    destruct (lookup_lt_is_Some_2 mid m) as [y Hy]; [lia|].
    rewrite Hlayer. simpl. f_equal.
    rewrite (take_S_r _ _ _ Hlayer), (drop_S _ _ _ Hy).
    replace (m + 8)%nat with (length pre + (length (take m cat) + 0))%nat
      by (rewrite length_take; lia).
    rewrite !insert_app_r. simpl. by rewrite <- !app_assoc.
Qed.

Lemma copy_layers_all (cat : Stack) (pre mid post : Stack) :
  length pre = 8%nat → length mid = length cat →
  copy_layers cat (length cat) (pre ++ mid ++ post) = Ok (pre ++ cat ++ post).
Proof.
  intros Hpre Hmid. rewrite copy_layers_prefix by done.
  rewrite firstn_all. rewrite <- Hmid, drop_all. done.
Qed.

Lemma copy_layers_eight (cat mid post : Stack) a0 a1 a2 a3 a4 a5 a6 a7 :
  length mid = length cat →
  copy_layers cat (length cat)
    (a0 :: a1 :: a2 :: a3 :: a4 :: a5 :: a6 :: a7 :: mid ++ post) =
    Ok (a0 :: a1 :: a2 :: a3 :: a4 :: a5 :: a6 :: a7 :: cat ++ post).
Proof.
  intros Hmid.
  exact (copy_layers_all cat [a0; a1; a2; a3; a4; a5; a6; a7] mid post eq_refl Hmid).
Qed.

(** The empty composite is eight channels, one per category, and the extra
    ones. *)
Lemma zeros3_split c k n :
  zeros3 (c + k + 8) n n =
    replicate 8 (zeros n n) ++ replicate c (zeros n n) ++ replicate k (zeros n n).
Proof.
  unfold zeros3. replace (c + k + 8)%nat with (8 + (c + k))%nat by lia.
  by rewrite !replicate_add.
Qed.

(** The full layout that [get_composite] returns. *)
Lemma get_composite_full k s :
  length (cat_map s) = length (categories s) →
  get_composite k None s =
    (Ok ([room_mask s; wall_mask s; sum0 (size s) (size s) (cat_map s);
          height_map s; sin_map s; cos_map s; door_map s; window_map s]
         ++ cat_map s ++ replicate k (zeros (size s) (size s))), s).
Proof.
  intros Hlen. unfold get_composite, mbind, ST_bind, get. simpl.
  rewrite zeros3_split. simpl. rewrite <- Hlen.
  by rewrite copy_layers_eight by apply length_replicate.
Qed.

(** The layout that [add_and_get_composite] returns for a category index in
    range. *)
Lemma add_and_get_composite_full to_add c sin cos k s :
  length (cat_map s) = length (categories s) →
  (0 ≤ c < Z.of_nat (length (categories s)))%Z →
  add_and_get_composite to_add (Idx c) sin cos k true s =
    (Ok ([room_mask s; wall_mask s;
          add (sum0 (size s) (size s) (cat_map s)) (occupancy to_add);
          masked_assign (height_map s) (gt to_add (height_map s)) to_add;
          masked_fill (sin_map s) (gt to_add (height_map s)) (encode sin);
          masked_fill (cos_map s) (gt to_add (height_map s)) (encode cos);
          door_map s; window_map s]
         ++ alter (λ g, add g (occupancy to_add)) (Z.to_nat c) (cat_map s)
         ++ replicate k (zeros (size s) (size s))), s).
Proof.
  intros Hlen Hc. unfold add_and_get_composite, mbind, ST_bind, get. simpl.
  rewrite zeros3_split. simpl. rewrite <- Hlen.
  rewrite copy_layers_eight by apply length_replicate.
  simpl. rewrite py_index_nonneg.
  2:{ rewrite length_app, length_replicate. lia. }
  replace (Z.to_nat (8 + c)) with (8 + Z.to_nat c)%nat by lia. simpl.
  pose proof (alter_app_l (λ g, add g (occupancy to_add)) (cat_map s)
                (replicate k (zeros (size s) (size s))) (Z.to_nat c)) as E.
  unfold alter in E. rewrite E by lia. done.
Qed.

(** ** Sums of layers *)

Lemma zip_with_comm_eq {A B} (f : A → A → B) :
  (∀ x y, f x y = f y x) → ∀ l k, zip_with f l k = zip_with f k l.
Proof.
  intros Hf l. induction l as [|x l IH]; intros [|y k]; simpl; [done..|].
  by rewrite Hf, IH.
Qed.

Lemma zip_with_assoc_eq {A} (f : A → A → A) :
  (∀ x y z, f (f x y) z = f x (f y z)) →
  ∀ l k m, zip_with f (zip_with f l k) m = zip_with f l (zip_with f k m).
Proof.
  intros Hf l. induction l as [|x l IH]; intros [|y k] [|z m]; simpl; [done..|].
  by rewrite Hf, IH.
Qed.

Lemma add_comm a b : add a b = add b a.
Proof.
  apply zip_with_comm_eq. intros x y. apply zip_with_comm_eq. intros ??.
  apply Qcplus_comm.
Qed.

Lemma add_assoc a b c : add (add a b) c = add a (add b c).
Proof.
  apply zip_with_assoc_eq. intros x y z. apply zip_with_assoc_eq. intros ???.
  symmetry. apply Qcplus_assoc.
Qed.

Lemma foldl_add_shift acc m (t : Stack) :
  foldl add (add acc m) t = add (foldl add acc t) m.
Proof.
  revert acc. induction t as [|x t IH]; intros acc; [done|]. simpl.
  rewrite <- IH. f_equal.
  rewrite !add_assoc. f_equal. apply add_comm.
Qed.

(** Adding a mask to one layer adds it to the sum of the layers. *)
Lemma sum0_insert n m (t : Stack) k row mask :
  t !! k = Some row →
  sum0 n m (<[k := add row mask]> t) = add (sum0 n m t) mask.
Proof.
  unfold sum0. generalize (zeros n m) as acc. revert k.
  induction t as [|x t IH]; intros k acc Hk; [done|].
  destruct k as [|k]; simpl in *.
  - injection Hk as ->. rewrite <- add_assoc. apply foldl_add_shift.
  - by apply IH.
Qed.

Lemma insert_as_alter {A} (f : A → A) (l : list A) k x :
  l !! k = Some x → <[k := f x]> l = alter f k l.
Proof.
  revert k. induction l as [|y l IH]; intros [|k] Hk; simpl in *; try done.
  - by injection Hk as ->.
  - f_equal. by apply IH.
Qed.

Lemma has_shape_sum0 n m (t : Stack) :
  Forall (has_shape n m) t → has_shape n m (sum0 n m t).
Proof.
  unfold sum0. assert (H : has_shape n m (zeros n m)) by apply has_shape_replicate.
  revert H. generalize (zeros n m) as acc.
  induction t as [|x t IH]; intros acc Hacc Ht; [done|].
  inversion_clear Ht. simpl. apply IH; [|done]. by apply has_shape_add.
Qed.

(** [sum(0)] is the cell-wise sum of the layers. *)
Lemma cell_sum0 n m (t : Stack) i j :
  Forall (has_shape n m) t → (i < n)%nat → (j < m)%nat →
  cell (sum0 n m t) i j = Some (cell_sum t i j).
Proof.
  intros Ht Hi Hj. unfold sum0, cell_sum.
  assert (H : cell (zeros n m) i j = Some 0) by by apply cell_zeros.
  set (f := λ g : Grid, default 0 (cell g i j)).
  revert H. generalize (zeros n m) as acc. generalize (Q2Qc 0) as a.
  induction Ht as [|x t Hx _ IH]; intros a acc Hacc; [done|]. simpl.
  destruct (has_shape_cell _ _ _ i j Hx Hi Hj) as [v Hv].
  apply IH. rewrite cell_add, Hacc. unfold f. rewrite Hv. done.
Qed.

(** ** The claims on [get_composite] and [add_and_get_composite] *)

(** C5. Channel layout.  On a well-formed composite with [C] categories,
    [get_composite] with [ablation = None] and [k] extra channels returns, and
    leaves the composite as it is; the result has exactly [8 + C + k]
    channels, all [size] x [size]; channels 0 to 7 are [room_mask],
    [wall_mask], the sum of the category layers, [height_map], [sin_map],
    [cos_map], [door_map] and [window_map]; channel [8 + i] is the layer of
    category [i]; the last [k] channels are zero. *)
Theorem channel_layout (k : nat) (s : RenderedComposite) :
  wf s →
  ∃ composite,
    get_composite k None s = (Ok composite, s) ∧
    length composite = (8 + length (categories s) + k)%nat ∧
    Forall (grid_wf (size s)) composite ∧
    composite !! 0%nat = Some (room_mask s) ∧
    composite !! 1%nat = Some (wall_mask s) ∧
    composite !! 2%nat = Some (sum0 (size s) (size s) (cat_map s)) ∧
    (∀ i j, (i < size s)%nat → (j < size s)%nat →
            cell3 composite 2 i j = Some (cell_sum (cat_map s) i j)) ∧
    composite !! 3%nat = Some (height_map s) ∧
    composite !! 4%nat = Some (sin_map s) ∧
    composite !! 5%nat = Some (cos_map s) ∧
    composite !! 6%nat = Some (door_map s) ∧
    composite !! 7%nat = Some (window_map s) ∧
    (∀ i, (i < length (categories s))%nat →
          is_Some (cat_map s !! i) ∧ composite !! (8 + i)%nat = cat_map s !! i) ∧
    (∀ i, (i < k)%nat →
          composite !! (8 + length (categories s) + i)%nat =
            Some (zeros (size s) (size s))).
Proof.
  intros Hwf. destruct Hwf as [Hr Hw Hh Hlen Hcat Hs Hc Hd Hwi].
  eexists. split; [by apply get_composite_full|].
  assert (Hsum : grid_wf (size s) (sum0 (size s) (size s) (cat_map s)))
    by by apply has_shape_sum0.
  split_and!; try done.
  - simpl. rewrite length_app, length_replicate. lia.
  - repeat (apply Forall_cons_2; [done|]).
    apply Forall_app. split; [done|].
    apply Forall_replicate, grid_wf_zeros.
  - intros i j Hi Hj. unfold cell3. simpl. by apply cell_sum0.
  - intros i Hi. split; [apply lookup_lt_is_Some_2; lia|].
    simpl. apply lookup_app_l. lia.
  - intros i Hi. simpl. rewrite <- Hlen.
    rewrite lookup_app_r by lia.
    replace (length (cat_map s) + i - length (cat_map s))%nat with i by lia.
    by apply lookup_replicate_2.
Qed.

Lemma channel_layout_witness :
  wf empty_room ∧
  ∃ composite,
    get_composite 1 None empty_room = (Ok composite, empty_room) ∧
    length composite = 11%nat.
Proof.
  assert (H : wf empty_room) by (split; vm_compute; repeat constructor).
  split; [exact H|].
  destruct (channel_layout 1 empty_room H) as (composite & Hrun & Hlen & _).
  exists composite. split; [exact Hrun|exact Hlen].
Defined.

(** A call of [add_and_get_composite] never changes the composite, whatever
    it returns. *)
Lemma preview_state (v : PreviewCall) (s : RenderedComposite) :
  (preview v s).2 = s.
Proof.
  unfold preview, add_and_get_composite.
  destruct (v_temporary v); [|done]. unfold mbind, ST_bind, get. simpl.
  destruct (copy_layers _ _ _) as [composite|e]; [|done]. simpl.
  destruct (v_category v) as [tag|c]; [done|]. simpl.
  by destruct (py_index _ _).
Qed.

(** C3. Preview non-mutation.  After any number of
    [add_and_get_composite] calls, with any arguments and whatever each call
    returned, the composite (every field of it) is the one before the calls,
    and so is the result of a following [get_composite]. *)
Theorem preview_does_not_mutate (calls : list PreviewCall)
    (s : RenderedComposite) (k : nat) (ablation : option string) :
  foldl (λ st v, (preview v st).2) s calls = s ∧
  get_composite k ablation (foldl (λ st v, (preview v st).2) s calls) =
    get_composite k ablation s.
Proof.
  assert (H : foldl (λ st v, (preview v st).2) s calls = s).
  { induction calls as [|v calls IH]; [done|]. simpl. by rewrite preview_state. }
  by rewrite H.
Qed.

(** C4. Preview equivalence.  For a well-formed composite, a [size] x [size]
    patch and a category index in range, [add_and_get_composite] returns the
    tensor that [add_height_map] followed by [get_composite] with
    [ablation = None] returns when run on a copy of the composite, and leaves
    the composite itself as it was. *)
Theorem preview_equivalence (to_add : Grid) (c : Z) (sin cos : Qc) (k : nat)
    (s : RenderedComposite) :
  wf s →
  grid_wf (size s) to_add →
  (0 ≤ c < Z.of_nat (length (categories s)))%Z →
  ∃ composite copy',
    add_and_get_composite to_add (Idx c) sin cos k true s = (Ok composite, s) ∧
    (add_height_map to_add (Idx c) sin cos;; get_composite k None) s =
      (Ok composite, copy').
Proof.
  intros Hwf Hshape Hc. pose proof (wf_cat_map_len _ Hwf) as Hlen.
  assert (Hk : layer_index (length (cat_map s)) (Idx c) = Ok (Z.to_nat c)).
  { simpl. apply py_index_nonneg. lia. }
  destruct (lookup_lt_is_Some_2 (cat_map s) (Z.to_nat c)) as [row Hrow]; [lia|].
  eexists _, _. split; [by apply add_and_get_composite_full|].
  unfold mbind at 1. unfold ST_bind.
  rewrite (add_height_map_ok _ _ _ _ _ _ _ Hk Hrow).
  rewrite get_composite_full by (simpl; by rewrite length_insert).
  simpl. rewrite (sum0_insert _ _ _ _ _ _ Hrow).
  rewrite (insert_as_alter (λ g, add g (occupancy to_add)) _ _ _ Hrow).
  reflexivity.
Qed.

Lemma preview_equivalence_witness :
  wf empty_room ∧
  ∃ composite copy',
    add_and_get_composite (p_to_add chair_placement) (Idx 0) 0 (q 1) 1 true empty_room =
      (Ok composite, empty_room) ∧
    (add_height_map (p_to_add chair_placement) (Idx 0) 0 (q 1);; get_composite 1 None)
      empty_room = (Ok composite, copy').
Proof.
  assert (H : wf empty_room) by (split; vm_compute; repeat constructor).
  split; [exact H|].
  apply (preview_equivalence (p_to_add chair_placement) 0 0 (q 1) 1 empty_room H).
  - split; vm_compute; repeat constructor.
  - vm_compute. split; [discriminate|reflexivity].
Defined.

(** ** The claims on single cells *)

Lemma half_twice : half + half = 1.
Proof. apply Qc_is_canon. reflexivity. Qed.

Lemma weight_pos t : 0 < t → weight t = half.
Proof. intros H. unfold weight. by rewrite (proj2 (gtb_true t 0) H). Qed.

Lemma weight_nonpos t : t ≤ 0 → weight t = 0.
Proof. intros H. unfold weight. by rewrite (proj2 (gtb_false t 0) H). Qed.

(** C7. Category accumulation is a sum.  A successful [add_height_map] with
    category layer [k] adds 0.5 to that layer at every cell where the patch
    is positive and nothing elsewhere, whatever the height map holds, and
    leaves the other layers as they are; a second call with the same category
    adds again: a cell that started at 0 ends at 1 where both patches are
    positive, at 0.5 where exactly one is, at 0 where none is. *)
Theorem category_accumulation (to_add : Grid) (c : Category) (sin cos : Qc)
    (s : RenderedComposite) (k : nat) :
  wf s →
  grid_wf (size s) to_add →
  layer_index (length (cat_map s)) c = Ok k →
  ∃ s',
    add_height_map to_add c sin cos s = (Ok tt, s') ∧
    (∀ i j t v,
       cell to_add i j = Some t → cell3 (cat_map s) k i j = Some v →
       cell3 (cat_map s') k i j = Some (v + weight t) ∧
       (0 < t → weight t = half) ∧ (t ≤ 0 → weight t = 0)) ∧
    (∀ k', k' ≠ k → cat_map s' !! k' = cat_map s !! k') ∧
    (∀ to_add2 sin2 cos2,
       grid_wf (size s) to_add2 →
       ∃ s'',
         add_height_map to_add2 c sin2 cos2 s' = (Ok tt, s'') ∧
         ∀ i j t1 t2,
           cell to_add i j = Some t1 → cell to_add2 i j = Some t2 →
           cell3 (cat_map s) k i j = Some 0 →
           (0 < t1 → 0 < t2 → cell3 (cat_map s'') k i j = Some 1) ∧
           (0 < t1 → t2 ≤ 0 → cell3 (cat_map s'') k i j = Some half) ∧
           (t1 ≤ 0 → 0 < t2 → cell3 (cat_map s'') k i j = Some half) ∧
           (t1 ≤ 0 → t2 ≤ 0 → cell3 (cat_map s'') k i j = Some 0)).
Proof.
  intros Hwf Hshape Hk.
  destruct (add_height_map_effect to_add c sin cos s k Hk)
    as (s' & Hrun & Hsz & Hlen & _ & _ & _ & Hcat & Hother).
  exists s'. split_and!; [done| |done|].
  - intros i j t v Ht Hv. split_and!;
      [by apply Hcat|apply weight_pos|apply weight_nonpos].
  - intros to_add2 sin2 cos2 Hshape2. rewrite <- Hlen in Hk.
    destruct (add_height_map_effect to_add2 c sin2 cos2 s' k Hk)
      as (s'' & Hrun2 & _ & _ & _ & _ & _ & Hcat2 & _).
    exists s''. split; [done|]. intros i j t1 t2 Ht1 Ht2 Hv.
    pose proof (Hcat2 i j t2 _ Ht2 (Hcat i j t1 0 Ht1 Hv)) as Hfinal.
    rewrite Hfinal. split_and!; intros H1 H2.
    + rewrite (weight_pos _ H1), (weight_pos _ H2), Qcplus_0_l. by rewrite half_twice.
    + by rewrite (weight_pos _ H1), (weight_nonpos _ H2), Qcplus_0_l, Qcplus_0_r.
    + by rewrite (weight_nonpos _ H1), (weight_pos _ H2), !Qcplus_0_l.
    + by rewrite (weight_nonpos _ H1), (weight_nonpos _ H2), !Qcplus_0_l.
Qed.

Lemma category_accumulation_witness :
  wf empty_room ∧
  ∃ s',
    add_height_map (p_to_add chair_placement) (Idx 0) 0 (q 1) empty_room = (Ok tt, s') ∧
    ∃ s'',
      add_height_map (p_to_add chair_placement) (Idx 0) (q 1) 0 s' = (Ok tt, s'') ∧
      cell3 (cat_map s'') 0 1 1 = Some 1.
Proof.
  assert (H : wf empty_room) by (split; vm_compute; repeat constructor).
  split; [exact H|].
  destruct (category_accumulation (p_to_add chair_placement) (Idx 0) 0 (q 1)
              empty_room 0 H) as (s' & Hrun & _ & _ & Htwice).
  - split; vm_compute; repeat constructor.
  - reflexivity.
  - exists s'. split; [exact Hrun|].
    destruct (Htwice (p_to_add chair_placement) (q 1) 0) as (s'' & Hrun2 & Hcell).
    + split; vm_compute; repeat constructor.
    + exists s''. split; [exact Hrun2|].
      apply (Hcell 1%nat 1%nat (q 1) (q 1)); reflexivity.
Defined.

(** C10. Equal heights keep the incumbent.  At a cell where the patch equals
    the current height, a successful [add_height_map] leaves the height and
    the stored sine and cosine as they were, and the category layer still
    gains 0.5 there when the patch is positive; the composite returned by
    [add_and_get_composite] shows the same height, sine and cosine in that
    cell. *)
Theorem equal_height_keeps_incumbent (to_add : Grid) (c : Z) (sin cos : Qc)
    (n : nat) (s : RenderedComposite) (i j : nat) (h x y v : Qc) :
  wf s →
  grid_wf (size s) to_add →
  (0 ≤ c < Z.of_nat (length (categories s)))%Z →
  cell (height_map s) i j = Some h →
  cell to_add i j = Some h →
  cell (sin_map s) i j = Some x →
  cell (cos_map s) i j = Some y →
  cell3 (cat_map s) (Z.to_nat c) i j = Some v →
  (∃ s',
     add_height_map to_add (Idx c) sin cos s = (Ok tt, s') ∧
     cell (height_map s') i j = Some h ∧
     cell (sin_map s') i j = Some x ∧
     cell (cos_map s') i j = Some y ∧
     cell3 (cat_map s') (Z.to_nat c) i j = Some (v + weight h) ∧
     (0 < h → cell3 (cat_map s') (Z.to_nat c) i j = Some (v + half))) ∧
  (∃ composite,
     add_and_get_composite to_add (Idx c) sin cos n true s = (Ok composite, s) ∧
     cell3 composite 3 i j = Some h ∧
     cell3 composite 4 i j = Some x ∧
     cell3 composite 5 i j = Some y).
Proof.
  intros Hwf Hshape Hc Hh Ht Hx Hy Hv.
  pose proof (wf_cat_map_len _ Hwf) as Hlen.
  assert (Hk : layer_index (length (cat_map s)) (Idx c) = Ok (Z.to_nat c)).
  { simpl. apply py_index_nonneg. lia. }
  assert (Hg : gtb h h = false) by (apply gtb_false, Qcle_refl).
  split.
  - destruct (add_height_map_effect to_add (Idx c) sin cos s _ Hk)
      as (s' & Hrun & _ & _ & Hhe & Hsi & Hco & Hcat & _).
    exists s'. split_and!; [done|..].
    + rewrite (Hhe i j h h Hh Ht). by rewrite Hg.
    + rewrite (Hsi i j h h x Hh Ht Hx). by rewrite Hg.
    + rewrite (Hco i j h h y Hh Ht Hy). by rewrite Hg.
    + by apply Hcat.
    + intros Hpos. rewrite (Hcat i j h v Ht Hv). by rewrite (weight_pos _ Hpos).
  - eexists. split; [by apply add_and_get_composite_full|].
    unfold cell3. simpl. split_and!.
    + by rewrite cell_masked_assign, cell_gt, Hh, Ht; simpl; rewrite Hg.
    + by rewrite cell_masked_fill, cell_gt, Hx, Hh, Ht; simpl; rewrite Hg.
    + by rewrite cell_masked_fill, cell_gt, Hy, Hh, Ht; simpl; rewrite Hg.
Qed.

Lemma equal_height_keeps_incumbent_witness :
  wf room_with_chair ∧
  ∃ s',
    add_height_map (p_to_add chair_placement) (Idx 1) (q 1) 0 room_with_chair =
      (Ok tt, s') ∧
    cell (height_map s') 1 1 = Some (q 1) ∧
    cell (sin_map s') 1 1 = cell (sin_map room_with_chair) 1 1 ∧
    cell (cos_map s') 1 1 = cell (cos_map room_with_chair) 1 1.
Proof.
  assert (H : wf room_with_chair) by (split; vm_compute; repeat constructor).
  split; [exact H|].
  edestruct (equal_height_keeps_incumbent (p_to_add chair_placement) 1 (q 1) 0 1
               room_with_chair 1 1 (q 1))
    as [(s' & Hrun & Hh & Hs & Hc & _) _].
  - exact H.
  - split; vm_compute; repeat constructor.
  - vm_compute. split; [discriminate|reflexivity].
  - reflexivity.
  - reflexivity.
  - vm_compute. reflexivity.
  - vm_compute. reflexivity.
  - vm_compute. reflexivity.
  - exists s'. split_and!; [exact Hrun|exact Hh|..].
    + rewrite Hs. vm_compute. reflexivity.
    + rewrite Hc. vm_compute. reflexivity.
Defined.

(** ** The offset of a patch *)

(** [__init__] and [add_node] put a patch that is 256 wide on an axis at
    offset 0 on that axis, whatever its bounding box records. *)
Lemma patch_offset_sentinel (h : Grid) (bbox_min : Qc * Qc * Qc) :
  ((shape h).1 = 256%nat → (patch_offset h bbox_min).1 = 0%Z) ∧
  ((shape h).2 = 256%nat → (patch_offset h bbox_min).2 = 0%Z).
Proof.
  unfold patch_offset. destruct (shape h) as [xs ys]. simpl.
  split; intros ->; simpl; done.
Qed.

(** [add_node_obb] takes the offset from the bounding box alone. *)
Lemma patch_offset_obb_spec (bbox_min_obb : Qc * Qc * Qc) :
  patch_offset_obb bbox_min_obb =
    (Z.max 0 (floor (vec0 bbox_min_obb)), Z.max 0 (floor (vec2 bbox_min_obb))).
Proof. reflexivity. Qed.

(** C6. The 256 override is missing from [add_node_obb].  For the rug, 256
    wide on both axes with a bounding box recorded at x = 3, [add_node]
    computes offset 0 on both axes and succeeds, while [add_node_obb] computes
    offset 3 on the first axis and fails on the paste into the room of side
    256, leaving the composite as it was. *)
Theorem obb_ignores_sentinel :
  shape (Node.height_map_obb rug) = (256%nat, 256%nat) ∧
  patch_offset (Node.height_map rug) (Node.bbox_min rug) = (0%Z, 0%Z) ∧
  patch_offset_obb (Node.bbox_min_obb rug) = (3%Z, 0%Z) ∧
  (add_node sqrt_exact rug full_room).1 = Ok tt ∧
  add_node_obb sqrt_exact rug full_room = (Raise RuntimeError, full_room).
Proof.
  split_and!.
  - vm_compute. reflexivity.
  - vm_compute. reflexivity.
  - vm_compute. reflexivity.
  - vm_compute. reflexivity.
  - rewrite add_node_obb_unfold.
    assert (E : paste (size full_room) (patch_offset_obb (Node.bbox_min_obb rug))
                  (Node.height_map_obb rug) = Raise RuntimeError)
      by (vm_compute; reflexivity).
    by rewrite E.
Qed.

(** ** A patch that does not fit *)

Lemma paste_raises_runtime n offset h e :
  paste n offset h = Raise e → e = RuntimeError.
Proof.
  unfold paste, setitem_slice. destruct (shape h), offset, (shape (zeros n n)).
  case_match; [done|]. by intros [= <-].
Qed.

Lemma paste_overflow n offset h :
  (0 ≤ offset.1)%Z → (0 ≤ offset.2)%Z →
  overflows_wide n offset h → paste n offset h = Raise RuntimeError.
Proof.
  unfold overflows_wide, paste, setitem_slice. rewrite shape_zeros.
  destruct (shape h) as [xs ys], offset as [x y]. simpl. intros Hx Hy Hov.
  assert (E : broadcastable xs (slice_bound n (x + Z.of_nat xs) - slice_bound n x)
              && broadcastable ys (slice_bound n (y + Z.of_nat ys) - slice_bound n y)
              = false); [|by rewrite E].
  unfold broadcastable, slice_bound.
  rewrite !(proj2 (Z.ltb_ge _ _)) by lia.
  apply andb_false_iff. destruct Hov as [[Ho Hw]|[Ho Hw]]; [left|right].
  - apply orb_false_iff. split; apply Nat.eqb_neq; lia.
  - apply orb_false_iff. split; apply Nat.eqb_neq; lia.
Qed.

Lemma add_door_window_unfold node s :
  add_door_window node s =
    match paste (size s) (patch_offset (Node.height_map node) (Node.bbox_min node))
                (Node.height_map node) with
    | Raise e => (Raise e, s)
    | Ok to_add => (Ok tt, (add_door_window node s).2)
    end ∧
  size (add_door_window node s).2 = size s.
Proof.
  unfold add_door_window, mbind, ST_bind, get, modify. simpl.
  destruct (paste _ _ _) as [to_add|e]; [|done]. simpl.
  by case_decide.
Qed.

Lemma door_windows_overflow n nodes s :
  size s = n →
  Exists (λ node, overflows_wide n
            (patch_offset (Node.height_map node) (Node.bbox_min node))
            (Node.height_map node)) nodes →
  (for_each add_door_window nodes s).1 = Raise RuntimeError.
Proof.
  intros Hn Hex. revert s Hn.
  induction nodes as [|node nodes IH]; intros s Hn; [by inversion Hex|].
  simpl. unfold mbind, ST_bind.
  destruct (add_door_window_unfold node s) as [Hrun Hsz].
  destruct (paste _ _ _) as [to_add|e] eqn:Hp.
  - rewrite Hrun. apply Exists_cons in Hex as [Hbad|Hex].
    + rewrite Hn, paste_overflow in Hp; [done|apply patch_offset_nonneg..|done].
    + apply IH; [done|congruence].
  - rewrite Hrun. simpl. f_equal. by eapply paste_raises_runtime.
Qed.

(** C9, as the code has it.  A patch whose offset plus extent passes the side
    of the room on an axis where the patch is at least two cells wide cannot
    be pasted: [add_node] raises the shape error of the slice assignment and
    leaves the composite as it was, and [__init__] raises it when such a patch
    is among the door and window records. *)
Theorem overflow_raises (sqrt : Qc → Qc) (n : nat) :
  (∀ s node,
     size s = n →
     overflows_wide n (patch_offset (Node.height_map node) (Node.bbox_min node))
                    (Node.height_map node) →
     add_node sqrt node s = (Raise RuntimeError, s)) ∧
  (∀ categories floor wall door_window_nodes,
     (shape floor).1 = n →
     Exists (λ node, overflows_wide n
               (patch_offset (Node.height_map node) (Node.bbox_min node))
               (Node.height_map node)) door_window_nodes →
     RenderedComposite_init categories floor wall door_window_nodes =
       Raise RuntimeError).
Proof.
  split.
  - intros s node Hn Hov. rewrite add_node_unfold, Hn.
    rewrite paste_overflow; [done|apply patch_offset_nonneg..|done].
  - intros categories floor wall nodes Hn Hex. unfold RenderedComposite_init.
    pose proof (door_windows_overflow n nodes (seeded categories floor wall) Hn Hex)
      as H.
    destruct (for_each _ _ _) as [[[]|e] s']; simpl in H; [done|by injection H as ->].
Qed.

Lemma overflow_raises_witness :
  overflows_wide 3 (patch_offset (Node.height_map table) (q 2, 0, 0))
                 (Node.height_map table) ∧
  add_node sqrt_exact
    (Node.mk "table_02" (Node.height_map table) (q 2, 0, 0)
             (Node.height_map table) (q 2, 0, 0) upright (Idx 1))
    empty_room = (Raise RuntimeError, empty_room).
Proof.
  assert (H : overflows_wide 3 (patch_offset (Node.height_map table) (q 2, 0, 0))
                (Node.height_map table)).
  { left. vm_compute. split; [reflexivity|]. repeat constructor. }
  split; [exact H|].
  apply (proj1 (overflow_raises sqrt_exact 3)); [reflexivity|exact H].
Defined.

(** The pin is not refused: its offset 3 plus its extent 1 passes the side 3
    of the room, and [add_node] returns without an exception (the slice is
    empty and the one-cell patch is expanded to it). *)
Lemma overflow_not_raised :
  overflows 3 (patch_offset (Node.height_map pin) (Node.bbox_min pin))
            (Node.height_map pin) ∧
  (add_node sqrt_exact pin empty_room).1 = Ok tt.
Proof.
  split.
  - left. vm_compute. reflexivity.
  - vm_compute. reflexivity.
Qed.

(** ** The constructor establishes the invariant *)

Lemma seeded_wf categories floor wall n :
  grid_wf n floor → grid_wf n wall → wf (seeded categories floor wall).
Proof.
  intros Hf Hw.
  assert (Hn : (shape floor).1 = n) by (destruct Hf as [Hl _]; done).
  unfold seeded. rewrite Hn.
  split; simpl; try apply grid_wf_zeros.
  - apply has_shape_masked_fill; [by apply has_shape_add|].
    apply has_shape_fmap. by apply has_shape_add.
  - apply has_shape_masked_fill; [done|]. by apply has_shape_fmap.
  - by apply has_shape_map2.
  - apply length_replicate.
  - apply Forall_replicate, grid_wf_zeros.
Qed.

Lemma add_door_window_wf node s : wf s → wf (add_door_window node s).2.
Proof.
  intros Hwf. unfold add_door_window, mbind, ST_bind, get, modify. simpl.
  destruct (paste _ _ _) as [to_add|e] eqn:Hp; [|done]. simpl.
  apply paste_wf in Hp. destruct Hwf.
  assert (has_shape (size s) (size s) (gt_scalar to_add 0))
    by by apply has_shape_fmap.
  assert (has_shape (size s) (size s) (gt to_add (height_map s)))
    by by apply has_shape_gt.
  case_decide; split; simpl; try done;
    first [ by apply has_shape_masked_fill
          | by apply has_shape_masked_assign
          | apply has_shape_add; [done|]; by apply has_shape_masked_fill ].
Qed.

(** Every composite that [__init__] returns for a floor and a wall of side
    [n] is well formed and of side [n]; by [height_wins_monotone] it stays so
    under [add_height_map], [add_node] and [add_nodes]. *)
Lemma RenderedComposite_init_wf categories floor wall door_window_nodes n self :
  grid_wf n floor → grid_wf n wall →
  RenderedComposite_init categories floor wall door_window_nodes = Ok self →
  wf self ∧ size self = n.
Proof.
  intros Hf Hw. unfold RenderedComposite_init.
  destruct (for_each_step add_door_window wf (λ a b, size b = size a))
    with (xs := door_window_nodes) (s := seeded categories floor wall)
    as [Hwf Hsz].
  - done.
  - intros a b c. congruence.
  - intros x s Hs. split; [by apply add_door_window_wf|].
    apply add_door_window_unfold.
  - by eapply seeded_wf.
  - destruct (for_each _ _ _) as [[[]|e] s']; [|done]. intros [= <-].
    split; [done|]. simpl in Hsz. rewrite Hsz. simpl. by destruct Hf.
Qed.

(** ** Runs of the loader *)

Lemma bind_ok {St A B} (c : ST St A) (k : A → ST St B) s b s2 :
  (c ≫= k) s = (Ok b, s2) → ∃ a s1, c s = (Ok a, s1) ∧ k a s1 = (Ok b, s2).
Proof.
  unfold mbind, ST_bind. destruct (c s) as [[a|e] s1]; [eauto|done].
Qed.

Lemma lift_ok {St A} (r : result A) (s s1 : St) a :
  lift r s = (Ok a, s1) → r = Ok a ∧ s1 = s.
Proof. destruct r; [|done]. by intros [= -> ->]. Qed.

Lemma get_ok {St} (s s1 a : St) : get s = (Ok a, s1) → a = s ∧ s1 = s.
Proof. by intros [= -> ->]. Qed.

Lemma ret_ok {St A} (s s1 : St) (a b : A) :
  mret (M := ST St) a s = (Ok b, s1) → b = a ∧ s1 = s.
Proof. by intros [= -> ->]. Qed.

Section LoaderLemmas.
Context (host : Host).
Implicit Types (g : Globals host) (scene : RenderedScene host).

Lemma seed_step (seed : option Z) g :
  match seed with
  | Some n => if decide (n = 0%Z) then mret tt
              else modify (reseed host (random_seed host n))
  | None => mret tt
  end g = (Ok tt, seeded_globals host seed g).
Proof.
  unfold seeded_globals. destruct seed as [n|]; [|done]. by case_decide.
Qed.

Lemma seeded_globals_cache seed g :
  g_categories host (seeded_globals host seed g) = g_categories host g ∧
  g_cat_to_index host (seeded_globals host seed g) = g_cat_to_index host g ∧
  g_current_data_dir host (seeded_globals host seed g) = g_current_data_dir host g.
Proof. unfold seeded_globals. destruct seed as [n|]; [|done]. by case_decide. Qed.

Lemma seeded_globals_rng n g :
  n ≠ 0%Z → g_rng host (seeded_globals host (Some n) g) = random_seed host n.
Proof. intros Hn. unfold seeded_globals. by rewrite decide_False. Qed.

(** A seed of 0, like no seed, leaves the generator where it was. *)
Lemma seeded_globals_zero g : seeded_globals host (Some 0%Z) g = g.
Proof. done. Qed.

(** What a load that returns has done. *)
Lemma load_inv index dir root shuffle load_objects seed rotation g scene g1 :
  RenderedScene_init host index dir root shuffle load_objects seed rotation g
    = (Ok scene, g1) →
  ∃ g2 rec objs dws,
    cache_valid host dir g2 ∧
    g_rng host g2 = g_rng host (seeded_globals host seed g) ∧
    (cache_valid host dir g → g_cat_to_index host g2 = g_cat_to_index host g) ∧
    pickle_load host (room_path host index dir root rotation) = Some rec ∧
    sort_nodes host load_objects (g_cat_to_index host g2) (rec_nodes rec)
      = Ok (objs, dws) ∧
    object_nodes host scene =
      (if shuffle then (random_shuffle host objs (g_rng host g2)).1 else objs) ∧
    cache_valid host dir g1 ∧
    g_cat_to_index host g1 = g_cat_to_index host g2 ∧
    g_rng host g1 =
      (if shuffle then (random_shuffle host objs (g_rng host g2)).2
       else g_rng host g2).
Proof.
  unfold RenderedScene_init. intros H.
  apply bind_ok in H as ([] & g0 & H0 & H).
  rewrite seed_step in H0. injection H0 as <-.
  apply bind_ok in H as (ga & gb & H0 & H). apply get_ok in H0 as [-> ->].
  apply bind_ok in H as ([] & g2 & H0 & H).
  apply bind_ok in H as (rec & g3 & H1 & H). apply lift_ok in H1 as [Hrec ->].
  apply bind_ok in H as (ga & gb & H1 & H). apply get_ok in H1 as [-> ->].
  apply bind_ok in H as ([objs dws] & g3 & H1 & H). apply lift_ok in H1 as [Hsort ->].
  apply bind_ok in H as (objs' & g3 & H1 & H). apply ret_ok in H as [-> ->].
  destruct (seeded_globals_cache seed g) as (Ec & Ei & Ed).
  assert (Hg2 : cache_valid host dir g2 ∧
                g_rng host g2 = g_rng host (seeded_globals host seed g) ∧
                (cache_valid host dir g →
                 g_cat_to_index host g2 = g_cat_to_index host g)).
  { match type of H0 with
    | (if ?d then _ else _) _ = _ => destruct d as [Hc|Hc]
    end.
    - apply bind_ok in H0 as (lines & ga & H2 & H0). apply lift_ok in H2 as [_ ->].
      apply bind_ok in H0 as (cats & ga & H2 & H0). apply lift_ok in H2 as [_ ->].
      injection H0 as <-. split_and!; [by split|done|].
      intros [Hsome Hdir]. rewrite Ec, Ed in Hc. destruct Hc as [Hc|Hc]; [|done].
      rewrite Hc in Hsome. by destruct Hsome.
    - apply ret_ok in H0 as [_ ->]. split_and!; [|done|by rewrite Ei].
      split.
      + destruct (g_categories host (seeded_globals host seed g)) eqn:E; [done|].
        exfalso. apply Hc. by left.
      + destruct (decide (g_current_data_dir host (seeded_globals host seed g)
                          = Some dir)) as [E|E]; [done|].
        exfalso. apply Hc. by right. }
  destruct Hg2 as (Hvalid & Hrng & Hidx).
  exists g2, rec, objs, dws.
  assert (Hp : pickle_load host (room_path host index dir root rotation) = Some rec).
  { unfold room_path.
    destruct (pickle_load host _) as [r|]; simpl in Hrec; [|done].
    by injection Hrec as ->. }
  destruct shuffle.
  - apply bind_ok in H1 as (ga & gb & H2 & H1). apply get_ok in H2 as [-> ->].
    destruct (random_shuffle host objs (g_rng host g2)) as [shuffled st] eqn:Hsh.
    apply bind_ok in H1 as ([] & gb & H2 & H1). injection H2 as <-.
    apply ret_ok in H1 as [-> ->]. simpl. by split_and!.
  - apply ret_ok in H1 as [-> ->]. simpl. by split_and!.
Qed.

(** A load on a filled cache returns when the room file is there and every
    furniture category is known. *)
Lemma load_run index dir root shuffle load_objects seed rotation g rec objs dws :
  cache_valid host dir g →
  pickle_load host (room_path host index dir root rotation) = Some rec →
  sort_nodes host load_objects (g_cat_to_index host g) (rec_nodes rec)
    = Ok (objs, dws) →
  ∃ scene g1,
    RenderedScene_init host index dir root shuffle load_objects seed rotation g
      = (Ok scene, g1) ∧
    object_nodes host scene =
      (if shuffle
       then (random_shuffle host objs
               (g_rng host (seeded_globals host seed g))).1
       else objs).
Proof.
  intros [Hsome Hdir] Hrec Hsort.
  destruct (seeded_globals_cache seed g) as (Ec & Ei & Ed).
  unfold RenderedScene_init, room_path in *.
  unfold mbind at 1. unfold ST_bind at 1. rewrite seed_step.
  unfold mbind at 1. unfold ST_bind at 1. unfold get at 1.
  unfold mbind at 1. unfold ST_bind at 1.
  rewrite decide_False.
  2:{ rewrite Ec, Ed. intros [Hc|Hc]; [|done]. rewrite Hc in Hsome. by destruct Hsome. }
  simpl. unfold mbind at 1. unfold ST_bind at 1. rewrite Hrec. simpl.
  unfold mbind at 1. unfold ST_bind at 1. unfold get at 1.
  unfold mbind at 1. unfold ST_bind at 1. rewrite Ei, Hsort. simpl.
  destruct shuffle.
  - unfold mbind, ST_bind, get. simpl.
    destruct (random_shuffle host objs _) as [shuffled st]. simpl. eauto.
  - unfold mbind, ST_bind. simpl. eauto.
Qed.

(** X22. With a seed other than 0, a second load of the same room gives the
    furniture in the order of the first. *)
Lemma load_seeded_twice index dir root shuffle load_objects n rotation
    g scene1 g1 :
  n ≠ 0%Z →
  RenderedScene_init host index dir root shuffle load_objects (Some n) rotation g
    = (Ok scene1, g1) →
  ∃ scene2 g2,
    RenderedScene_init host index dir root shuffle load_objects (Some n) rotation g1
      = (Ok scene2, g2) ∧
    object_nodes host scene2 = object_nodes host scene1.
Proof.
  intros Hn H1.
  apply load_inv in H1
    as (ga & rec & objs & dws & _ & Hrng & _ & Hrec & Hsort & Hobj & Hvalid & Hidx & _).
  rewrite <- Hidx in Hsort.
  destruct (load_run index dir root shuffle load_objects (Some n) rotation
              g1 rec objs dws Hvalid Hrec Hsort) as (scene2 & g2 & Hrun & Hobj2).
  exists scene2, g2. split; [done|]. rewrite Hobj, Hobj2, Hrng.
  by rewrite !seeded_globals_rng.
Qed.

(** With a seed of 0 the order of the second load is the shuffle from the
    generator state that the first load left behind. *)
Lemma load_seed_zero_twice index dir root load_objects rotation g scene1 g1 :
  RenderedScene_init host index dir root true load_objects (Some 0%Z) rotation g
    = (Ok scene1, g1) →
  ∃ objs scene2 g2,
    RenderedScene_init host index dir root true load_objects (Some 0%Z) rotation g1
      = (Ok scene2, g2) ∧
    object_nodes host scene1 = (random_shuffle host objs (g_rng host g)).1 ∧
    object_nodes host scene2 =
      (random_shuffle host objs
         (random_shuffle host objs (g_rng host g)).2).1.
Proof.
  intros H1.
  apply load_inv in H1
    as (ga & rec & objs & dws & _ & Hrng & _ & Hrec & Hsort & Hobj & Hvalid & Hidx & Hrng1).
  rewrite <- Hidx in Hsort.
  destruct (load_run index dir root true load_objects (Some 0%Z) rotation
              g1 rec objs dws Hvalid Hrec Hsort) as (scene2 & g2 & Hrun & Hobj2).
  exists objs, scene2, g2. rewrite seeded_globals_zero in *.
  split_and!; [done|by rewrite Hobj, Hrng|by rewrite Hobj2, Hrng1, Hrng].
Qed.

Lemma sort_nodes_raise load_objects idx nodes e :
  foldl (λ acc node, a ← acc; sort_node host load_objects idx a node)
        (Raise e) nodes = Raise e.
Proof. induction nodes as [|node nodes IH]; [done|]. simpl. apply IH. Qed.

Lemma sort_nodes_from idx acc nodes objs dws :
  foldl (λ acc node, a ← acc; sort_node host true idx a node) (Ok acc) nodes
    = Ok (objs, dws) →
  ∃ rest,
    objs = acc.1 ++ rest ∧
    Forall2 (λ node obj, ∃ i, obj = set_category (Idx i) node)
      (filter (λ node, get_final_category host (Node.modelId node)
                         ∉ ["door"; "window"]) nodes)
      rest.
Proof.
  revert acc. induction nodes as [|node nodes IH]; intros acc.
  - simpl. intros [= ->]. exists []. simpl. by rewrite app_nil_r.
  - simpl.
    destruct (sort_node host true idx acc node) as [acc'|e] eqn:E;
      [|by rewrite sort_nodes_raise].
    intros H. apply IH in H as (rest & -> & HF).
    unfold sort_node in E. case_decide as Hcat.
    + injection E as <-. simpl. exists rest. split; [done|].
      rewrite filter_cons_False; [done|]. by intros Hn.
    + destruct (idx !! get_final_category host (Node.modelId node)) as [i|];
        simpl in E; [|done].
      injection E as <-. simpl.
      exists (set_category (Idx i) node :: rest).
      split; [by rewrite <- app_assoc|].
      rewrite filter_cons_True by done. constructor; [by exists i|done].
Qed.

(** X23. Without shuffling, the furniture records come in the order of the
    room file: they are the stored records that are neither door nor window,
    each tagged with its category index. *)
Lemma load_unshuffled index dir root seed rotation g scene g1 :
  RenderedScene_init host index dir root false true seed rotation g
    = (Ok scene, g1) →
  ∃ rec,
    pickle_load host (room_path host index dir root rotation) = Some rec ∧
    Forall2 (λ node obj, ∃ i, obj = set_category (Idx i) node)
      (filter (λ node, get_final_category host (Node.modelId node)
                         ∉ ["door"; "window"]) (rec_nodes rec))
      (object_nodes host scene).
Proof.
  intros H.
  apply load_inv in H as (g2 & rec & objs & dws & _ & _ & _ & Hrec & Hsort & Hobj & _).
  exists rec. split; [done|]. rewrite Hobj.
  apply sort_nodes_from in Hsort as (rest & -> & HF). done.
Qed.
End LoaderLemmas.

(** C8. A seed of 0 is not used.  With the stand-in host, two loads of the
    same room in a row with [seed = 0] give the furniture in two different
    orders (the generator is not set back, [if seed:] takes 0 for no seed),
    while with [seed = 5] both loads give the same order. *)
Theorem seed_zero_not_reproducible :
  two_loads (Some 0%Z) = Ok (["chair"; "table"], ["table"; "chair"]) ∧
  two_loads (Some 5%Z) = Ok (["table"; "chair"], ["table"; "chair"]).
Proof. split; vm_compute; reflexivity. Qed.

(** * Further properties of the code *)

(** ** Where a patch lands *)

Lemma cell_imap {A} (f : nat → list A → list A) (g : list (list A)) i j :
  cell (imap f g) i j = g !! i ≫= λ row, f i row !! j.
Proof.
  unfold cell. rewrite list_lookup_imap. by destruct (g !! i).
Qed.

(** X1. A patch that fits is copied to its offset.  For a rectangular patch of
    [xs] x [ys] cells and an offset [(x, y)] with [0 <= x], [x + xs <= n],
    [0 <= y], [y + ys <= n], the slice assignment succeeds; the buffer is
    [n] x [n], holds the patch cell [(i - x, j - y)] at every [(i, j)] inside
    the rectangle and 0 everywhere else. *)
Theorem paste_places_patch (n xs ys : nat) (x y : Z) (h : Grid) :
  shape h = (xs, ys) →
  has_shape xs ys h →
  (0 ≤ x)%Z → (x + Z.of_nat xs ≤ Z.of_nat n)%Z →
  (0 ≤ y)%Z → (y + Z.of_nat ys ≤ Z.of_nat n)%Z →
  ∃ to_add,
    paste n (x, y) h = Ok to_add ∧
    grid_wf n to_add ∧
    ∀ i j, (i < n)%nat → (j < n)%nat →
      cell to_add i j =
        if decide ((Z.to_nat x ≤ i < Z.to_nat x + xs)%nat ∧
                   (Z.to_nat y ≤ j < Z.to_nat y + ys)%nat)
        then cell h (i - Z.to_nat x) (j - Z.to_nat y)
        else Some 0.
Proof.
  intros Hsh Hh Hx0 Hx1 Hy0 Hy1.
  assert (E : ∃ to_add, paste n (x, y) h = Ok to_add ∧
            ∀ i j, (i < n)%nat → (j < n)%nat →
              cell to_add i j =
                if decide ((Z.to_nat x ≤ i < Z.to_nat x + xs)%nat ∧
                           (Z.to_nat y ≤ j < Z.to_nat y + ys)%nat)
                then cell h (i - Z.to_nat x) (j - Z.to_nat y)
                else Some 0).
  { unfold paste, setitem_slice. rewrite Hsh, shape_zeros.
    assert (Hr0 : slice_bound n x = Z.to_nat x).
    { unfold slice_bound. rewrite (proj2 (Z.ltb_ge _ _)) by lia. lia. }
    assert (Hr1 : slice_bound n (x + Z.of_nat xs) = (Z.to_nat x + xs)%nat).
    { unfold slice_bound. rewrite (proj2 (Z.ltb_ge _ _)) by lia. lia. }
    assert (Hc0 : slice_bound n y = Z.to_nat y).
    { unfold slice_bound. rewrite (proj2 (Z.ltb_ge _ _)) by lia. lia. }
    assert (Hc1 : slice_bound n (y + Z.of_nat ys) = (Z.to_nat y + ys)%nat).
    { unfold slice_bound. rewrite (proj2 (Z.ltb_ge _ _)) by lia. lia. }
    rewrite Hr0, Hr1, Hc0, Hc1.
    replace (Z.to_nat x + xs - Z.to_nat x)%nat with xs by lia.
    replace (Z.to_nat y + ys - Z.to_nat y)%nat with ys by lia.
    unfold broadcastable. rewrite !Nat.eqb_refl. simpl.
    eexists. split; [reflexivity|]. intros i j Hi Hj.
    rewrite cell_imap. unfold zeros.
    rewrite (lookup_replicate_2 n (replicate n 0) i Hi). simpl.
    destruct (decide (Z.to_nat x ≤ i < Z.to_nat x + xs)%nat) as [Hri|Hri].
    - rewrite list_lookup_imap, (lookup_replicate_2 n 0 j Hj). simpl.
      destruct (decide (Z.to_nat y ≤ j < Z.to_nat y + ys)%nat) as [Hcj|Hcj].
      + rewrite decide_True by done.
        assert (Ei : (if (xs =? 1)%nat then 0%nat else (i - Z.to_nat x)%nat)
                     = (i - Z.to_nat x)%nat).
        { destruct (Nat.eqb_spec xs 1); [lia|done]. }
        assert (Ej : (if (ys =? 1)%nat then 0%nat else (j - Z.to_nat y)%nat)
                     = (j - Z.to_nat y)%nat).
        { destruct (Nat.eqb_spec ys 1); [lia|done]. }
        rewrite Ei, Ej.
        destruct (has_shape_cell xs ys h (i - Z.to_nat x) (j - Z.to_nat y) Hh)
          as [v Hv]; [lia..|].
        by rewrite Hv.
      + rewrite decide_False by tauto. done.
    - rewrite decide_False by tauto. by rewrite (lookup_replicate_2 n 0 j Hj). }
  destruct E as (to_add & Hp & Hcells). exists to_add.
  split_and!; [done|by eapply paste_wf|done].
Qed.

Lemma paste_places_patch_witness :
  ∃ to_add,
    paste 3 (1%Z, 0%Z) (Node.height_map chair) = Ok to_add ∧
    cell to_add 2 1 = cell (Node.height_map chair) 1 1 ∧
    cell to_add 0 0 = Some 0.
Proof.
  destruct (paste_places_patch 3 2 2 1 0 (Node.height_map chair))
    as (to_add & Hp & _ & Hc).
  - reflexivity.
  - split; [reflexivity|]. repeat constructor.
  - lia.
  - lia.
  - lia.
  - lia.
  - exists to_add. split_and!; [exact Hp|..].
    + by rewrite (Hc 2%nat 1%nat) by lia.
    + by rewrite (Hc 0%nat 0%nat) by lia.
Defined.

(** X2. The offset of a patch is never negative.  In [__init__] and
    [add_node] a bounding-box minimum below 0 on an axis gives offset 0 on
    that axis, and so does a patch that is 256 wide there; otherwise the
    offset is the floor of the minimum.  [add_node_obb] clamps the same way
    and has no 256 rule. *)
Theorem patch_offset_clamped (h : Grid) (b : Qc * Qc * Qc) :
  ((0 ≤ (patch_offset h b).1)%Z ∧ (0 ≤ (patch_offset h b).2)%Z) ∧
  (vec0 b < 0 → (patch_offset h b).1 = 0%Z) ∧
  (vec2 b < 0 → (patch_offset h b).2 = 0%Z) ∧
  ((shape h).1 ≠ 256%nat → 0 ≤ vec0 b → (patch_offset h b).1 = floor (vec0 b)) ∧
  ((shape h).2 ≠ 256%nat → 0 ≤ vec2 b → (patch_offset h b).2 = floor (vec2 b)) ∧
  ((0 ≤ (patch_offset_obb b).1)%Z ∧ (0 ≤ (patch_offset_obb b).2)%Z) ∧
  (vec0 b < 0 → (patch_offset_obb b).1 = 0%Z) ∧
  (vec2 b < 0 → (patch_offset_obb b).2 = 0%Z) ∧
  (0 ≤ vec0 b → (patch_offset_obb b).1 = floor (vec0 b)) ∧
  (0 ≤ vec2 b → (patch_offset_obb b).2 = floor (vec2 b)).
Proof.
  assert (Hneg : ∀ v : Qc, v < 0 → (floor v < 0)%Z).
  { intros v Hv. unfold floor.
    pose proof (Qfloor_le (this v)) as Hle.
    assert (Hlt : (inject_Z (Qfloor (this v)) < inject_Z 0)%Q).
    { eapply Qle_lt_trans; [exact Hle|]. exact Hv. }
    by rewrite <- Zlt_Qlt in Hlt. }
  assert (Hpos : ∀ v : Qc, 0 ≤ v → (0 ≤ floor v)%Z).
  { intros v Hv. unfold floor.
    exact (Qfloor_resp_le 0 (this v) Hv). }
  unfold patch_offset, patch_offset_obb. destruct (shape h) as [xs ys]. simpl.
  split; [split; repeat case_match; lia|].
  split; [intros Hv; apply Hneg in Hv; repeat case_match; lia|].
  split; [intros Hv; apply Hneg in Hv; repeat case_match; lia|].
  split.
  { intros Hn Hv. apply Hpos in Hv.
    rewrite (proj2 (Nat.eqb_neq _ _) Hn). repeat case_match; lia. }
  split.
  { intros Hn Hv. apply Hpos in Hv.
    rewrite (proj2 (Nat.eqb_neq _ _) Hn). repeat case_match; lia. }
  split; [lia|].
  split; [intros Hv; apply Hneg in Hv; lia|].
  split; [intros Hv; apply Hneg in Hv; lia|].
  split; intros Hv; apply Hpos in Hv; lia.
Qed.

(** ** The bounding-box variant *)

(** X3. [add_node_obb] is [add_node] on a node whose bounding-box fields
    repeat the full-geometry fields, as long as the patch is not 256 wide on
    either axis: the two methods differ only in the field they read and in
    the 256 rule. *)
Theorem add_node_obb_agrees (sqrt : Qc → Qc) (node : Node.t)
    (s : RenderedComposite) :
  Node.height_map_obb node = Node.height_map node →
  Node.bbox_min_obb node = Node.bbox_min node →
  (shape (Node.height_map node)).1 ≠ 256%nat →
  (shape (Node.height_map node)).2 ≠ 256%nat →
  add_node_obb sqrt node s = add_node sqrt node s.
Proof.
  intros Hh Hb Hx Hy. rewrite add_node_obb_unfold, add_node_unfold, Hh, Hb.
  assert (E : patch_offset_obb (Node.bbox_min node) =
              patch_offset (Node.height_map node) (Node.bbox_min node)).
  { unfold patch_offset_obb, patch_offset.
    destruct (shape (Node.height_map node)) as [xs ys]. simpl in *.
    rewrite (proj2 (Nat.eqb_neq _ _) Hx), (proj2 (Nat.eqb_neq _ _) Hy).
    f_equal; case_match; lia. }
  by rewrite E.
Qed.

Lemma add_node_obb_agrees_witness :
  add_node_obb sqrt_exact chair empty_room = add_node sqrt_exact chair empty_room.
Proof.
  apply add_node_obb_agrees; [reflexivity|reflexivity|..]; vm_compute; discriminate.
Defined.

(** X4. The bounding-box variant keeps the invariant and never lowers a
    height: after [add_node_obb], and after a whole [add_nodes_obb] sequence,
    whether it returns or raises, the composite is well formed, of the same
    side, and its height map is cell-wise at least the old one. *)
Theorem add_nodes_obb_monotone (sqrt : Qc → Qc) (s : RenderedComposite) :
  wf s →
  (∀ node,
     let s' := (add_node_obb sqrt node s).2 in
     wf s' ∧ size s' = size s ∧ height_le (height_map s) (height_map s')) ∧
  (∀ nodes,
     let s' := (add_nodes_obb sqrt nodes s).2 in
     wf s' ∧ size s' = size s ∧ height_le (height_map s) (height_map s')).
Proof.
  assert (Hstep : ∀ node a, wf a →
            wf (add_node_obb sqrt node a).2 ∧
            size (add_node_obb sqrt node a).2 = size a ∧
            height_le (height_map a) (height_map (add_node_obb sqrt node a).2)).
  { intros node a Ha. rewrite add_node_obb_unfold.
    destruct (paste _ _ _) as [to_add|e] eqn:Hp;
      [|by split_and!; [|..|apply height_le_refl]].
    destruct (get_transformation _ _) as [[sin cos]|e];
      [|by split_and!; [|..|apply height_le_refl]].
    apply paste_wf in Hp. split_and!.
    - by apply add_height_map_wf.
    - apply add_height_map_size.
    - by apply add_height_map_le. }
  intros Hwf. split; [intros node; by apply Hstep|].
  intros nodes. unfold add_nodes_obb.
  apply (for_each_step (add_node_obb sqrt) wf
           (λ a b, size b = size a ∧ height_le (height_map a) (height_map b)));
    [| | |done].
  - intros a. split; [done|apply height_le_refl].
  - intros a b c [Hs1 Hl1] [Hs2 Hl2]. split; [congruence|].
    by eapply height_le_trans.
  - intros x a Ha. by apply Hstep.
Qed.

Lemma add_nodes_obb_monotone_witness :
  wf empty_room ∧
  height_le (height_map empty_room)
            (height_map (add_nodes_obb sqrt_exact [chair; table] empty_room).2).
Proof.
  assert (H : wf empty_room) by (split; vm_compute; repeat constructor).
  split; [exact H|].
  apply (add_nodes_obb_monotone sqrt_exact empty_room H).
Defined.

(** ** Category indices and failures *)

(** X5. A negative category index counts from the last layer, as Python
    indexing does: with [C] layers and [-C <= c < 0], [add_height_map] with
    category [c] does exactly what it does with category [C + c]. *)
Theorem add_height_map_negative_index (to_add : Grid) (c : Z) (sin cos : Qc)
    (s : RenderedComposite) :
  (- Z.of_nat (length (cat_map s)) ≤ c < 0)%Z →
  add_height_map to_add (Idx c) sin cos s =
    add_height_map to_add (Idx (Z.of_nat (length (cat_map s)) + c)) sin cos s.
Proof.
  intros Hc.
  assert (H1 : layer_index (length (cat_map s)) (Idx c)
               = Ok (Z.to_nat (Z.of_nat (length (cat_map s)) + c))).
  { simpl. unfold py_index. rewrite decide_False by lia. by rewrite decide_True. }
  assert (H2 : layer_index (length (cat_map s))
                 (Idx (Z.of_nat (length (cat_map s)) + c))
               = Ok (Z.to_nat (Z.of_nat (length (cat_map s)) + c))).
  { simpl. apply py_index_nonneg. lia. }
  destruct (lookup_lt_is_Some_2 (cat_map s)
              (Z.to_nat (Z.of_nat (length (cat_map s)) + c))) as [row Hrow]; [lia|].
  rewrite (add_height_map_ok _ _ _ _ _ _ _ H1 Hrow).
  by rewrite (add_height_map_ok _ _ _ _ _ _ _ H2 Hrow).
Qed.

Lemma add_height_map_negative_index_witness :
  add_height_map (p_to_add chair_placement) (Idx (-1)) 0 (q 1) empty_room =
  add_height_map (p_to_add chair_placement) (Idx 1) 0 (q 1) empty_room.
Proof.
  apply (add_height_map_negative_index (p_to_add chair_placement) (-1) 0 (q 1)
           empty_room).
  vm_compute. split; [discriminate|reflexivity].
Defined.





(** X8. [add_nodes] on a concatenation runs the first list and then, if that
    returned, the second; a node that raises ends the loop, and the nodes
    after it are not added. *)
Theorem add_nodes_app (sqrt : Qc → Qc) (xs ys : list Node.t)
    (s : RenderedComposite) :
  add_nodes sqrt (xs ++ ys) s =
    match add_nodes sqrt xs s with
    | (Ok _, s') => add_nodes sqrt ys s'
    | (Raise e, s') => (Raise e, s')
    end ∧
  (∀ x e, (add_node sqrt x s).1 = Raise e →
          add_nodes sqrt (x :: ys) s = add_node sqrt x s) ∧
  add_nodes sqrt [] s = (Ok tt, s).
Proof.
  split_and!.
  - apply for_each_app.
  - intros x e He. unfold add_nodes. simpl. unfold mbind, ST_bind.
    destruct (add_node sqrt x s) as [[[]|e'] s']; [done|done].
  - done.
Qed.

(** ** Orientation values *)


Lemma encode_range (v : Qc) : -1 ≤ v → v ≤ 1 → 0 ≤ encode v ∧ encode v ≤ 1.
Proof.
  intros H1 H2.
  assert (H1' : (-1 <= this v)%Q) by exact H1.
  assert (H2' : (this v <= 1)%Q) by exact H2.
  assert (E : (this (encode v) == (this v + 1) / 2)%Q).
  { unfold encode. simpl. rewrite !Qred_correct. reflexivity. }
  split.
  - change (0 <= this (encode v))%Q. rewrite E.
    apply Qle_shift_div_l; [reflexivity|]. lra.
  - change (this (encode v) <= 1)%Q. rewrite E.
    apply Qle_shift_div_r; [reflexivity|]. lra.
Qed.



Lemma Forall_zip_with_l {A B} (P : A → Prop) (f : A → B → A) l k :
  (∀ x y, P x → P (f x y)) → Forall P l → Forall P (zip_with f l k).
Proof.
  intros Hf Hl. revert k. induction Hl as [|x l Hx _ IH]; intros [|y k]; simpl;
    constructor; auto.
Qed.

Lemma Forall_zip_with_lr {A B} (P : A → Prop) (Q : B → Prop) (f : A → B → A) l k :
  (∀ x y, P x → Q y → P (f x y)) → Forall P l → Forall Q k →
  Forall P (zip_with f l k).
Proof.
  intros Hf Hl. revert k. induction Hl as [|x l Hx _ IH]; intros [|y k] Hk; simpl;
    try constructor; inversion_clear Hk; auto.
Qed.

Lemma in_unit_masked_fill dst mask v :
  in_unit dst → 0 ≤ v ∧ v ≤ 1 → in_unit (masked_fill dst mask v).
Proof.
  intros Hd Hv. unfold masked_fill, map2, in_unit.
  apply Forall_zip_with_l; [|done]. intros row mrow Hrow.
  apply Forall_zip_with_l; [|done]. intros x [] Hx; done.
Qed.

Lemma in_unit_zeros n m : in_unit (zeros n m).
Proof.
  apply Forall_replicate, Forall_replicate. split; [apply Qcle_refl|done].
Qed.

(** X10. The orientation maps stay in [[0, 1]].  They start as zeros, and
    [add_height_map] with a sine and a cosine in [[-1, 1]] keeps every entry
    of [sin_map] and [cos_map] in [[0, 1]], whether it returns or raises. *)
Theorem orientation_maps_in_unit (categories : list string) (floor wall : Grid) :
  (in_unit (sin_map (seeded categories floor wall)) ∧
   in_unit (cos_map (seeded categories floor wall))) ∧
  ∀ s to_add c sin cos,
    in_unit (sin_map s) → in_unit (cos_map s) →
    -1 ≤ sin → sin ≤ 1 → -1 ≤ cos → cos ≤ 1 →
    in_unit (sin_map (add_height_map to_add c sin cos s).2) ∧
    in_unit (cos_map (add_height_map to_add c sin cos s).2).
Proof.
  split; [split; apply in_unit_zeros|].
  intros s to_add c sin cos Hs Hc Hs1 Hs2 Hc1 Hc2.
  destruct (add_height_map_cases c s) as [(k & row & Hk & Hr)|[e He]].
  - rewrite (add_height_map_ok _ _ _ _ _ _ _ Hk Hr). simpl.
    split; apply in_unit_masked_fill; try done; by apply encode_range.
  - by rewrite (add_height_map_raise _ _ _ _ _ _ He).
Qed.

(** ** Category weights *)

Lemma half_steps_row_add (row mask : Grid) :
  Forall (Forall (λ v, ∃ k, v = half_count k)) row →
  Forall (Forall (λ m, m = 0 ∨ m = half)) mask →
  Forall (Forall (λ v, ∃ k, v = half_count k)) (add row mask).
Proof.
  intros Hr Hm. unfold add, map2.
  apply (Forall_zip_with_lr _ (Forall (λ m, m = 0 ∨ m = half))); [|done..].
  intros r m Hr' Hm'.
  apply (Forall_zip_with_lr _ (λ m, m = 0 ∨ m = half)); [|done..].
  intros x y [k ->] [->| ->].
  - exists k. apply Qcplus_0_r.
  - by exists (S k).
Qed.

Lemma occupancy_values to_add :
  Forall (Forall (λ m, m = 0 ∨ m = half)) (occupancy to_add).
Proof.
  unfold occupancy, masked_fill, map2, zeros_like.
  apply Forall_zip_with_l.
  - intros r m Hr. apply Forall_zip_with_l; [|done]. intros x [] Hx; auto.
  - apply Forall_fmap, Forall_forall. intros r _. simpl.
    apply Forall_fmap, Forall_forall. intros x _. simpl. by left.
Qed.

(** X11. Category weights are whole numbers of halves.  The category layers
    start at 0, and [add_height_map], [add_node] and [add_nodes] only ever add
    0 or 0.5 to an entry, whether they return or raise: every entry of
    [cat_map] is [k] times 0.5 for a natural number [k], at any time. *)
Theorem cat_map_half_steps (sqrt : Qc → Qc) :
  (∀ categories floor wall, half_steps (cat_map (seeded categories floor wall))) ∧
  (∀ s to_add c sin cos,
     half_steps (cat_map s) →
     half_steps (cat_map (add_height_map to_add c sin cos s).2)) ∧
  (∀ s nodes,
     half_steps (cat_map s) →
     half_steps (cat_map (add_nodes sqrt nodes s).2)).
Proof.
  assert (Hstep : ∀ s to_add c sin cos,
            half_steps (cat_map s) →
            half_steps (cat_map (add_height_map to_add c sin cos s).2)).
  { intros s to_add c sin cos Hs.
    destruct (add_height_map_cases c s) as [(k & row & Hk & Hr)|[e He]].
    - rewrite (add_height_map_ok _ _ _ _ _ _ _ Hk Hr). simpl.
      apply Forall_insert; [done|].
      apply half_steps_row_add; [|apply occupancy_values].
      exact (proj1 (Forall_lookup _ _) Hs k row Hr).
    - by rewrite (add_height_map_raise _ _ _ _ _ _ He). }
  split_and!; [|done|].
  - intros categories floor wall. simpl.
    apply Forall_replicate, Forall_replicate, Forall_replicate. by exists 0%nat.
  - intros s nodes Hs. unfold add_nodes.
    apply (for_each_step (add_node sqrt) (λ a, half_steps (cat_map a)) (λ _ _, True));
      [done|done| |done].
    intros node a Ha. split; [|done]. rewrite add_node_unfold.
    destruct (paste _ _ _) as [to_add|e]; [|done].
    destruct (get_transformation _ _) as [[sin cos]|e]; [|done].
    by apply Hstep.
Qed.

(** ** Layouts and requests that are not served *)

(** X12. The ablated layouts are cuts of the full one.  On a well-formed
    composite all three layouts are returned without a change to the
    composite; ["basic"] is the first six channels of the full layout followed
    by the [k] zero channels, and ["depth"] is channel 3 of the full layout,
    the height map, followed by the [k] zero channels. *)
Theorem ablation_layouts (k : nat) (s : RenderedComposite) :
  wf s →
  ∃ full,
    get_composite k None s = (Ok full, s) ∧
    get_composite k (Some "basic") s =
      (Ok (take 6 full ++ replicate k (zeros (size s) (size s))), s) ∧
    get_composite k (Some "depth") s =
      (Ok (take 1 (drop 3 full) ++ replicate k (zeros (size s) (size s))), s) ∧
    length (take 6 full ++ replicate k (zeros (size s) (size s))) = (6 + k)%nat ∧
    length (take 1 (drop 3 full) ++ replicate k (zeros (size s) (size s)))
      = (1 + k)%nat.
Proof.
  intros Hwf. pose proof (wf_cat_map_len _ Hwf) as Hlen.
  eexists. split; [by apply get_composite_full|].
  split_and!.
  - unfold get_composite, mbind, ST_bind, get. simpl. reflexivity.
  - unfold get_composite, mbind, ST_bind, get. simpl. reflexivity.
  - simpl. by rewrite length_replicate.
  - simpl. by rewrite length_replicate.
Qed.

Lemma ablation_layouts_witness :
  wf room_with_chair ∧
  ∃ full,
    get_composite 1 None room_with_chair = (Ok full, room_with_chair) ∧
    get_composite 1 (Some "depth") room_with_chair =
      (Ok (take 1 (drop 3 full) ++ replicate 1 (zeros 3 3)), room_with_chair).
Proof.
  assert (H : wf room_with_chair) by (split; vm_compute; repeat constructor).
  split; [exact H|].
  destruct (ablation_layouts 1 room_with_chair H) as (full & Hf & _ & Hd & _).
  exists full. split; [exact Hf|exact Hd].
Defined.

(** X13. Requests that are not served raise [NotImplementedError] and leave
    the composite as it was: [get_composite] with an ablation other than
    ["depth"] and ["basic"], and [add_and_get_composite] with
    [temporary = False], whatever its other arguments are (also a patch of
    the wrong shape or a category that names no channel). *)
Theorem unsupported_requests (s : RenderedComposite) :
  (∀ ablation k,
     ablation ≠ "depth" → ablation ≠ "basic" →
     get_composite k (Some ablation) s = (Raise NotImplementedError, s)) ∧
  (∀ to_add category sin cos k,
     add_and_get_composite to_add category sin cos k false s
       = (Raise NotImplementedError, s)).
Proof.
  split.
  - intros ablation k H1 H2. unfold get_composite, mbind, ST_bind, get. simpl.
    by rewrite !decide_False by done.
  - done.
Qed.




(** ** The constructor *)

Lemma Qc_sum_zero (f w : Qc) : 0 ≤ f → 0 ≤ w → f + w = 0 → f = 0 ∧ w = 0.
Proof.
  intros Hf Hw H. apply (f_equal this) in H.
  assert (Hf' : (0 <= this f)%Q) by exact Hf.
  assert (Hw' : (0 <= this w)%Q) by exact Hw.
  assert (E : (this f + this w == 0)%Q).
  { transitivity (this (f + w)).
    - simpl. by rewrite Qred_correct.
    - rewrite H. reflexivity. }
  split; apply Qc_is_canon.
  - change (this f == 0)%Q. lra.
  - change (this w == 0)%Q. lra.
Qed.

(** X15. The masks that [__init__] derives from the floor and the wall.  At a
    cell with floor height [f] and wall height [w]: [room_mask] is 0 when
    [f + w = 0] and 1 otherwise, so for non-negative heights it is 1 exactly
    where the floor or the wall is not 0; [wall_mask] is 0.5 where the wall is
    not 0 and 0 elsewhere; [height_map] is the larger of [f] and [w]. *)
Theorem seeded_masks (categories : list string) (floor wall : Grid)
    (i j : nat) (f w : Qc) :
  cell floor i j = Some f →
  cell wall i j = Some w →
  let s := seeded categories floor wall in
  cell (room_mask s) i j = Some (if decide (f + w = 0) then 0 else 1) ∧
  (0 ≤ f → 0 ≤ w →
   cell (room_mask s) i j = Some (if decide (f = 0 ∧ w = 0) then 0 else 1)) ∧
  cell (wall_mask s) i j = Some (if decide (w = 0) then 0 else half) ∧
  cell (height_map s) i j = Some (Qcmax f w) ∧
  f ≤ Qcmax f w ∧ w ≤ Qcmax f w.
Proof.
  intros Hf Hw s.
  assert (Hroom : cell (room_mask s) i j = Some (if decide (f + w = 0) then 0 else 1)).
  { simpl. rewrite cell_masked_fill. unfold ne_scalar. rewrite cell_fmap.
    rewrite cell_add, Hf, Hw. simpl.
    destruct (decide (f + w = 0)) as [E|E].
    - rewrite bool_decide_eq_true_2 by done. simpl. by rewrite E.
    - by rewrite bool_decide_eq_false_2 by done. }
  split_and!.
  - done.
  - intros Hf0 Hw0. rewrite Hroom. f_equal.
    destruct (decide (f + w = 0)) as [E|E].
    + rewrite decide_True; [done|]. by apply Qc_sum_zero.
    + rewrite decide_False; [done|]. intros [-> ->]. by apply E.
  - simpl. rewrite cell_masked_fill. unfold ne_scalar. rewrite cell_fmap, Hw.
    simpl. destruct (decide (w = 0)) as [E|E].
    + rewrite bool_decide_eq_true_2 by done. simpl. by rewrite E.
    + by rewrite bool_decide_eq_false_2 by done.
  - simpl. unfold max2. by rewrite cell_map2, Hf, Hw.
  - unfold Qcmax. destruct (gtb w f) eqn:E; [|apply Qcle_refl].
    apply Qclt_le_weak. by apply gtb_true.
  - unfold Qcmax. destruct (gtb w f) eqn:E; [apply Qcle_refl|].
    by apply gtb_false.
Qed.

Lemma seeded_masks_witness :
  cell (room_mask (seeded [] [[q 1; 0]] [[0; 0]])) 0 0 = Some (Q2Qc 1) ∧
  cell (room_mask (seeded [] [[q 1; 0]] [[0; 0]])) 0 1 = Some 0.
Proof.
  split.
  - exact (proj1 (seeded_masks [] [[q 1; 0]] [[0; 0]] 0 0 (q 1) 0 eq_refl eq_refl)).
  - exact (proj1 (seeded_masks [] [[q 1; 0]] [[0; 0]] 0 1 0 0 eq_refl eq_refl)).
Defined.

Lemma masked_assign_le n (hm to_add : Grid) :
  grid_wf n hm → grid_wf n to_add →
  height_le hm (masked_assign hm (gt to_add hm) to_add).
Proof.
  intros Hh Ht.
  eapply height_le_cells; [exact Hh| |].
  - apply has_shape_masked_assign; [done| |done]. by apply has_shape_gt.
  - intros i j x y Hx Hy.
    destruct (cell_lt _ _ _ _ _ _ Hh Hx) as [Hi Hj].
    destruct (has_shape_cell _ _ _ i j Ht Hi Hj) as [t Htc].
    rewrite cell_masked_assign, cell_gt, Hx, Htc in Hy. simpl in Hy.
    injection Hy as <-. apply pick_le.
Qed.

(** What the pasting of one door or window record leaves alone, and that it
    never lowers a height. *)
Lemma add_door_window_frame node s :
  wf s →
  let s' := (add_door_window node s).2 in
  categories s' = categories s ∧ room_mask s' = room_mask s ∧
  cat_map s' = cat_map s ∧ sin_map s' = sin_map s ∧ cos_map s' = cos_map s ∧
  height_le (height_map s) (height_map s').
Proof.
  intros Hwf. unfold add_door_window, mbind, ST_bind, get, modify. simpl.
  destruct (paste _ _ _) as [to_add|e] eqn:Hp; simpl;
    [|by split_and!; [..|apply height_le_refl]].
  apply paste_wf in Hp.
  case_decide; simpl; split_and!; try done;
    by apply (masked_assign_le (size s)); [apply Hwf|].
Qed.

(** The fields that the loop of [__init__] leaves as [seeded] made them. *)
Lemma RenderedComposite_init_frame (cats : list string) (floor wall : Grid)
    (door_window_nodes : list Node.t) (n : nat) (self : RenderedComposite) :
  grid_wf n floor → grid_wf n wall →
  RenderedComposite_init cats floor wall door_window_nodes = Ok self →
  size self = n ∧
  categories self = cats ∧
  room_mask self = room_mask (seeded cats floor wall) ∧
  cat_map self = zeros3 (length cats) n n ∧
  sin_map self = zeros n n ∧
  cos_map self = zeros n n ∧
  height_le (max2 floor wall) (height_map self).
Proof.
  intros Hf Hw. unfold RenderedComposite_init.
  assert (Hn : (shape floor).1 = n) by by destruct Hf.
  destruct (for_each_step add_door_window wf
              (λ a b, size b = size a ∧ categories b = categories a ∧
                      room_mask b = room_mask a ∧ cat_map b = cat_map a ∧
                      sin_map b = sin_map a ∧ cos_map b = cos_map a ∧
                      height_le (height_map a) (height_map b)))
    with (xs := door_window_nodes) (s := seeded cats floor wall)
    as [_ (Hsz & Hcats & Hroom & Hcat & Hsin & Hcos & Hle)].
  - intros a. split_and!; try done. apply height_le_refl.
  - intros a b c (? & ? & ? & ? & ? & ? & ?) (? & ? & ? & ? & ? & ? & ?).
    split_and!; try congruence. by eapply height_le_trans.
  - intros x a Ha. split; [by apply add_door_window_wf|].
    destruct (add_door_window_frame x a Ha) as (? & ? & ? & ? & ? & ?).
    split_and!; try done. apply add_door_window_unfold.
  - by eapply seeded_wf.
  - destruct (for_each _ _ _) as [[[]|e] s']; [|done]. intros [= <-].
    simpl in *. rewrite Hn in *. by split_and!.
Qed.

(** X16. Doors and windows only touch the height map, the wall mask and their
    own two maps.  In the composite that [__init__] returns for a floor and a
    wall of side [n], whatever the door and window records are: the category
    layers, the sine map and the cosine map are all zero, the room mask is the
    one of the floor and the wall alone, and the height map is cell-wise at
    least the larger of floor and wall. *)
Theorem constructed_frame (cats : list string) (floor wall : Grid)
    (door_window_nodes : list Node.t) (n : nat) (self : RenderedComposite) :
  grid_wf n floor → grid_wf n wall →
  RenderedComposite_init cats floor wall door_window_nodes = Ok self →
  size self = n ∧
  categories self = cats ∧
  room_mask self = room_mask (seeded cats floor wall) ∧
  cat_map self = zeros3 (length cats) n n ∧
  sin_map self = zeros n n ∧
  cos_map self = zeros n n ∧
  height_le (max2 floor wall) (height_map self).
Proof. apply RenderedComposite_init_frame. Qed.

Lemma constructed_frame_witness :
  ∃ self,
    RenderedComposite_init ["chair"] (zeros 3 3) (zeros 3 3) [door; arch] = Ok self ∧
    cat_map self = zeros3 1 3 3 ∧ sin_map self = zeros 3 3.
Proof.
  destruct (RenderedComposite_init ["chair"] (zeros 3 3) (zeros 3 3) [door; arch])
    as [self|e] eqn:Hrun; [|vm_compute in Hrun; discriminate].
  exists self. split; [done|].
  destruct (constructed_frame ["chair"] (zeros 3 3) (zeros 3 3) [door; arch] 3 self)
    as (_ & _ & _ & Hcat & Hsin & _).
  - apply grid_wf_zeros.
  - apply grid_wf_zeros.
  - exact Hrun.
  - split; [exact Hcat|exact Hsin].
Defined.

(** X17. What one door or window record does to a cell.  When the patch can
    be pasted and holds [t] at the cell: the height becomes [t] if [t] is
    strictly higher and stays otherwise; the wall mask becomes 1 if [t > 0]
    and stays otherwise; the record's own map gains 0.5 if [t > 0] and the
    patch value [t] itself otherwise (the mask is made in the pasted buffer,
    so this is 0 for a patch without negative entries); that map is
    [door_map] when the record is tagged ["door"] and [window_map] for every
    other tag, and the other of the two maps stays as it was. *)
Theorem add_door_window_cell (node : Node.t) (s : RenderedComposite)
    (to_add : Grid) (i j : nat) (t h m d w : Qc) :
  paste (size s) (patch_offset (Node.height_map node) (Node.bbox_min node))
        (Node.height_map node) = Ok to_add →
  cell to_add i j = Some t →
  cell (height_map s) i j = Some h →
  cell (wall_mask s) i j = Some m →
  cell (door_map s) i j = Some d →
  cell (window_map s) i j = Some w →
  ∃ s',
    add_door_window node s = (Ok tt, s') ∧
    cell (height_map s') i j = Some (if gtb t h then t else h) ∧
    cell (wall_mask s') i j = Some (if gtb t 0 then 1 else m) ∧
    (Node.category node = Tag "door" →
       cell (door_map s') i j = Some (d + (if gtb t 0 then half else t)) ∧
       cell (window_map s') i j = Some w) ∧
    (Node.category node ≠ Tag "door" →
       cell (window_map s') i j = Some (w + (if gtb t 0 then half else t)) ∧
       cell (door_map s') i j = Some d) ∧
    (0 ≤ t → (if gtb t 0 then half else t) = weight t).
Proof.
  intros Hp Ht Hh Hm Hd Hw.
  assert (Hmask : cell (masked_fill to_add (gt_scalar to_add 0) half) i j
                  = Some (if gtb t 0 then half else t)).
  { rewrite cell_masked_fill. unfold gt_scalar. by rewrite cell_fmap, Ht. }
  assert (Hweight : 0 ≤ t → (if gtb t 0 then half else t) = weight t).
  { intros H0. unfold weight. destruct (gtb t 0) eqn:E; [done|].
    apply Qcle_antisym; [by apply gtb_false|done]. }
  unfold add_door_window, mbind, ST_bind, get, modify. simpl. rewrite Hp. simpl.
  destruct (decide (Node.category node = Tag "door")) as [Hc|Hc].
  - eexists. split; [reflexivity|]. simpl. split_and!; try done.
    + by rewrite cell_masked_assign, cell_gt, Hh, Ht.
    + rewrite cell_masked_fill. unfold gt_scalar. by rewrite cell_fmap, Hm, Ht.
    + intros _. split; [|done]. by rewrite cell_add, Hd, Hmask.
  - eexists. split; [reflexivity|]. simpl. split_and!; try done.
    + by rewrite cell_masked_assign, cell_gt, Hh, Ht.
    + rewrite cell_masked_fill. unfold gt_scalar. by rewrite cell_fmap, Hm, Ht.
    + intros _. split; [|done]. by rewrite cell_add, Hw, Hmask.
Qed.

Lemma add_door_window_cell_witness :
  ∃ s',
    add_door_window arch empty_room = (Ok tt, s') ∧
    cell (wall_mask s') 0 0 = Some (Q2Qc 1) ∧
    cell (window_map s') 0 0 = Some (0 + half) ∧
    cell (door_map s') 0 0 = Some 0.
Proof.
  destruct (add_door_window_cell arch empty_room
              [[q 2; 0; 0]; [0; 0; 0]; [0; 0; 0]] 0 0 (q 2) 0 0 0 0)
    as (s' & Hrun & _ & Hwall & _ & Hwin & _).
  - vm_compute. reflexivity.
  - reflexivity.
  - reflexivity.
  - reflexivity.
  - reflexivity.
  - reflexivity.
  - exists s'. split; [exact Hrun|]. split; [exact Hwall|].
    apply Hwin. discriminate.
Defined.

(** ** The category index *)

Lemma index_of_categories_snoc (cats : list string) (c : string) :
  index_of_categories (cats ++ [c]) =
    <[c := Z.of_nat (length cats)]> (index_of_categories cats).
Proof.
  unfold index_of_categories. rewrite imap_app, foldl_app. simpl.
  by rewrite Nat.add_0_r.
Qed.

(** X18. The index of a category is its position in the list.
    [cat_to_index] maps a name to [k] exactly when [categories[k]] is that
    name and no later entry is (of two equal names the later position is
    kept); a name that is not in the list has no entry. *)
Theorem index_of_categories_lookup (cats : list string) (c : string) :
  (∀ i, index_of_categories cats !! c = Some i ↔
        ∃ k, i = Z.of_nat k ∧ cats !! k = Some c ∧
             ∀ k', (k < k')%nat → cats !! k' ≠ Some c) ∧
  (index_of_categories cats !! c = None ↔ c ∉ cats) ∧
  (NoDup cats → ∀ k, cats !! k = Some c →
                     index_of_categories cats !! c = Some (Z.of_nat k)).
Proof.
  assert (Hmain : ∀ l i, index_of_categories l !! c = Some i ↔
            ∃ k, i = Z.of_nat k ∧ l !! k = Some c ∧
                 ∀ k', (k < k')%nat → l !! k' ≠ Some c).
  { intros l. induction l as [|c' l IH] using rev_ind; intros i.
    - split; [done|]. by intros (k & _ & H & _).
    - rewrite index_of_categories_snoc.
      destruct (decide (c' = c)) as [->|Hne].
      + rewrite lookup_insert_eq. split.
        * intros [= <-]. exists (length l). split_and!; [done| |].
          -- by rewrite lookup_app_r, Nat.sub_diag by lia.
          -- intros k' Hk'. rewrite lookup_ge_None_2; [done|].
             rewrite length_app. simpl. lia.
        * intros (k & -> & Hk & Hlast). f_equal. f_equal.
          destruct (decide (k < length l)%nat) as [Hlt|Hge].
          -- exfalso. apply (Hlast (length l) Hlt).
             by rewrite lookup_app_r, Nat.sub_diag by lia.
          -- apply lookup_lt_Some in Hk. rewrite length_app in Hk. simpl in Hk. lia.
      + rewrite lookup_insert_ne by done. rewrite IH. split.
        * intros (k & -> & Hk & Hlast). exists k.
          pose proof (lookup_lt_Some _ _ _ Hk) as Hlt.
          split_and!; [done|by rewrite lookup_app_l| ].
          intros k' Hk'. destruct (decide (k' < length l)%nat).
          -- rewrite lookup_app_l by done. by apply Hlast.
          -- rewrite lookup_app_r by lia.
             destruct (k' - length l)%nat; simpl; [congruence|done].
        * intros (k & -> & Hk & Hlast). exists k.
          assert (Hlt : (k < length l)%nat).
          { destruct (decide (k < length l)%nat) as [|Hge]; [done|].
            rewrite lookup_app_r in Hk by lia.
            destruct (k - length l)%nat; simpl in Hk; [congruence|done]. }
          rewrite lookup_app_l in Hk by done.
          split_and!; [done|done|].
          intros k' Hk' Hc. apply (Hlast k' Hk').
          rewrite lookup_app_l; [done|]. by eapply lookup_lt_Some. }
  split_and!.
  - apply Hmain.
  - split.
    + intros Hnone Hin. apply list_elem_of_lookup in Hin as [k Hk].
      assert (Hex : ∃ k, cats !! k = Some c ∧
                         ∀ k', (k < k')%nat → cats !! k' ≠ Some c).
      { clear Hnone. revert k Hk.
        induction cats as [|c' l IH] using rev_ind; intros k Hk; [done|].
        destruct (decide (c' = c)) as [->|Hne].
        - exists (length l). split.
          + by rewrite lookup_app_r, Nat.sub_diag by lia.
          + intros k' Hk'. rewrite lookup_ge_None_2; [done|].
            rewrite length_app. simpl. lia.
        - assert (Hlt : (k < length l)%nat).
          { destruct (decide (k < length l)%nat) as [|Hge]; [done|].
            rewrite lookup_app_r in Hk by lia.
            destruct (k - length l)%nat; simpl in Hk; [congruence|done]. }
          rewrite lookup_app_l in Hk by done.
          destruct (IH k Hk) as (k0 & Hk0 & Hlast). exists k0.
          pose proof (lookup_lt_Some _ _ _ Hk0).
          split; [by rewrite lookup_app_l|].
          intros k' Hk'. destruct (decide (k' < length l)%nat).
          + rewrite lookup_app_l by done. by apply Hlast.
          + rewrite lookup_app_r by lia.
            destruct (k' - length l)%nat; simpl; [congruence|done]. }
      destruct Hex as (k0 & Hk0 & Hlast).
      assert (index_of_categories cats !! c = Some (Z.of_nat k0)) as E
        by (apply Hmain; eauto).
      congruence.
    + intros Hnin. destruct (index_of_categories cats !! c) as [i|] eqn:E; [|done].
      apply Hmain in E as (k & _ & Hk & _). exfalso. apply Hnin.
      apply list_elem_of_lookup. eauto.
  - intros Hnd k Hk. apply Hmain. exists k. split_and!; [done|done|].
    intros k' Hk' Hc. pose proof (NoDup_lookup _ _ _ _ Hnd Hk Hc). lia.
Qed.

(** ** More runs of the loader *)

Section LoaderProperties.
Context (host : Host).
Implicit Types (g : Globals host) (scene : RenderedScene host).

Lemma sort_nodes_split load_objects idx acc nodes objs dws :
  foldl (λ acc node, a ← acc; sort_node host load_objects idx a node) (Ok acc) nodes
    = Ok (objs, dws) →
  dws = acc.2 ++ (tag_node host <$> filter (is_door_window host) nodes) ∧
  (load_objects = false → objs = acc.1).
Proof.
  revert acc. induction nodes as [|node nodes IH]; intros acc.
  - simpl. intros [= ->]. simpl. by rewrite app_nil_r.
  - simpl.
    destruct (sort_node host load_objects idx acc node) as [acc'|e] eqn:E;
      [|by rewrite sort_nodes_raise].
    intros H. apply IH in H as [-> Hobjs].
    unfold sort_node in E. case_decide as Hcat.
    + injection E as <-. simpl. rewrite filter_cons_True by done. simpl.
      split; [by rewrite <- app_assoc|done].
    + rewrite filter_cons_False by done.
      destruct load_objects.
      * destruct (idx !! get_final_category host (Node.modelId node)) as [i|];
          simpl in E; [|done].
        injection E as <-. simpl. split; [done|]. done.
      * injection E as <-. done.
Qed.

(** What a load that returns has built. *)
Lemma load_scene index dir root shuffle load_objects seed rotation g scene g1 :
  RenderedScene_init host index dir root shuffle load_objects seed rotation g
    = (Ok scene, g1) →
  ∃ rec objs dws,
    pickle_load host (room_path host index dir root rotation) = Some rec ∧
    sort_nodes host load_objects (g_cat_to_index host g1) (rec_nodes rec)
      = Ok (objs, dws) ∧
    floor_grid host scene = rec_floor rec ∧
    wall_grid host scene = rec_wall rec ∧
    door_window_nodes host scene = dws ∧
    scene_size host scene = (shape (rec_floor rec)).1 ∧
    (shuffle = false → object_nodes host scene = objs) ∧
    is_Some (g_categories host g1).
Proof.
  unfold RenderedScene_init. intros H.
  apply bind_ok in H as ([] & g0 & H0 & H).
  rewrite seed_step in H0. injection H0 as <-.
  apply bind_ok in H as (ga & gb & H0 & H). apply get_ok in H0 as [-> ->].
  apply bind_ok in H as ([] & g2 & H0 & H).
  apply bind_ok in H as (rec & g3 & H1 & H). apply lift_ok in H1 as [Hrec ->].
  apply bind_ok in H as (ga & gb & H1 & H). apply get_ok in H1 as [-> ->].
  apply bind_ok in H as ([objs dws] & g3 & H1 & H). apply lift_ok in H1 as [Hsort ->].
  apply bind_ok in H as (objs' & g3 & H1 & H). apply ret_ok in H as [-> ->].
  assert (Hsome : is_Some (g_categories host g2)).
  { match type of H0 with
    | (if ?d then _ else _) _ = _ => destruct d as [Hc|Hc]
    end.
    - apply bind_ok in H0 as (lines & ga & H2 & H0). apply lift_ok in H2 as [_ ->].
      apply bind_ok in H0 as (cats & ga & H2 & H0). apply lift_ok in H2 as [_ ->].
      by injection H0 as <-.
    - apply ret_ok in H0 as [_ ->].
      destruct (g_categories host (seeded_globals host seed g)) eqn:E; [done|].
      exfalso. apply Hc. by left. }
  assert (Hp : pickle_load host (room_path host index dir root rotation) = Some rec).
  { unfold room_path.
    destruct (pickle_load host _) as [r|]; simpl in Hrec; [|done].
    by injection Hrec as ->. }
  exists rec, objs, dws. simpl.
  destruct shuffle.
  - apply bind_ok in H1 as (ga & gb & H2 & H1). apply get_ok in H2 as [-> ->].
    destruct (random_shuffle host objs (g_rng host g2)) as [shuffled st] eqn:Hsh.
    apply bind_ok in H1 as ([] & gb & H2 & H1). injection H2 as <-.
    apply ret_ok in H1 as [-> ->]. simpl. by split_and!.
  - apply ret_ok in H1 as [-> ->]. by split_and!.
Qed.

(** X20. Doors and windows are not shuffled.  Whatever [shuffle], [seed] and
    [load_objects] are, a load that returns holds in [door_window_nodes] the
    stored records whose category is door or window, in the stored order,
    each tagged with that category; with [load_objects = False] and no
    shuffling [object_nodes] is empty. *)
Theorem load_door_window_nodes index dir root shuffle load_objects seed rotation
    g scene g1 :
  RenderedScene_init host index dir root shuffle load_objects seed rotation g
    = (Ok scene, g1) →
  ∃ rec,
    pickle_load host (room_path host index dir root rotation) = Some rec ∧
    door_window_nodes host scene
      = (tag_node host <$> filter (is_door_window host) (rec_nodes rec)) ∧
    floor_grid host scene = rec_floor rec ∧
    wall_grid host scene = rec_wall rec ∧
    scene_size host scene = length (rec_floor rec) ∧
    (load_objects = false → shuffle = false → object_nodes host scene = []).
Proof.
  intros H.
  apply load_scene in H
    as (rec & objs & dws & Hp & Hsort & Hf & Hw & Hdw & Hsz & Hobj & _).
  exists rec. apply sort_nodes_split in Hsort as [-> Hno].
  split_and!; try done.
  intros Hlo Hsh. rewrite (Hobj Hsh). by apply Hno.
Qed.
Lemma cache_invalid dir seed g :
  ¬ cache_valid host dir g →
  (g_categories host (seeded_globals host seed g) = None) ∨
  (g_current_data_dir host (seeded_globals host seed g) ≠ Some dir).
Proof.
  intros Hn. destruct (seeded_globals_cache host seed g) as (Ec & _ & Ed).
  rewrite Ec, Ed. destruct (g_categories host g) as [cats|] eqn:E; [|by left].
  right. intros Hd. apply Hn. split; [by rewrite E|done].
Qed.

(** X19. Missing files.  When the category cache is not filled for the
    directory and the frequency file is absent, the load raises
    [FileNotFoundError]; the cache is untouched, but the generator has
    already been seeded.  When the frequency file is read and the room file
    is absent, the load raises [FileNotFoundError] after the cache has been
    switched to the new directory. *)
Theorem load_missing_files index dir root shuffle load_objects seed rotation g :
  (¬ cache_valid host dir g) →
  (readlines host (frequency_path host dir root) = None →
   RenderedScene_init host index dir root shuffle load_objects seed rotation g
     = (Raise FileNotFoundError, seeded_globals host seed g)) ∧
  (∀ lines cats,
     readlines host (frequency_path host dir root) = Some lines →
     mapM first_token lines = Ok cats →
     pickle_load host (room_path host index dir root rotation) = None →
     RenderedScene_init host index dir root shuffle load_objects seed rotation g
       = (Raise FileNotFoundError,
          set_categories host
            (filter (λ cat, cat ∉ ["window"; "door"]) cats)
            (index_of_categories (filter (λ cat, cat ∉ ["window"; "door"]) cats))
            dir (seeded_globals host seed g))).
Proof.
  intros Hn. pose proof (cache_invalid dir seed g Hn) as Hc. split.
  - intros Hread. unfold RenderedScene_init, frequency_path in *.
    unfold mbind at 1. unfold ST_bind at 1. rewrite seed_step.
    unfold mbind at 1. unfold ST_bind at 1. unfold get at 1.
    unfold mbind at 1. unfold ST_bind at 1.
    rewrite decide_True by done.
    unfold mbind at 1. unfold ST_bind at 1. by rewrite Hread.
  - intros lines cats Hread Hcats Hpickle.
    unfold RenderedScene_init, frequency_path, room_path in *.
    unfold mbind at 1. unfold ST_bind at 1. rewrite seed_step.
    unfold mbind at 1. unfold ST_bind at 1. unfold get at 1.
    unfold mbind at 1. unfold ST_bind at 1.
    rewrite decide_True by done.
    unfold mbind at 1. unfold ST_bind at 1. rewrite Hread. simpl.
    unfold mbind at 1. unfold ST_bind at 1. rewrite Hcats. simpl.
    unfold mbind at 1. unfold ST_bind at 1. by rewrite Hpickle.
Qed.

(** X21. Without the furniture no category is looked up.  On a filled cache,
    a load with [load_objects = False] and no shuffling returns whenever the
    room file is there, whatever the categories of the stored records are (no
    [KeyError]); its [object_nodes] is empty and its [door_window_nodes] are
    the stored doors and windows.  With [load_objects = True] a record whose
    category is neither door nor window nor in the index makes the load raise
    [KeyError]. *)
Theorem load_without_objects index dir root seed rotation g rec :
  cache_valid host dir g →
  pickle_load host (room_path host index dir root rotation) = Some rec →
  (∃ scene g1,
     RenderedScene_init host index dir root false false seed rotation g
       = (Ok scene, g1) ∧
     object_nodes host scene = [] ∧
     door_window_nodes host scene
       = (tag_node host <$> filter (is_door_window host) (rec_nodes rec))) ∧
  (∀ shuffle,
     Exists (λ node, ¬ is_door_window host node ∧
                     g_cat_to_index host g
                       !! get_final_category host (Node.modelId node) = None)
            (rec_nodes rec) →
     (RenderedScene_init host index dir root shuffle true seed rotation g).1
       = Raise KeyError).
Proof.
  intros Hvalid Hrec.
  assert (Hsort : ∀ nodes acc,
            foldl (λ acc node, a ← acc; sort_node host false
                                          (g_cat_to_index host g) a node)
                  (Ok acc) nodes
            = Ok (acc.1, acc.2 ++ (tag_node host <$> filter (is_door_window host) nodes))).
  { induction nodes as [|node nodes IH]; intros [a1 a2]; simpl.
    - by rewrite app_nil_r.
    - unfold sort_node at 2. case_decide as Hcat.
      + rewrite IH. simpl. rewrite filter_cons_True by done. simpl.
        by rewrite <- app_assoc.
      + rewrite IH. simpl. by rewrite filter_cons_False by done. }
  split.
  - destruct (load_run host index dir root false false seed rotation g rec []
                (tag_node host <$> filter (is_door_window host) (rec_nodes rec))
                Hvalid Hrec) as (scene & g1 & Hrun & Hobj).
    { unfold sort_nodes. by rewrite Hsort. }
    exists scene, g1. split_and!; [done|done|].
    apply load_scene in Hrun as (rec' & objs & dws & Hp & Hs & _ & _ & Hdw & _).
    rewrite Hrec in Hp. injection Hp as <-.
    apply sort_nodes_split in Hs as [-> _]. by rewrite Hdw.
  - intros shuffle Hex.
    assert (Hfail : ∀ nodes acc,
              Exists (λ node, ¬ is_door_window host node ∧
                              g_cat_to_index host g
                                !! get_final_category host (Node.modelId node) = None)
                     nodes →
              (∃ e, foldl (λ acc node, a ← acc; sort_node host true
                                                  (g_cat_to_index host g) a node)
                          (Ok acc) nodes = Raise e) ∧
              ∀ r, foldl (λ acc node, a ← acc; sort_node host true
                                                 (g_cat_to_index host g) a node)
                         (Ok acc) nodes = r → r = Raise KeyError).
    { induction nodes as [|node nodes IH]; intros acc Hx; [by inversion Hx|].
      simpl. unfold sort_node at 2 4.
      apply Exists_cons in Hx as [[Hnd Hnone]|Hx].
      - rewrite decide_False by done. rewrite Hnone. simpl.
        rewrite sort_nodes_raise. split; [eauto|]. by intros r <-.
      - case_decide.
        + by apply IH.
        + destruct (g_cat_to_index host g !! _) as [i|]; simpl.
          * by apply IH.
          * rewrite sort_nodes_raise. split; [eauto|]. by intros r <-. }
    destruct (Hfail (rec_nodes rec) ([], []) Hex) as [_ Hkey].
    destruct (seeded_globals_cache host seed g) as (Ec & Ei & Ed).
    destruct Hvalid as [Hsome Hdir].
    unfold RenderedScene_init, room_path in *.
    unfold mbind at 1. unfold ST_bind at 1. rewrite seed_step.
    unfold mbind at 1. unfold ST_bind at 1. unfold get at 1.
    unfold mbind at 1. unfold ST_bind at 1.
    rewrite decide_False.
    2:{ rewrite Ec, Ed. intros [Hc|Hc]; [|done]. rewrite Hc in Hsome. by destruct Hsome. }
    simpl. unfold mbind at 1. unfold ST_bind at 1. rewrite Hrec. simpl.
    unfold mbind at 1. unfold ST_bind at 1. unfold get at 1.
    unfold mbind at 1. unfold ST_bind at 1. rewrite Ei.
    unfold sort_nodes. rewrite (Hkey _ eq_refl). done.
Qed.

(** X24. The category cache after a load that returns.  The cache is filled
    for the directory of the load.  If it already was, it is the same cache
    (the frequency file is not read again); if it was not, the categories are
    the first tokens of the lines of the frequency file without ["window"]
    and ["door"], in file order, and the index is built from them. *)
Theorem load_category_cache index dir root shuffle load_objects seed rotation
    g scene g1 :
  RenderedScene_init host index dir root shuffle load_objects seed rotation g
    = (Ok scene, g1) →
  cache_valid host dir g1 ∧
  (cache_valid host dir g →
     g_categories host g1 = g_categories host g ∧
     g_cat_to_index host g1 = g_cat_to_index host g) ∧
  (¬ cache_valid host dir g →
     ∃ lines cats,
       readlines host (frequency_path host dir root) = Some lines ∧
       mapM first_token lines = Ok cats ∧
       g_categories host g1
         = Some (filter (λ cat, cat ∉ ["window"; "door"]) cats) ∧
       g_cat_to_index host g1
         = index_of_categories (filter (λ cat, cat ∉ ["window"; "door"]) cats) ∧
       ("door" ∉ filter (λ cat, cat ∉ ["window"; "door"]) cats) ∧
       ("window" ∉ filter (λ cat, cat ∉ ["window"; "door"]) cats)).
Proof.
  unfold RenderedScene_init. intros H.
  apply bind_ok in H as ([] & g0 & H0 & H).
  rewrite seed_step in H0. injection H0 as <-.
  apply bind_ok in H as (ga & gb & H0 & H). apply get_ok in H0 as [-> ->].
  apply bind_ok in H as ([] & g2 & H0 & H).
  apply bind_ok in H as (rec & g3 & H1 & H). apply lift_ok in H1 as [Hrec ->].
  apply bind_ok in H as (ga & gb & H1 & H). apply get_ok in H1 as [-> ->].
  apply bind_ok in H as ([objs dws] & g3 & H1 & H). apply lift_ok in H1 as [Hsort ->].
  apply bind_ok in H as (objs' & g3 & H1 & H). apply ret_ok in H as [-> ->].
  assert (Hg1 : g_categories host g3 = g_categories host g2 ∧
                g_cat_to_index host g3 = g_cat_to_index host g2 ∧
                g_current_data_dir host g3 = g_current_data_dir host g2).
  { destruct shuffle.
    - apply bind_ok in H1 as (ga & gb & H2 & H1). apply get_ok in H2 as [-> ->].
      destruct (random_shuffle host objs (g_rng host g2)) as [shuffled st].
      apply bind_ok in H1 as ([] & gb & H2 & H1). injection H2 as <-.
      by apply ret_ok in H1 as [-> ->].
    - by apply ret_ok in H1 as [-> ->]. }
  destruct Hg1 as (E1 & E2 & E3).
  destruct (seeded_globals_cache host seed g) as (Ec & Ei & Ed).
  unfold cache_valid. rewrite E1, E2, E3.
  match type of H0 with
  | (if ?d then _ else _) _ = _ => destruct d as [Hc|Hc]
  end.
  - apply bind_ok in H0 as (lines & ga & H2 & H0). apply lift_ok in H2 as [Hlines ->].
    apply bind_ok in H0 as (cats & ga & H2 & H0). apply lift_ok in H2 as [Hcats ->].
    injection H0 as <-. simpl. split; [done|]. split.
    + intros [Hsome Hdir]. rewrite Ec, Ed in Hc. destruct Hc as [Hc|Hc]; [|done].
      rewrite Hc in Hsome. by destruct Hsome.
    + intros _. exists lines, cats. unfold frequency_path.
      split_and!; try done.
      * destruct (readlines host _) as [l|]; simpl in Hlines; [|done].
        by injection Hlines as ->.
      * intros Hin. apply list_elem_of_filter in Hin as [Hn _]. apply Hn.
        apply list_elem_of_In. simpl. auto.
      * intros Hin. apply list_elem_of_filter in Hin as [Hn _]. apply Hn.
        apply list_elem_of_In. simpl. auto.
  - apply ret_ok in H0 as [_ ->]. rewrite Ec, Ei, Ed.
    assert (Hv : is_Some (g_categories host g) ∧ g_current_data_dir host g = Some dir).
    { rewrite Ec, Ed in Hc. split.
      - destruct (g_categories host g); [done|]. exfalso. apply Hc. by left.
      - destruct (decide (g_current_data_dir host g = Some dir)); [done|].
        exfalso. apply Hc. by right. }
    split; [exact Hv|]. split; [done|]. intros Hn. by destruct Hn.
Qed.
(** X25. [create_composite] builds on the categories that are cached when it
    is called.  It never changes the globals; without a cache it raises
    [TypeError]; a composite that it returns has the cached category list,
    the side of the scene's floor, all-zero category and orientation layers,
    and is well formed when floor and wall are square grids of one side.
    After a load that returned, the cache is filled, so [create_composite] on
    the globals that the load left does not raise [TypeError]. *)
Theorem create_composite_spec scene g :
  (create_composite host scene g).2 = g ∧
  (g_categories host g = None →
   create_composite host scene g = (Raise TypeError, g)) ∧
  (∀ composite g',
     create_composite host scene g = (Ok composite, g') →
     g_categories host g = Some (categories composite) ∧
     ∀ n, grid_wf n (floor_grid host scene) → grid_wf n (wall_grid host scene) →
          wf composite ∧ size composite = n ∧
          cat_map composite = zeros3 (length (categories composite)) n n ∧
          sin_map composite = zeros n n ∧ cos_map composite = zeros n n) ∧
  (∀ index dir root shuffle load_objects seed rotation g0,
     RenderedScene_init host index dir root shuffle load_objects seed rotation g0
       = (Ok scene, g) →
     (create_composite host scene g).1 ≠ Raise TypeError).
Proof.
  assert (Hrun : ∀ cats, g_categories host g = Some cats →
            create_composite host scene g =
              (RenderedComposite_init cats (floor_grid host scene)
                 (wall_grid host scene) (door_window_nodes host scene), g) ∧
            (RenderedComposite_init cats (floor_grid host scene)
               (wall_grid host scene) (door_window_nodes host scene)
             ≠ Raise TypeError)).
  { intros cats Hc. unfold create_composite, mbind, ST_bind, get. rewrite Hc.
    destruct (RenderedComposite_init _ _ _ _) as [c|e] eqn:E; [done|].
    split; [done|]. intros [= ->].
    unfold RenderedComposite_init in E.
    destruct (for_each _ _ _) as [[[]|e'] s'] eqn:Hf; [done|].
    injection E as ->.
    assert (He : ∀ nodes a, (for_each add_door_window nodes a).1 ≠ Raise TypeError).
    { induction nodes as [|x nodes IH]; intros a; [done|].
      simpl. unfold mbind, ST_bind.
      destruct (add_door_window_unfold x a) as [Hx _].
      destruct (paste _ _ _) as [t|e0] eqn:Hp.
      - rewrite Hx. apply IH.
      - rewrite Hx. simpl. apply paste_raises_runtime in Hp as ->. done. }
    apply (He (door_window_nodes host scene)
              (seeded cats (floor_grid host scene) (wall_grid host scene))).
    by rewrite Hf. }
  assert (Hnone : g_categories host g = None →
            create_composite host scene g = (Raise TypeError, g)).
  { intros Hc. unfold create_composite, mbind, ST_bind, get. by rewrite Hc. }
  split_and!.
  - destruct (g_categories host g) as [cats|] eqn:Hc.
    + by rewrite (proj1 (Hrun cats eq_refl)).
    + by rewrite Hnone.
  - done.
  - intros composite g' H.
    destruct (g_categories host g) as [cats|] eqn:Hc; [|by rewrite Hnone in H].
    rewrite (proj1 (Hrun cats eq_refl)) in H. injection H as H <-.
    assert (Hcats : categories composite = cats).
    { unfold RenderedComposite_init in H.
      destruct (for_each_step add_door_window (λ _, True)
                  (λ a b, categories b = categories a))
        with (xs := door_window_nodes host scene)
             (s := seeded cats (floor_grid host scene) (wall_grid host scene))
        as [_ Hk]; [done|congruence| |done|].
      - intros x a _. split; [done|].
        unfold add_door_window, mbind, ST_bind, get, modify. simpl.
        destruct (paste _ _ _); [|done]. simpl. by case_decide.
      - destruct (for_each _ _ _) as [[[]|e] s']; [|done].
        injection H as <-. exact Hk. }
    split; [by rewrite Hcats|]. intros n Hf Hw.
    destruct (RenderedComposite_init_frame cats _ _ _ n composite Hf Hw H)
      as (Hsz & _ & _ & Hcat & Hsin & Hcos & _).
    destruct (RenderedComposite_init_wf cats _ _ _ n composite Hf Hw H) as [Hwf _].
    rewrite Hcats. by split_and!.
  - intros index dir root shuffle load_objects seed rotation g0 Hload.
    apply load_scene in Hload as (_ & _ & _ & _ & _ & _ & _ & _ & _ & _ & [cats Hc]).
    rewrite (proj1 (Hrun cats Hc)). simpl. apply (Hrun cats Hc).
Qed.
End LoaderProperties.

Lemma load_door_window_nodes_witness :
  ∃ scene g1,
    RenderedScene_init toy_host 7 "bedroom" None true true (Some 3%Z) 0 fresh_globals
      = (Ok scene, g1) ∧
    Node.modelId <$> door_window_nodes toy_host scene = ["door"].
Proof.
  destruct (RenderedScene_init toy_host 7 "bedroom" None true true (Some 3%Z) 0
              fresh_globals) as [[scene|e] g1] eqn:Hrun;
    [|vm_compute in Hrun; discriminate].
  exists scene, g1. split; [done|].
  destruct (load_door_window_nodes toy_host _ _ _ _ _ _ _ _ _ _ Hrun)
    as (rec & Hp & -> & _).
  vm_compute in Hp. injection Hp as <-. reflexivity.
Defined.

Lemma load_missing_files_witness :
  RenderedScene_init toy_host 7 "kitchen" None true true (Some 3%Z) 0 fresh_globals
    = (Raise FileNotFoundError, seeded_globals toy_host (Some 3%Z) fresh_globals).
Proof.
  apply (proj1 (load_missing_files toy_host 7 "kitchen" None true true (Some 3%Z) 0
                  fresh_globals (λ H, is_Some_None (proj1 H)))).
  reflexivity.
Defined.

(** The globals after room 7 of the bedroom directory has been loaded once. *)
Lemma load_without_objects_witness :
  ∃ scene g1,
    RenderedScene_init toy_host 7 "bedroom" None false false None 0
      (load_room7 (Some 3%Z) fresh_globals).2 = (Ok scene, g1) ∧
    object_nodes toy_host scene = [].
Proof.
  destruct (load_without_objects toy_host 7 "bedroom" None None 0
              (load_room7 (Some 3%Z) fresh_globals).2
              (mkRoomRecord (zeros 3 3) (zeros 3 3)
                 [raw "chair"; raw "door"; raw "table"] tt))
    as [(scene & g1 & Hrun & Hobj & _) _].
  - split; [vm_compute; eauto|vm_compute; reflexivity].
  - vm_compute. reflexivity.
  - exists scene, g1. split; [exact Hrun|exact Hobj].
Defined.

Lemma load_category_cache_witness :
  ∃ scene g1,
    load_room7 (Some 3%Z) fresh_globals = (Ok scene, g1) ∧
    cache_valid toy_host "bedroom" g1.
Proof.
  destruct (load_room7 (Some 3%Z) fresh_globals) as [[scene|e] g1] eqn:Hrun;
    [|vm_compute in Hrun; discriminate].
  exists scene, g1. split; [done|].
  exact (proj1 (load_category_cache toy_host 7 "bedroom" None true true
                  (Some 3%Z) 0 fresh_globals scene g1 Hrun)).
Defined.

Lemma load_seeded_twice_witness :
  ∃ scene1 g1 scene2 g2,
    load_room7 (Some 5%Z) fresh_globals = (Ok scene1, g1) ∧
    load_room7 (Some 5%Z) g1 = (Ok scene2, g2) ∧
    object_nodes toy_host scene2 = object_nodes toy_host scene1.
Proof.
  destruct (load_room7 (Some 5%Z) fresh_globals) as [[scene1|e] g1] eqn:Hrun;
    [|vm_compute in Hrun; discriminate].
  destruct (load_seeded_twice toy_host 7 "bedroom" None true true 5 0 fresh_globals
              scene1 g1) as (scene2 & g2 & Hrun2 & Hsame).
  - discriminate.
  - exact Hrun.
  - exists scene1, g1, scene2, g2. split; [reflexivity|]. split; [exact Hrun2|exact Hsame].
Defined.

Lemma load_unshuffled_witness :
  ∃ scene g1,
    RenderedScene_init toy_host 7 "bedroom" None false true None 0 fresh_globals
      = (Ok scene, g1) ∧
    Node.modelId <$> object_nodes toy_host scene = ["chair"; "table"].
Proof.
  destruct (RenderedScene_init toy_host 7 "bedroom" None false true None 0
              fresh_globals) as [[scene|e] g1] eqn:Hrun;
    [|vm_compute in Hrun; discriminate].
  exists scene, g1. split; [done|].
  destruct (load_unshuffled toy_host 7 "bedroom" None None 0 fresh_globals scene g1
              Hrun) as (rec & Hp & HF).
  assert (Hid : ∀ l k,
            Forall2 (λ node obj : Node.t, ∃ i, obj = set_category (Idx i) node) l k →
            Node.modelId <$> k = Node.modelId <$> l).
  { induction 1 as [|node obj l k [i ->] _ IH]; [done|].
    rewrite !fmap_cons. by f_equal. }
  rewrite (Hid _ _ HF).
  vm_compute in Hp. injection Hp as <-. reflexivity.
Defined.

(** ** [utils.zeropad] *)

Lemma append_cons (c : ascii) (a b : string) :
  String c a +:+ b = String c (a +:+ b).
Proof. reflexivity. Qed.

Lemma string_length_app (a b : string) :
  String.length (a +:+ b) = (String.length a + String.length b)%nat.
Proof.
  induction a as [|c a IH]; [done|]. rewrite append_cons. simpl. by rewrite IH.
Qed.

Lemma zeros_shift (k : nat) (s : string) :
  string_of_list_ascii (replicate k "0"%char) +:+ String "0" s =
  String "0" (string_of_list_ascii (replicate k "0"%char) +:+ s).
Proof.
  induction k as [|k IH]; [done|]. simpl. rewrite !append_cons. by rewrite IH.
Qed.

Lemma zeropad_loop_spec (n fuel : nat) (sn : string) :
  (n - String.length sn ≤ fuel)%nat →
  zeropad_loop fuel sn n =
    string_of_list_ascii (replicate (n - String.length sn) "0"%char) +:+ sn.
Proof.
  revert sn. induction fuel as [|fuel IH]; intros sn Hf.
  - simpl. replace (n - String.length sn)%nat with 0%nat by lia. done.
  - simpl. destruct (Nat.ltb_spec (String.length sn) n) as [Hlt|Hge].
    + change ("0" +:+ sn) with (String "0" sn).
      rewrite IH by (simpl; lia). simpl.
      replace (n - String.length sn)%nat with (S (n - S (String.length sn))) by lia.
      simpl. rewrite append_cons. apply zeros_shift.
    + replace (n - String.length sn)%nat with 0%nat by lia. done.
Qed.

(** X26. [zeropad] puts zeros in front of the decimal form of the number
    until the string is [n] long: the result is [n - len] zeros followed by
    [str(num)], its length is the larger of [n] and [len], a number that is
    already [n] long or longer comes back unpadded, and the zeros go in front
    of the sign of a negative number.  The loop is done after [n - len]
    rounds: more rounds change nothing. *)
Theorem zeropad_spec (num : Z) (n : nat) :
  zeropad num n =
    string_of_list_ascii (replicate (n - String.length (pretty num)) "0"%char)
    +:+ pretty num ∧
  String.length (zeropad num n) = Nat.max n (String.length (pretty num)) ∧
  ((n ≤ String.length (pretty num))%nat → zeropad num n = pretty num) ∧
  (∀ fuel, (n - String.length (pretty num) ≤ fuel)%nat →
           zeropad_loop fuel (pretty num) n = zeropad num n) ∧
  zeropad (-5) 4 = "00-5".
Proof.
  assert (E : zeropad num n =
    string_of_list_ascii (replicate (n - String.length (pretty num)) "0"%char)
    +:+ pretty num) by (apply zeropad_loop_spec; lia).
  split_and!.
  - done.
  - rewrite E, string_length_app.
    assert (L : ∀ k, String.length (string_of_list_ascii (replicate k "0"%char)) = k).
    { induction k as [|k IH]; simpl; [done|]. f_equal. exact IH. }
    rewrite L. lia.
  - intros Hn. rewrite E. by replace (n - String.length (pretty num))%nat with 0%nat by lia.
  - intros fuel Hf. rewrite E. by apply zeropad_loop_spec.
  - reflexivity.
Qed.

(** ** The algebra of additions *)

(** The value of a height cell after a patch value [t] met the value [old]. *)
Lemma pick_comm (a b h : Qc) :
  (if gtb b (if gtb a h then a else h) then b else (if gtb a h then a else h)) =
  (if gtb a (if gtb b h then b else h) then a else (if gtb b h then b else h)).
Proof.
  destruct (gtb a h) eqn:E1; destruct (gtb b h) eqn:E2;
    destruct (gtb b a) eqn:E3; destruct (gtb a b) eqn:E4;
    rewrite ?E1, ?E2, ?E3, ?E4; try done;
    repeat match goal with
           | H : gtb _ _ = true |- _ => apply gtb_true in H
           | H : gtb _ _ = false |- _ => apply gtb_false in H
           end;
    unfold Qclt, Qcle in *;
    first [ apply Qc_is_canon; lra | exfalso; lra ].
Qed.

Lemma pick_idem (t h : Qc) :
  gtb t (if gtb t h then t else h) = false.
Proof.
  apply gtb_false. destruct (gtb t h) eqn:E; [apply Qcle_refl|by apply gtb_false].
Qed.

(** Two additions in the two orders. *)
Lemma place_swap (s : RenderedComposite) (pa pb : Placement) :
  wf s →
  placement_ok (size s) (length (cat_map s)) pa →
  placement_ok (size s) (length (cat_map s)) pb →
  ∃ sab sba,
    for_each place [pa; pb] s = (Ok tt, sab) ∧
    for_each place [pb; pa] s = (Ok tt, sba) ∧
    height_map sab = height_map sba ∧
    cat_map sab = cat_map sba.
Proof.
  intros Hwf [Hsa [ka Hka]] [Hsb [kb Hkb]].
  pose proof (layer_index_lt _ _ _ Hka) as Hlta.
  pose proof (layer_index_lt _ _ _ Hkb) as Hltb.
  destruct (lookup_lt_is_Some_2 (cat_map s) ka Hlta) as [rowa Hrowa].
  destruct (lookup_lt_is_Some_2 (cat_map s) kb Hltb) as [rowb Hrowb].
  pose proof (wf_height_map _ Hwf) as Hh.
  set (ma := occupancy (p_to_add pa)). set (mb := occupancy (p_to_add pb)).
  (* the two first steps *)
  pose proof (add_height_map_ok (p_to_add pa) (p_category pa) (p_sin pa) (p_cos pa)
                s ka rowa Hka Hrowa) as Ha.
  pose proof (add_height_map_ok (p_to_add pb) (p_category pb) (p_sin pb) (p_cos pb)
                s kb rowb Hkb Hrowb) as Hb.
  (* the rows that the second steps find *)
  assert (Hrowb' : ∃ rowb', <[ka := add rowa ma]> (cat_map s) !! kb = Some rowb' ∧
                            rowb' = if decide (ka = kb) then add rowa ma else rowb).
  { destruct (decide (ka = kb)) as [->|Hne].
    - rewrite list_lookup_insert_eq by done. eauto.
    - rewrite list_lookup_insert_ne by done. eauto. }
  assert (Hrowa' : ∃ rowa', <[kb := add rowb mb]> (cat_map s) !! ka = Some rowa' ∧
                            rowa' = if decide (kb = ka) then add rowb mb else rowa).
  { destruct (decide (kb = ka)) as [->|Hne].
    - rewrite list_lookup_insert_eq by done. eauto.
    - rewrite list_lookup_insert_ne by done. eauto. }
  destruct Hrowb' as (rowb' & Hlb & Erb). destruct Hrowa' as (rowa' & Hla & Era).
  eexists _, _. split_and!.
  - simpl. unfold mbind, ST_bind, place. rewrite Ha.
    erewrite add_height_map_ok; [reflexivity| |exact Hlb].
    simpl. by rewrite length_insert.
  - simpl. unfold mbind, ST_bind, place. rewrite Hb.
    erewrite add_height_map_ok; [reflexivity| |exact Hla].
    simpl. by rewrite length_insert.
  - simpl.
    assert (Hga : has_shape (size s) (size s) (gt (p_to_add pa) (height_map s)))
      by by apply has_shape_gt.
    assert (Hgb : has_shape (size s) (size s) (gt (p_to_add pb) (height_map s)))
      by by apply has_shape_gt.
    assert (H1 : grid_wf (size s)
                   (masked_assign (height_map s) (gt (p_to_add pa) (height_map s))
                      (p_to_add pa))) by by apply has_shape_masked_assign.
    assert (H2 : grid_wf (size s)
                   (masked_assign (height_map s) (gt (p_to_add pb) (height_map s))
                      (p_to_add pb))) by by apply has_shape_masked_assign.
    apply (grid_ext (size s) (size s)).
    + apply has_shape_masked_assign; [done| |done]. by apply has_shape_gt.
    + apply has_shape_masked_assign; [done| |done]. by apply has_shape_gt.
    + intros i j Hi Hj.
      destruct (has_shape_cell _ _ _ i j Hh Hi Hj) as [h Hc].
      destruct (has_shape_cell _ _ _ i j Hsa Hi Hj) as [a Hca].
      destruct (has_shape_cell _ _ _ i j Hsb Hi Hj) as [b Hcb].
      rewrite !cell_masked_assign, !cell_gt, !cell_masked_assign, !cell_gt.
      rewrite Hc, Hca, Hcb. simpl. f_equal. apply pick_comm.
  - simpl. subst rowb' rowa'.
    destruct (decide (ka = kb)) as [->|Hne].
    + rewrite decide_True by done. rewrite !list_insert_insert_eq.
      rewrite Hrowa in Hrowb. injection Hrowb as ->.
      f_equal. rewrite !add_assoc. f_equal. apply add_comm.
    + rewrite decide_False by done. by apply list_insert_insert_ne.
Qed.

(** One addition on two composites with the same height map and category
    layers. *)
Lemma place_same_layers (p : Placement) (a b : RenderedComposite) :
  wf a → wf b →
  size a = size b → height_map a = height_map b → cat_map a = cat_map b →
  placement_ok (size a) (length (cat_map a)) p →
  ∃ a' b',
    place p a = (Ok tt, a') ∧ place p b = (Ok tt, b') ∧
    wf a' ∧ wf b' ∧
    size a' = size a ∧ length (cat_map a') = length (cat_map a) ∧
    size a' = size b' ∧ height_map a' = height_map b' ∧ cat_map a' = cat_map b'.
Proof.
  intros Hwa Hwb Hsz Hh Hc [Hshape [k Hk]].
  destruct (lookup_lt_is_Some_2 (cat_map a) k (layer_index_lt _ _ _ Hk)) as [row Hrow].
  pose proof (add_height_map_wf (p_to_add p) (p_category p) (p_sin p) (p_cos p)
                a Hwa Hshape) as Hwa'.
  assert (Hshape_b : grid_wf (size b) (p_to_add p)) by by rewrite <- Hsz.
  pose proof (add_height_map_wf (p_to_add p) (p_category p) (p_sin p) (p_cos p)
                b Hwb Hshape_b) as Hwb'.
  pose proof (add_height_map_ok (p_to_add p) (p_category p) (p_sin p) (p_cos p)
                a k row Hk Hrow) as Ha.
  assert (Hkb : layer_index (length (cat_map b)) (p_category p) = Ok k)
    by by rewrite <- Hc.
  assert (Hrowb : cat_map b !! k = Some row) by by rewrite <- Hc.
  pose proof (add_height_map_ok (p_to_add p) (p_category p) (p_sin p) (p_cos p)
                b k row Hkb Hrowb) as Hb.
  unfold place. rewrite Ha, Hb in *. simpl in *.
  eexists _, _. split_and!; try done; simpl.
  - by rewrite length_insert.
  - by rewrite Hh.
  - by rewrite Hc.
Qed.

Lemma for_each_same_layers (ps : list Placement) (n c : nat) :
  ∀ a b,
    wf a → wf b →
    size a = size b → height_map a = height_map b → cat_map a = cat_map b →
    size a = n → length (cat_map a) = c →
    Forall (placement_ok n c) ps →
    ∃ a' b',
      for_each place ps a = (Ok tt, a') ∧ for_each place ps b = (Ok tt, b') ∧
      wf a' ∧ wf b' ∧ size a' = n ∧ length (cat_map a') = c ∧
      size a' = size b' ∧ height_map a' = height_map b' ∧ cat_map a' = cat_map b'.
Proof.
  induction ps as [|p ps IH]; intros a b Hwa Hwb Hsz Hh Hc Hn Hl Hok.
  - exists a, b. by split_and!.
  - inversion_clear Hok as [|?? Hp Hps]. subst n c.
    destruct (place_same_layers p a b Hwa Hwb Hsz Hh Hc Hp)
      as (a1 & b1 & Ha & Hb & Hwa1 & Hwb1 & Hsa & Hla & Hs1 & Hh1 & Hc1).
    destruct (IH a1 b1 Hwa1 Hwb1 Hs1 Hh1 Hc1 Hsa Hla Hps)
      as (a' & b' & Ha' & Hb' & ? & ? & ? & ? & ? & ? & ?).
    exists a', b'. simpl. unfold mbind, ST_bind. rewrite Ha, Hb. by split_and!.
Qed.

Lemma for_each_permuted (ps ps' : list Placement) :
  ps ≡ₚ ps' →
  ∀ n c a b,
    wf a → wf b →
    size a = size b → height_map a = height_map b → cat_map a = cat_map b →
    size a = n → length (cat_map a) = c →
    Forall (placement_ok n c) ps →
    ∃ a' b',
      for_each place ps a = (Ok tt, a') ∧ for_each place ps' b = (Ok tt, b') ∧
      wf a' ∧ wf b' ∧ size a' = n ∧ length (cat_map a') = c ∧
      size a' = size b' ∧ height_map a' = height_map b' ∧ cat_map a' = cat_map b'.
Proof.
  induction 1 as [|p ps ps' Hperm IH|p1 p2 ps|ps ps' ps'' Hp1 IH1 Hp2 IH2];
    intros n c a b Hwa Hwb Hsz Hh Hc Hn Hl Hok.
  - exists a, b. by split_and!.
  - inversion_clear Hok as [|?? Hp Hps]. subst n c.
    destruct (place_same_layers p a b Hwa Hwb Hsz Hh Hc Hp)
      as (a1 & b1 & Ha & Hb & Hwa1 & Hwb1 & Hsa & Hla & Hs1 & Hh1 & Hc1).
    destruct (IH _ _ a1 b1 Hwa1 Hwb1 Hs1 Hh1 Hc1 Hsa Hla Hps)
      as (a' & b' & Ha' & Hb' & ? & ? & ? & ? & ? & ? & ?).
    exists a', b'. simpl. unfold mbind, ST_bind. rewrite Ha, Hb. by split_and!.
  - inversion_clear Hok as [|?? Hq2 Hok']. inversion_clear Hok' as [|?? Hq1 Hps].
    subst n c.
    (* from [a]: p2 then p1, and p1 then p2 *)
    destruct (place_swap a p2 p1 Hwa Hq2 Hq1)
      as (a21 & a12 & Hr21 & Hr12 & Hh_sw & Hc_sw).
    (* from [b]: p1 then p2, alongside the same two steps from [a] *)
    destruct (for_each_same_layers [p1; p2] (size a) (length (cat_map a)) a b)
      as (a12' & b12 & Hr12' & Hrb & Hwa12 & Hwb12 & Hs12 & Hl12 & Hsab & Hhab & Hcab);
      [done..|forall_list|].
    rewrite Hr12 in Hr12'. injection Hr12' as <-.
    destruct (for_each_same_layers [p2; p1] (size a) (length (cat_map a)) a a)
      as (a21' & a21'' & Hr21' & _ & Hwa21 & _ & Hs21 & Hl21 & _);
      [done..|forall_list|].
    rewrite Hr21 in Hr21'. injection Hr21' as <-.
    destruct (for_each_same_layers ps (size a) (length (cat_map a)) a21 b12)
      as (a' & b' & Ha' & Hb' & ? & ? & ? & ? & ? & ? & ?);
      [done|done|congruence|congruence|congruence|done..|].
    exists a', b'.
    change (p2 :: p1 :: ps) with ([p2; p1] ++ ps).
    change (p1 :: p2 :: ps) with ([p1; p2] ++ ps).
    rewrite !for_each_app, Hr21, Hrb. by split_and!.
  - destruct (IH1 n c a a) as (a1 & m1 & Ha1 & Hm1 & Hwa1 & Hwm1 & Hs1 & Hl1 & E1 & E2 & E3);
      [done..|].
    assert (Hok' : Forall (placement_ok n c) ps') by by rewrite <- Hp1.
    destruct (IH2 n c a b) as (m2 & b2 & Hm2 & Hb2 & Hwm2 & Hwb2 & Hs2 & Hl2 & F1 & F2 & F3);
      [done..|].
    rewrite Hm1 in Hm2. injection Hm2 as <-.
    exists a1, b2. split_and!; try done; congruence.
Qed.

(** X27. The height map and the category layers do not depend on the order of
    the additions.  On a well-formed composite, for patches of the
    composite's side and categories in range, a sequence of [add_height_map]
    calls and any reordering of it both return, with the same height map and
    the same category layers (the orientation maps may differ, where patches
    are equally high). *)
Theorem add_order_independent (s : RenderedComposite) (ps ps' : list Placement) :
  wf s →
  ps ≡ₚ ps' →
  Forall (placement_ok (size s) (length (cat_map s))) ps →
  ∃ s1 s2,
    for_each place ps s = (Ok tt, s1) ∧
    for_each place ps' s = (Ok tt, s2) ∧
    height_map s1 = height_map s2 ∧
    cat_map s1 = cat_map s2.
Proof.
  intros Hwf Hperm Hok.
  destruct (for_each_permuted ps ps' Hperm (size s) (length (cat_map s)) s s)
    as (s1 & s2 & H1 & H2 & _ & _ & _ & _ & _ & Hh & Hc); [done..|].
  by exists s1, s2.
Qed.

Lemma add_order_independent_witness :
  wf empty_room ∧
  ∃ sab sba,
    for_each place [chair_placement; table_placement] empty_room = (Ok tt, sab) ∧
    for_each place [table_placement; chair_placement] empty_room = (Ok tt, sba) ∧
    height_map sab = height_map sba.
Proof.
  assert (H : wf empty_room) by (split; vm_compute; repeat constructor).
  split; [exact H|].
  destruct (add_order_independent empty_room [chair_placement; table_placement]
              [table_placement; chair_placement] H)
    as (sab & sba & H1 & H2 & Hh & _).
  - apply perm_swap.
  - apply Forall_cons_2;
      [split; [split; vm_compute; repeat constructor|by exists 0%nat]|].
    apply Forall_cons_2;
      [split; [split; vm_compute; repeat constructor|by exists 1%nat]|].
    apply Forall_nil_2.
  - exists sab, sba. split; [exact H1|]. split; [exact H2|exact Hh].
Defined.

(** X28. Adding the same object again changes only its category layer.  After
    a successful [add_height_map] on a well-formed composite, a second call
    with the same patch, whatever its category and orientation, returns the
    height map, the sine map and the cosine map of the first call: a patch
    never exceeds heights that it set itself. *)
Theorem add_again_keeps_heights (to_add : Grid) (c c2 : Category)
    (sin cos sin2 cos2 : Qc) (s : RenderedComposite) (k k2 : nat) :
  wf s →
  grid_wf (size s) to_add →
  layer_index (length (cat_map s)) c = Ok k →
  layer_index (length (cat_map s)) c2 = Ok k2 →
  ∃ s1 s2,
    add_height_map to_add c sin cos s = (Ok tt, s1) ∧
    add_height_map to_add c2 sin2 cos2 s1 = (Ok tt, s2) ∧
    height_map s2 = height_map s1 ∧
    sin_map s2 = sin_map s1 ∧
    cos_map s2 = cos_map s1.
Proof.
  intros Hwf Hshape Hk Hk2.
  destruct (add_height_map_effect to_add c sin cos s k Hk)
    as (s1 & Hrun1 & Hsz & Hlen & Hhe & _).
  pose proof (add_height_map_wf to_add c sin cos s Hwf Hshape) as Hwf1.
  rewrite Hrun1 in Hwf1. simpl in Hwf1.
  rewrite <- Hlen in Hk2.
  destruct (lookup_lt_is_Some_2 (cat_map s1) k2 (layer_index_lt _ _ _ Hk2))
    as [row2 Hrow2].
  exists s1. eexists. split; [done|].
  split; [by apply add_height_map_ok with (row := row2)|]. simpl.
  destruct Hwf1 as [_ _ Hh1 _ _ Hs1 Hc1 _ _]. rewrite Hsz in *.
  assert (Hg : has_shape (size s) (size s) (gt to_add (height_map s1)))
    by by apply has_shape_gt.
  assert (Hcellgt : ∀ i j, (i < size s)%nat → (j < size s)%nat →
            cell (gt to_add (height_map s1)) i j = Some false).
  { intros i j Hi Hj.
    destruct (has_shape_cell _ _ _ i j (wf_height_map _ Hwf) Hi Hj) as [h Hc].
    destruct (has_shape_cell _ _ _ i j Hshape Hi Hj) as [t Ht].
    rewrite cell_gt, Ht, (Hhe i j h t Hc Ht). simpl. by rewrite pick_idem. }
  split_and!.
  - apply (grid_ext (size s) (size s)); [by apply has_shape_masked_assign|done|].
    intros i j Hi Hj. rewrite cell_masked_assign, (Hcellgt i j Hi Hj).
    destruct (has_shape_cell _ _ _ i j Hh1 Hi Hj) as [h1 ->].
    destruct (has_shape_cell _ _ _ i j Hshape Hi Hj) as [t ->]. done.
  - apply (grid_ext (size s) (size s)); [by apply has_shape_masked_fill|done|].
    intros i j Hi Hj. rewrite cell_masked_fill, (Hcellgt i j Hi Hj).
    by destruct (has_shape_cell _ _ _ i j Hs1 Hi Hj) as [x ->].
  - apply (grid_ext (size s) (size s)); [by apply has_shape_masked_fill|done|].
    intros i j Hi Hj. rewrite cell_masked_fill, (Hcellgt i j Hi Hj).
    by destruct (has_shape_cell _ _ _ i j Hc1 Hi Hj) as [x ->].
Qed.

Lemma add_again_keeps_heights_witness :
  wf empty_room ∧
  ∃ s1 s2,
    add_height_map (p_to_add chair_placement) (Idx 0) 0 (q 1) empty_room = (Ok tt, s1) ∧
    add_height_map (p_to_add chair_placement) (Idx 1) (q 1) 0 s1 = (Ok tt, s2) ∧
    sin_map s2 = sin_map s1.
Proof.
  assert (H : wf empty_room) by (split; vm_compute; repeat constructor).
  split; [exact H|].
  destruct (add_again_keeps_heights (p_to_add chair_placement) (Idx 0) (Idx 1)
              0 (q 1) (q 1) 0 empty_room 0 1 H)
    as (s1 & s2 & H1 & H2 & _ & Hs & _).
  - split; vm_compute; repeat constructor.
  - reflexivity.
  - reflexivity.
  - exists s1, s2. split; [exact H1|]. split; [exact H2|exact Hs].
Defined.

(** X29. Additions leave the static layers alone.  [add_height_map],
    [add_node], [add_node_obb] and the loops over them never change the side,
    the category list, the room mask, the wall mask, the door map or the
    window map, and never change the number of category layers, whether they
    return or raise. *)
Theorem additions_frame (sqrt : Qc → Qc) (s : RenderedComposite) :
  let same (a b : RenderedComposite) :=
    size b = size a ∧ categories b = categories a ∧
    room_mask b = room_mask a ∧ wall_mask b = wall_mask a ∧
    door_map b = door_map a ∧ window_map b = window_map a ∧
    length (cat_map b) = length (cat_map a) in
  (∀ to_add c sin cos, same s (add_height_map to_add c sin cos s).2) ∧
  (∀ nodes, same s (add_nodes sqrt nodes s).2) ∧
  (∀ nodes, same s (add_nodes_obb sqrt nodes s).2).
Proof.
  intros same.
  assert (Hstep : ∀ a to_add c sin cos, same a (add_height_map to_add c sin cos a).2).
  { intros a to_add c sin cos.
    destruct (add_height_map_cases c a) as [(k & row & Hk & Hr)|[e He]].
    - rewrite (add_height_map_ok _ _ _ _ _ _ _ Hk Hr). unfold same. simpl.
      split_and!; try done. by rewrite length_insert.
    - rewrite (add_height_map_raise _ _ _ _ _ _ He). by unfold same. }
  assert (Hrefl : ∀ a, same a a) by (intros a; by unfold same).
  assert (Htrans : ∀ a b c, same a b → same b c → same a c).
  { unfold same. intros a b c (?&?&?&?&?&?&?) (?&?&?&?&?&?&?).
    split_and!; congruence. }
  split_and!.
  - intros. apply Hstep.
  - intros nodes. unfold add_nodes.
    apply (for_each_step (add_node sqrt) (λ _, True) same); [done|done| |done].
    intros node a _. split; [done|]. rewrite add_node_unfold.
    destruct (paste _ _ _) as [to_add|e]; [|apply Hrefl].
    destruct (get_transformation _ _) as [[sin cos]|e]; [|apply Hrefl].
    apply Hstep.
  - intros nodes. unfold add_nodes_obb.
    apply (for_each_step (add_node_obb sqrt) (λ _, True) same); [done|done| |done].
    intros node a _. split; [done|]. rewrite add_node_obb_unfold.
    destruct (paste _ _ _) as [to_add|e]; [|apply Hrefl].
    destruct (get_transformation _ _) as [[sin cos]|e]; [|apply Hrefl].
    apply Hstep.
Qed.
